(** * CRT Snake (PyGame): the game-state machine and the ghosting pass

    A shallow embedding of [src/main.py] (class [SnakeGamePygame]) and the
    properties of its session state machine: movement, food, scoring, style
    rotation, collisions, restart, and the frame history of the ghosting
    pass of [draw].

    Conventions of the embedding.
    - Python integers are [Z]; [//] is [Z.div] and [%] is [Z.modulo] (both
      round towards minus infinity, like Python's).
    - [pygame.Rect] is a record of four integers; [colliderect] and [move]
      follow pygame's definitions.
    - [self.random] is a sequence of draws [rnd : nat -> Z] together with the
      number of draws already consumed ([random_pos]); [randint a b] maps a
      draw into [a .. b], so every sequence of results the library may
      return is covered by some [rnd].
    - The unbounded [while True] loop of [new_food] takes fuel; running out
      of fuel is the outcome [Diverge], kept apart from Python exceptions
      ([Raise]).
    - Python floats are IEEE binary64 numbers, computed with the standard
      library's specification of floating-point arithmetic ([SpecFloat],
      round to nearest even); pygame's [set_alpha] keeps the integer part
      of its argument, clamped to 0..255.
    - The raster of a surface is an abstract type [Pixels]. What the
      painting routines [_draw_grid], [_draw_food] and [_draw_snake] do is
      modelled apart, as the list of pygame calls they make ([Paint]); text
      rendering, scanlines and the bezel are outside this development. *)

From Stdlib Require Import String ZArith List Bool Lia QArith Qround Lqa.
From Stdlib Require SpecFloat.
Import ListNotations.
Open Scope Z_scope.

(** ** Outcomes of running Python code *)

Inductive PyError : Type :=
| IndexError    (* list index out of range *)
| TypeError.    (* an operation applied to None *)

Inductive res (A : Type) : Type :=
| Ok (a : A)
| Raise (e : PyError)
| Diverge.      (* no result within the given fuel *)

Arguments Ok {A} a.
Arguments Raise {A} e.
Arguments Diverge {A}.

Definition bind {A B : Type} (m : res A) (k : A -> res B) : res B :=
  match m with
  | Ok a => k a
  | Raise e => Raise e
  | Diverge => Diverge
  end.

Notation "x <- m ;; k" := (bind m (fun x => k))
  (at level 61, m at next level, right associativity).

(** ** pygame.Rect *)

Record Rect : Type := mkRect
  { rect_x : Z; rect_y : Z; rect_w : Z; rect_h : Z }.

Definition rect_left (r : Rect) : Z := rect_x r.
Definition rect_top (r : Rect) : Z := rect_y r.
Definition rect_right (r : Rect) : Z := rect_x r + rect_w r.
Definition rect_bottom (r : Rect) : Z := rect_y r + rect_h r.

(** [Rect.move(dx, dy)]: a new rectangle, the receiver is not changed. *)
Definition rect_move (r : Rect) (dx dy : Z) : Rect :=
  mkRect (rect_x r + dx) (rect_y r + dy) (rect_w r) (rect_h r).

(** [Rect.colliderect]: rectangles of size zero collide with nothing;
    otherwise the two open extents must intersect on both axes (touching
    edges do not collide). *)
Definition colliderect (a b : Rect) : bool :=
  if (rect_w a =? 0) || (rect_h a =? 0) || (rect_w b =? 0) || (rect_h b =? 0)
  then false
  else
    (Z.min (rect_x a) (rect_x a + rect_w a) <? Z.max (rect_x b) (rect_x b + rect_w b))
    && (Z.min (rect_y a) (rect_y a + rect_h a) <? Z.max (rect_y b) (rect_y b + rect_h b))
    && (Z.min (rect_x b) (rect_x b + rect_w b) <? Z.max (rect_x a) (rect_x a + rect_w a))
    && (Z.min (rect_y b) (rect_y b + rect_h b) <? Z.max (rect_y a) (rect_y a + rect_h a)).

(** ** Game constants *)

Definition SCREEN_WIDTH : Z := 800.
Definition SCREEN_HEIGHT : Z := 600.
Definition UNIT_SIZE : Z := 20.
Definition DELAY_MS : Z := 100.
Definition BORDER_SIZE : Z := 20.
Definition STYLE_CHANGE_SCORE_INTERVAL : Z := 5.
Definition max_ghosting_frames : Z := 5.

(** ** CrtStyle *)

Definition Color : Type := (Z * Z * Z)%type.

Record CrtStyle : Type := mkCrtStyle
  { scanline_alpha : Z;
    ghosting_alpha : Z;
    snake_head_color : Color;
    snake_body_color : Color;
    background_color : Color;
    scanline_color : Color;
    grid_color : Color;
    bezel_color : Color;
    border_color : Color;
    inner_glow_color : Color;
    font_color : Color;
    food_color : Color;
    food_glow_color : Color;
    game_over_color : Color;
    font_name : string;
    font_size : Z;
    restart_text_color : Color;
    pixel_noise_density : Q;
    pixel_noise_alpha : Q;
    horizontal_banding_alpha : Q;
    horizontal_banding_thickness : Z }.

(** Style 1: green monochrome. *)
Definition style_green : CrtStyle :=
  {| scanline_alpha := 50; ghosting_alpha := 20;
     snake_head_color := (0, 255, 0); snake_body_color := (0, 180, 0);
     background_color := (8, 12, 8); scanline_color := (0, 0, 0);
     grid_color := (0, 40, 0); bezel_color := (20, 20, 20);
     border_color := (60, 60, 60); inner_glow_color := (0, 100, 0);
     font_color := (0, 255, 0); food_color := (255, 50, 50);
     food_glow_color := (255, 100, 100); game_over_color := (255, 0, 0);
     font_name := "Courier New"; font_size := 16;
     restart_text_color := (255, 255, 0);
     pixel_noise_density := 0%Q; pixel_noise_alpha := 0%Q;
     horizontal_banding_alpha := 0%Q; horizontal_banding_thickness := 0 |}.

(** Style 2: amber monochrome. *)
Definition style_amber : CrtStyle :=
  {| scanline_alpha := 40; ghosting_alpha := 30;
     snake_head_color := (255, 200, 0); snake_body_color := (180, 120, 0);
     background_color := (20, 10, 0); scanline_color := (0, 0, 0);
     grid_color := (50, 20, 0); bezel_color := (30, 20, 10);
     border_color := (80, 50, 20); inner_glow_color := (200, 100, 0);
     font_color := (255, 200, 0); food_color := (255, 255, 0);
     food_glow_color := (255, 255, 100); game_over_color := (255, 80, 0);
     font_name := "Courier New"; font_size := 16;
     restart_text_color := (255, 220, 0);
     pixel_noise_density := 0%Q; pixel_noise_alpha := 0%Q;
     horizontal_banding_alpha := 50%Q; horizontal_banding_thickness := 2 |}.

(** Style 3: blue monochrome. *)
Definition style_blue : CrtStyle :=
  {| scanline_alpha := 80; ghosting_alpha := 15;
     snake_head_color := (100, 100, 255); snake_body_color := (50, 50, 180);
     background_color := (0, 0, 50); scanline_color := (0, 0, 0);
     grid_color := (0, 0, 100); bezel_color := (10, 10, 30);
     border_color := (40, 40, 90); inner_glow_color := (0, 0, 200);
     font_color := (100, 100, 255); food_color := (255, 0, 255);
     food_glow_color := (255, 100, 255); game_over_color := (255, 50, 50);
     font_name := "Courier New"; font_size := 16;
     restart_text_color := (200, 200, 255);
     pixel_noise_density := (5 # 1000)%Q; pixel_noise_alpha := 50%Q;
     horizontal_banding_alpha := 0%Q; horizontal_banding_thickness := 0 |}.

(** [self.crt_styles] after [_initialize_crt_styles]. *)
Definition crt_styles : list CrtStyle := [style_green; style_amber; style_blue].

(** [l[i]] for a Python list: negative indices count from the end. *)
Definition py_index {A : Type} (l : list A) (i : Z) : res A :=
  let n := Z.of_nat (length l) in
  let j := if i <? 0 then i + n else i in
  if (j <? 0) || (n <=? j) then Raise IndexError
  else match nth_error l (Z.to_nat j) with
       | Some a => Ok a
       | None => Raise IndexError
       end.

(** [len(range(start, stop, step))] for a positive step. *)
Definition range_len (start stop step : Z) : nat :=
  if (0 <? step) && (start <? stop)
  then Z.to_nat ((stop - start + step - 1) / step)
  else O.

(** ** Directions, keys and events *)

Inductive Direction : Type := U | D | L | R.

Definition opposite (d : Direction) : Direction :=
  match d with U => D | D => U | L => R | R => L end.

Definition Direction_eqb (a b : Direction) : bool :=
  match a, b with
  | U, U | D, D | L, L | R, R => true
  | _, _ => false
  end.

Inductive Key : Type := K_LEFT | K_RIGHT | K_UP | K_DOWN | K_SPACE | K_OTHER.

Inductive Event : Type :=
| QUIT
| KEYDOWN (key : Key)
| GAME_UPDATE
| OTHER_EVENT.

(** The key that requests a direction. *)
Definition key_of (d : Direction) : Key :=
  match d with U => K_UP | D => K_DOWN | L => K_LEFT | R => K_RIGHT end.

(** ** The random source *)

(** [self.random.randint(a, b)]: an integer [N] with [a <= N <= b], read
    from draw number [pos]. *)
Definition randint (rnd : nat -> Z) (pos : nat) (a b : Z) : Z :=
  a + (rnd pos) mod (b - a + 1).

(** ** Python floats *)

(** A Python float: an IEEE binary64 number (53 bits of precision,
    exponent of the infinities 1024). *)
Definition float : Type := SpecFloat.spec_float.

(** [float(z)] for an integer [z], rounded to the nearest float. *)
Definition float_of_int (z : Z) : float :=
  SpecFloat.binary_normalize 53 1024 z 0 false.

Definition float_div (x y : float) : float := SpecFloat.SFdiv 53 1024 x y.
Definition float_sub (x y : float) : float := SpecFloat.SFsub 53 1024 x y.
Definition float_mul (x y : float) : float := SpecFloat.SFmul 53 1024 x y.

Definition float_is_finite (x : float) : bool :=
  match x with
  | SpecFloat.S754_zero _ | SpecFloat.S754_finite _ _ _ => true
  | SpecFloat.S754_infinity _ | SpecFloat.S754_nan => false
  end.

(** [int(x)] for a float [x]: the integer part, rounded towards zero.
    Python raises for an infinity or a NaN; no float computed by [draw]
    from a style of the game is one (see [frame_alpha_facts]), and 0
    stands for that case here. *)
Definition int_of_float (x : float) : Z :=
  match x with
  | SpecFloat.S754_zero _ => 0
  | SpecFloat.S754_finite s m e =>
      let magnitude :=
        if 0 <=? e then Z.pos m * 2 ^ e else Z.pos m / 2 ^ (- e) in
      if s then - magnitude else magnitude
  | SpecFloat.S754_infinity _ | SpecFloat.S754_nan => 0
  end.

Section Session.

Context {Pixels : Type}.

(** ** Surfaces *)

(** A surface: its raster and its per-surface alpha ([None]: never set, the
    surface is blitted opaque). *)
Record Surface : Type := mkSurface
  { pixels : Pixels; alpha : option Z }.

(** [Surface.copy()]: a distinct object with the same content. *)
Definition surface_copy (s : Surface) : Surface :=
  mkSurface (pixels s) (alpha s).

(** The alpha pygame keeps for [set_alpha(value)]: the integer part of
    [value], brought into 0..255. *)
Definition stored_alpha (value : float) : Z :=
  let alphaval := int_of_float value in
  if 255 <? alphaval then 255 else if alphaval <? 0 then 0 else alphaval.

Definition set_alpha (value : float) (s : Surface) : Surface :=
  mkSurface (pixels s) (Some (stored_alpha value)).

(** ** The session state (the attributes of [SnakeGamePygame]) *)

Record Game : Type := mkGame
  { snake : list Rect;
    food : option Rect;
    direction : Direction;
    running : bool;
    score : Z;
    high_score : Z;
    game_start_time : Q;
    ghosting_frames : list Surface;
    current_style_index : Z;
    current_style : CrtStyle;
    random_pos : nat }.

Definition set_snake (v : list Rect) (g : Game) : Game :=
  mkGame v (food g) (direction g) (running g) (score g) (high_score g)
    (game_start_time g) (ghosting_frames g) (current_style_index g)
    (current_style g) (random_pos g).

Definition set_food (v : option Rect) (g : Game) : Game :=
  mkGame (snake g) v (direction g) (running g) (score g) (high_score g)
    (game_start_time g) (ghosting_frames g) (current_style_index g)
    (current_style g) (random_pos g).

Definition set_direction (v : Direction) (g : Game) : Game :=
  mkGame (snake g) (food g) v (running g) (score g) (high_score g)
    (game_start_time g) (ghosting_frames g) (current_style_index g)
    (current_style g) (random_pos g).

Definition set_running (v : bool) (g : Game) : Game :=
  mkGame (snake g) (food g) (direction g) v (score g) (high_score g)
    (game_start_time g) (ghosting_frames g) (current_style_index g)
    (current_style g) (random_pos g).

Definition set_score (v : Z) (g : Game) : Game :=
  mkGame (snake g) (food g) (direction g) (running g) v (high_score g)
    (game_start_time g) (ghosting_frames g) (current_style_index g)
    (current_style g) (random_pos g).

Definition set_high_score (v : Z) (g : Game) : Game :=
  mkGame (snake g) (food g) (direction g) (running g) (score g) v
    (game_start_time g) (ghosting_frames g) (current_style_index g)
    (current_style g) (random_pos g).

Definition set_game_start_time (v : Q) (g : Game) : Game :=
  mkGame (snake g) (food g) (direction g) (running g) (score g) (high_score g)
    v (ghosting_frames g) (current_style_index g)
    (current_style g) (random_pos g).

Definition set_ghosting_frames (v : list Surface) (g : Game) : Game :=
  mkGame (snake g) (food g) (direction g) (running g) (score g) (high_score g)
    (game_start_time g) v (current_style_index g)
    (current_style g) (random_pos g).

Definition set_current_style_index (v : Z) (g : Game) : Game :=
  mkGame (snake g) (food g) (direction g) (running g) (score g) (high_score g)
    (game_start_time g) (ghosting_frames g) v
    (current_style g) (random_pos g).

Definition set_current_style (v : CrtStyle) (g : Game) : Game :=
  mkGame (snake g) (food g) (direction g) (running g) (score g) (high_score g)
    (game_start_time g) (ghosting_frames g) (current_style_index g)
    v (random_pos g).

Definition set_random_pos (v : nat) (g : Game) : Game :=
  mkGame (snake g) (food g) (direction g) (running g) (score g) (high_score g)
    (game_start_time g) (ghosting_frames g) (current_style_index g)
    (current_style g) v.

(** ** new_food *)

Definition min_x : Z := BORDER_SIZE / UNIT_SIZE.
Definition max_x : Z := (SCREEN_WIDTH - BORDER_SIZE - UNIT_SIZE) / UNIT_SIZE.
Definition min_y : Z := BORDER_SIZE / UNIT_SIZE.
Definition max_y : Z := (SCREEN_HEIGHT - BORDER_SIZE - UNIT_SIZE) / UNIT_SIZE.

(** The rectangle built by one pass of the loop from draws [pos], [pos+1]. *)
Definition candidate (rnd : nat -> Z) (pos : nat) : Rect :=
  let food_x := randint rnd pos min_x max_x * UNIT_SIZE in
  let food_y := randint rnd (S pos) min_y max_y * UNIT_SIZE in
  mkRect food_x food_y UNIT_SIZE UNIT_SIZE.

(** [any(segment.colliderect(r) for segment in snake)]. *)
Definition on_snake (segments : list Rect) (r : Rect) : bool :=
  existsb (fun segment => colliderect segment r) segments.

(** [new_food]: [self.food] is assigned on every pass, and the loop is left
    on the first candidate that no segment collides with. *)
Fixpoint new_food (fuel : nat) (rnd : nat -> Z) (g : Game) : res Game :=
  match fuel with
  | O => Diverge
  | S fuel' =>
      let g1 := set_random_pos (S (S (random_pos g)))
                  (set_food (Some (candidate rnd (random_pos g))) g) in
      if negb (on_snake (snake g1) (candidate rnd (random_pos g)))
      then Ok g1
      else new_food fuel' rnd g1
  end.

(** ** start_game *)

(** The three segments appended by [start_game], head first. *)
Definition initial_snake : list Rect :=
  let start_x := SCREEN_WIDTH / 2 in
  let start_y := SCREEN_HEIGHT / 2 in
  let start_x := ((start_x - BORDER_SIZE) / UNIT_SIZE) * UNIT_SIZE + BORDER_SIZE in
  let start_y := ((start_y - BORDER_SIZE) / UNIT_SIZE) * UNIT_SIZE + BORDER_SIZE in
  [ mkRect start_x start_y UNIT_SIZE UNIT_SIZE;
    mkRect (start_x - UNIT_SIZE) start_y UNIT_SIZE UNIT_SIZE;
    mkRect (start_x - UNIT_SIZE * 2) start_y UNIT_SIZE UNIT_SIZE ].

(** [start_game]; [now] is the reading of [time.time()]. The update timer
    it arms is part of the event source, not of the session. *)
Definition start_game (fuel : nat) (rnd : nat -> Z) (now : Q) (g : Game)
  : res Game :=
  let g := set_snake initial_snake g in
  let g := set_direction R g in
  let g := set_score 0 g in
  let g := set_current_style_index 0 g in
  style <- py_index crt_styles (current_style_index g) ;;
  let g := set_current_style style g in
  g <- new_food fuel rnd g ;;
  let g := set_running true g in
  let g := set_game_start_time now g in
  Ok (set_ghosting_frames [] g).

(** The attributes set by [__init__] before it calls [start_game]. *)
Definition constructed (style : CrtStyle) : Game :=
  {| snake := []; food := None; direction := R; running := false;
     score := 0; high_score := 0; game_start_time := 0%Q;
     ghosting_frames := []; current_style_index := 0;
     current_style := style; random_pos := O |}.

(** [SnakeGamePygame()]. *)
Definition init (fuel : nat) (rnd : nat -> Z) (now : Q) : res Game :=
  style <- py_index crt_styles 0 ;;
  start_game fuel rnd now (constructed style).

(** ** move, check_food, check_collisions *)

(** The head one unit further in the current direction. The source's last
    branch (any other direction value, "should not happen") has no
    counterpart: [Direction] has only the four values ever assigned. *)
Definition new_head_pos (d : Direction) (head : Rect) : Rect :=
  match d with
  | U => rect_move head 0 (- UNIT_SIZE)
  | D => rect_move head 0 UNIT_SIZE
  | L => rect_move head (- UNIT_SIZE) 0
  | R => rect_move head UNIT_SIZE 0
  end.

(** [self.food] used as a rectangle. *)
Definition food_rect (g : Game) : res Rect :=
  match food g with
  | Some f => Ok f
  | None => Raise TypeError
  end.

Definition move (g : Game) : res Game :=
  head <- py_index (snake g) 0 ;;
  let nh := new_head_pos (direction g) head in
  let g := set_snake (nh :: snake g) g in
  f <- food_rect g ;;
  if negb (colliderect nh f)
  then Ok (set_snake (removelast (snake g)) g)
  else Ok g.

Definition check_food (fuel : nat) (rnd : nat -> Z) (g : Game) : res Game :=
  head <- py_index (snake g) 0 ;;
  f <- food_rect g ;;
  if colliderect head f then
    let g := set_score (score g + 1) g in
    let g := set_high_score (Z.max (high_score g) (score g)) g in
    g <- (if (0 <? score g) && (score g mod STYLE_CHANGE_SCORE_INTERVAL =? 0)
          then
            let g := set_current_style_index
                       ((current_style_index g + 1)
                          mod Z.of_nat (length crt_styles)) g in
            style <- py_index crt_styles (current_style_index g) ;;
            Ok (set_current_style style g)
          else Ok g) ;;
    new_food fuel rnd g
  else Ok g.

(** The wall test of [check_collisions]. *)
Definition outside_playable (head : Rect) : bool :=
  (rect_left head <? BORDER_SIZE)
  || (SCREEN_WIDTH - BORDER_SIZE <? rect_right head)
  || (rect_top head <? BORDER_SIZE)
  || (SCREEN_HEIGHT - BORDER_SIZE <? rect_bottom head).

(** The loop over [self.snake[1:]] of [check_collisions]. *)
Definition hits_body (head : Rect) (body : list Rect) : bool :=
  existsb (fun segment => colliderect head segment) body.

Definition check_collisions (g : Game) : res Game :=
  head <- py_index (snake g) 0 ;;
  let g := if outside_playable head then set_running false g else g in
  let g := if hits_body head (tl (snake g)) then set_running false g else g in
  Ok g.

(** One game update: the three calls made for a [GAME_UPDATE] event. *)
Definition tick (fuel : nat) (rnd : nat -> Z) (g : Game) : res Game :=
  g <- move g ;;
  g <- check_food fuel rnd g ;;
  check_collisions g.

(** ** The event branch of run *)

(** The body of the loop over [pygame.event.get()] for one event. [QUIT]
    only clears the local flag of [run] (see [run_loop]). *)
Definition handle_event (fuel : nat) (rnd : nat -> Z) (now : Q) (ev : Event)
  (g : Game) : res Game :=
  match ev with
  | QUIT => Ok g
  | KEYDOWN K_LEFT =>
      Ok (if negb (Direction_eqb (direction g) R) then set_direction L g else g)
  | KEYDOWN K_RIGHT =>
      Ok (if negb (Direction_eqb (direction g) L) then set_direction R g else g)
  | KEYDOWN K_UP =>
      Ok (if negb (Direction_eqb (direction g) D) then set_direction U g else g)
  | KEYDOWN K_DOWN =>
      Ok (if negb (Direction_eqb (direction g) U) then set_direction D g else g)
  | KEYDOWN K_SPACE =>
      if negb (running g) then start_game fuel rnd now g else Ok g
  | KEYDOWN K_OTHER => Ok g
  | GAME_UPDATE =>
      if running g then tick fuel rnd g else Ok g
  | OTHER_EVENT => Ok g
  end.

(** ** The ghosting pass of draw *)

(** The float passed to [set_alpha] for the frame at index [i] of a
    history of [n] frames:
    [ghosting_alpha * (1 - (i / len(self.ghosting_frames)))]. *)
Definition ghost_alpha (base : Z) (i n : nat) : float :=
  float_mul (float_of_int base)
    (float_sub (float_of_int 1)
       (float_div (float_of_int (Z.of_nat i)) (float_of_int (Z.of_nat n)))).

(** The loop over [enumerate(self.ghosting_frames)], started at index [i]:
    each frame gets its alpha and is blitted. *)
Fixpoint fade (base : Z) (n i : nat) (frames : list Surface) : list Surface :=
  match frames with
  | [] => []
  | ghost_frame :: rest =>
      set_alpha (ghost_alpha base i n) ghost_frame :: fade base n (S i) rest
  end.

Definition Qpositive (q : Q) : bool := negb (Qle_bool q 0).

(** The calls of [self.random.random()] made by
    [_draw_background_artifacts] for one frame. *)
Definition artifact_draws (s : CrtStyle) : nat :=
  let rows :=
    range_len BORDER_SIZE (SCREEN_HEIGHT - BORDER_SIZE) (UNIT_SIZE / 2) in
  let columns :=
    range_len BORDER_SIZE (SCREEN_WIDTH - BORDER_SIZE) (UNIT_SIZE / 2) in
  let banding :=
    if Qpositive (horizontal_banding_alpha s)
       && (0 <? horizontal_banding_thickness s)
    then rows else O in
  let noise :=
    if Qpositive (pixel_noise_density s) && Qpositive (pixel_noise_alpha s)
    then Nat.mul columns rows else O in
  Nat.add banding noise.

(** [draw]: [content] is the raster composed for this frame. The result is
    the session afterwards and the surfaces blitted onto the cleared screen,
    in order (scanlines and border come after and are not modelled). *)
Definition draw (content : Pixels) (g : Game) : Game * list Surface :=
  let frame_surface := mkSurface content None in
  let g := set_random_pos (random_pos g + artifact_draws (current_style g)) g in
  let g := set_ghosting_frames
             (ghosting_frames g ++ [surface_copy frame_surface]) g in
  let g := if max_ghosting_frames <? Z.of_nat (length (ghosting_frames g))
           then set_ghosting_frames (tl (ghosting_frames g)) g
           else g in
  let faded := fade (ghosting_alpha (current_style g))
                 (length (ghosting_frames g)) O (ghosting_frames g) in
  let g := set_ghosting_frames faded g in
  (g, faded ++ [frame_surface]).

(** ** run *)

Definition is_quit (ev : Event) : bool :=
  match ev with QUIT => true | _ => false end.

(** The events of one loop iteration, each with the clock reading at the
    time it is handled. *)
Fixpoint handle_events (fuel : nat) (rnd : nat -> Z) (evs : list (Event * Q))
  (g : Game) : res Game :=
  match evs with
  | [] => Ok g
  | (ev, now) :: rest =>
      g <- handle_event fuel rnd now ev g ;;
      handle_events fuel rnd rest g
  end.

(** [run]: each iteration handles its events and draws one frame; the loop
    ends after the iteration that saw [QUIT]. *)
Fixpoint run_loop (fuel : nat) (rnd : nat -> Z)
  (iterations : list (list (Event * Q) * Pixels)) (g : Game) : res Game :=
  match iterations with
  | [] => Ok g
  | (evs, content) :: rest =>
      g <- handle_events fuel rnd evs g ;;
      let g := fst (draw content g) in
      if existsb is_quit (map fst evs) then Ok g
      else run_loop fuel rnd rest g
  end.

(** ** Reachable sessions *)

(** The sessions a process can be in: the constructed one, and whatever an
    event or a frame makes of a reachable one. *)
Inductive reachable (rnd : nat -> Z) : Game -> Prop :=
| reach_init fuel now g :
    init fuel rnd now = Ok g -> reachable rnd g
| reach_event fuel now ev g g' :
    reachable rnd g -> handle_event fuel rnd now ev g = Ok g' ->
    reachable rnd g'
| reach_draw content g :
    reachable rnd g -> reachable rnd (fst (draw content g)).

End Session.

(** ** Vocabulary of the statements *)

(** A unit square whose corner is a whole number of units away from the
    border. *)
Definition aligned_unit (r : Rect) : Prop :=
  rect_w r = UNIT_SIZE /\ rect_h r = UNIT_SIZE
  /\ (rect_x r - BORDER_SIZE) mod UNIT_SIZE = 0
  /\ (rect_y r - BORDER_SIZE) mod UNIT_SIZE = 0.

(** A cell of the playable grid: an aligned unit square that lies inside
    the playable area. *)
Definition grid_cell (r : Rect) : Prop :=
  aligned_unit r
  /\ BORDER_SIZE <= rect_left r /\ rect_right r <= SCREEN_WIDTH - BORDER_SIZE
  /\ BORDER_SIZE <= rect_top r /\ rect_bottom r <= SCREEN_HEIGHT - BORDER_SIZE.

(** The session [new_food] leaves when its pass number [k] (from 0) is the
    one that ends the loop. *)
Definition placed {Pixels : Type} (rnd : nat -> Z) (k : nat)
  (g : @Game Pixels) : Game :=
  set_random_pos (random_pos g + 2 * (k + 1))
    (set_food (Some (candidate rnd (random_pos g + 2 * k))) g).

(** The food of a session is a grid cell that no segment collides with. *)
Definition food_off_snake {Pixels : Type} (g : @Game Pixels) : Prop :=
  exists f, food g = Some f /\ grid_cell f
    /\ forall segment, In segment (snake g) -> colliderect segment f = false.

(** The cell of the playable grid in column [cx] and row [cy] (both counted
    in units from the screen corner, as [new_food] counts them). *)
Definition cell (cx cy : Z) : Rect :=
  mkRect (cx * UNIT_SIZE) (cy * UNIT_SIZE) UNIT_SIZE UNIT_SIZE.

(** Some cell that [new_food] can draw is free of snake segments. *)
Definition free_cell_exists (segments : list Rect) : Prop :=
  exists cx cy, min_x <= cx <= max_x /\ min_y <= cy <= max_y
    /\ on_snake segments (cell cx cy) = false.

(** The session after the scoring lines of [check_food] (the branch taken
    when the head is on the food), before the call of [new_food]. *)
Definition scored {Pixels : Type} (g : @Game Pixels) : Game :=
  let g := set_score (score g + 1) g in
  let g := set_high_score (Z.max (high_score g) (score g)) g in
  if (0 <? score g) && (score g mod STYLE_CHANGE_SCORE_INTERVAL =? 0)
  then
    let i := (current_style_index g + 1) mod 3 in
    set_current_style (nth (Z.to_nat i) crt_styles style_green)
      (set_current_style_index i g)
  else g.

(** The session after [check_collisions], for a snake with a head. *)
Definition crashed {Pixels : Type} (g : @Game Pixels) : Game :=
  match snake g with
  | [] => g
  | head :: body =>
      if outside_playable head || hits_body head body
      then set_running false g
      else g
  end.

(** The session [start_game] returns when pass [k] of its [new_food] ends
    the loop. *)
Definition restarted {Pixels : Type} (rnd : nat -> Z) (now : Q) (k : nat)
  (g : @Game Pixels) : @Game Pixels :=
  {| snake := initial_snake;
     food := Some (candidate rnd (random_pos g + 2 * k));
     direction := R;
     running := true;
     score := 0;
     high_score := high_score g;
     game_start_time := now;
     ghosting_frames := [];
     current_style_index := 0;
     current_style := style_green;
     random_pos := random_pos g + 2 * (k + 1) |}.

(** What holds of every reachable session. *)
Definition session_inv {Pixels : Type} (g : @Game Pixels) : Prop :=
  snake g <> []
  /\ Forall aligned_unit (snake g)
  /\ food_off_snake g
  /\ Z.of_nat (length (snake g)) = score g + 3
  /\ 0 <= score g <= high_score g
  /\ current_style_index g = (score g / STYLE_CHANGE_SCORE_INTERVAL) mod 3
  /\ py_index crt_styles (current_style_index g) = Ok (current_style g)
  /\ Z.of_nat (length (ghosting_frames g)) <= max_ghosting_frames.

(** Following the spec's words, for comparison with the alphas [draw]
    sets: the opacity of a buffered frame as a function of its age (0 for
    the most recent one), the base opacity scaled linearly down as the age
    grows. *)
Definition aged_alpha (base : Z) (age n : nat) : Q :=
  (inject_Z base * (1 - inject_Z (Z.of_nat age) / inject_Z (Z.of_nat n)))%Q.

(** What reaches the screen for one blitted surface: its raster and its
    alpha. *)
Definition shown {Pixels : Type} (s : @Surface Pixels)
  : Pixels * option Z :=
  (pixels s, alpha s).

(** The alpha [draw] stores for the frame at index [i] of [n]. *)
Definition frame_alpha (base : Z) (i n : nat) : Z :=
  stored_alpha (ghost_alpha base i n).

(** The frame history after [draw]. *)
Definition history_after {Pixels : Type} (content : Pixels)
  (g : @Game Pixels) : list Surface :=
  ghosting_frames (fst (draw content g)).

(** The facts of [frame_alpha_facts] for a base alpha and a history of [n]
    frames, as a test that can be run. *)
Definition frame_alpha_check (base : Z) (n : nat) : bool :=
  forallb
    (fun i =>
       float_is_finite (ghost_alpha base i n)
       && (base * Z.of_nat (n - i) - Z.of_nat n
           <=? frame_alpha base i n * Z.of_nat n)
       && (frame_alpha base i n * Z.of_nat n <=? base * Z.of_nat (n - i))
       && (if Nat.eqb i 0 then frame_alpha base i n =? base else true)
       && forallb (fun j => frame_alpha base j n <? frame_alpha base i n)
            (seq (S i) (n - S i)))
    (seq 0 n).

(** ** Sample draws and sessions *)

(** A random source that returns the listed draws, then zeros. *)
Definition rnd_of_list (l : list Z) (n : nat) : Z := nth n l 0.

(** The session at the point where [start_game], called by [__init__],
    calls [new_food]. *)
Definition g_spawn : @Game nat :=
  set_current_style style_green
    (set_current_style_index 0
       (set_score 0
          (set_direction R
             (set_snake initial_snake (constructed style_green))))).

(** A random source that puts the first food right in front of the initial
    snake and every later one a cell further to the right on the same row:
    pass [i] (from 0) draws column [21 + i] and row [15]. *)
Definition rnd_feed (n : nat) : Z :=
  if Nat.even n then 20 + Z.of_nat (Nat.div2 n) else 14.

(** The session after construction and the listed events (every clock
    reading is 0). *)
Definition session (fuel : nat) (rnd : nat -> Z) (evs : list Event)
  : res (@Game nat) :=
  g <- init fuel rnd 0%Q ;;
  handle_events fuel rnd (map (fun ev => (ev, 0%Q)) evs) g.

(** The result of a session that is known to return. *)
Definition the_session (r : res (@Game nat)) : @Game nat :=
  match r with
  | Ok g => g
  | _ => constructed style_green
  end.

(** Four updates, each one eating: score 4, first style. *)
Definition g_score4 : @Game nat :=
  Eval vm_compute in the_session (session 1 rnd_feed (repeat GAME_UPDATE 4)).

(** Five updates, each one eating (score 5, second style), then Up and
    fifteen updates: the last one leaves the playable area at the top. *)
Definition g_over : @Game nat :=
  Eval vm_compute in
    the_session
      (session 1 rnd_feed
         (repeat GAME_UPDATE 5 ++ KEYDOWN K_UP :: repeat GAME_UPDATE 15)).

(** Food in the corner cell; Up, one update, Left, nineteen updates: the
    head is in the leftmost playable column and moves Left. *)
Definition g_left_edge : @Game nat :=
  Eval vm_compute in
    the_session
      (session 1 (rnd_of_list [])
         (KEYDOWN K_UP :: GAME_UPDATE :: KEYDOWN K_LEFT
            :: repeat GAME_UPDATE 19)).

(** The constructed session after four frames 1, 2, 3, 4 have been drawn. *)
Definition g_four_frames : @Game nat :=
  Eval vm_compute in
    fst (draw 4%nat
           (fst (draw 3%nat
                   (fst (draw 2%nat
                           (fst (draw 1%nat
                                   (the_session
                                      (session 1 (rnd_of_list []) []))))))))).

(** ** The shape of the snake *)

(** Consecutive segments are one step apart: each segment is the next one
    moved one unit in some direction. *)
Fixpoint chain (segments : list Rect) : Prop :=
  match segments with
  | a :: rest =>
      match rest with
      | b :: _ => (exists d, a = new_head_pos d b) /\ chain rest
      | [] => True
      end
  | [] => True
  end.

(** Two directions along different axes. *)
Definition perpendicular (d d' : Direction) : Prop :=
  d <> d' /\ d <> opposite d'.

(** What holds of the snake of every reachable session, beside
    [session_inv]: the segments behind the head are distinct cells of the
    playable grid, the snake is a chain, and the session is running exactly
    when the head passes both tests of [check_collisions]. *)
Definition body_inv {Pixels : Type} (g : @Game Pixels) : Prop :=
  exists head body,
    snake g = head :: body
    /\ Forall grid_cell body
    /\ NoDup body
    /\ running g = negb (outside_playable head || hits_body head body)
    /\ chain (snake g).

(** [list(range(start, stop, step))] for a step of either sign (Python
    raises for step 0; the empty list stands for that here). *)
Definition py_range_len (start stop step : Z) : nat :=
  if 0 <? step
  then (if start <? stop
        then Z.to_nat ((stop - start + step - 1) / step) else O)
  else if step <? 0
  then (if stop <? start
        then Z.to_nat ((start - stop - step - 1) / (- step)) else O)
  else O.

Definition py_range (start stop step : Z) : list Z :=
  map (fun k => start + Z.of_nat k * step)
    (seq 0 (py_range_len start stop step)).

(** Every cell [new_food] can draw, column by column. *)
Definition all_cells : list Rect :=
  flat_map (fun cx => map (fun cy => cell cx cy) (py_range min_y (max_y + 1) 1))
    (py_range min_x (max_x + 1) 1).

(** The constructed session with food in the corner cell, and the same
    after one update. *)
Definition g_start : @Game nat :=
  Eval vm_compute in the_session (session 1 (rnd_of_list []) []).

Definition g_moved : @Game nat :=
  Eval vm_compute in the_session (session 1 (rnd_of_list []) [GAME_UPDATE]).

(** A session whose snake lies under every cell of the board. *)
Definition g_full : @Game nat := set_snake all_cells g_start.

(** Two sessions that agree on everything but the direction, the frame
    history and the position in the random source. *)
Definition same_play {Pixels : Type} (g g' : @Game Pixels) : Prop :=
  snake g' = snake g /\ food g' = food g /\ running g' = running g
  /\ score g' = score g /\ high_score g' = high_score g
  /\ game_start_time g' = game_start_time g
  /\ current_style_index g' = current_style_index g
  /\ current_style g' = current_style g.

(** No event of the iterations is the restart key. *)
Definition no_restart {Pixels : Type}
  (iterations : list (list (Event * Q) * Pixels)) : Prop :=
  Forall (fun it => Forall (fun p => fst p <> KEYDOWN K_SPACE) (fst it))
    iterations.

(** ** Painting *)

(** The pygame calls made on a surface, in order. [alpha] is the fourth
    component of an RGBA colour ([None] for a plain RGB colour). [Blit] is
    a new per-pixel-alpha surface of the given size, painted by [content]
    and then blitted at [dest]. *)
#[local] Set Warnings "-register-all".

Inductive Paint : Type :=
| Line (color : Color) (alpha : option Z) (start_pos end_pos : Z * Z)
    (width : Z)
| Circle (color : Color) (alpha : option Z) (center : Z * Z) (radius : Z)
| Box (color : Color) (alpha : option Z) (r : Rect) (border_radius : Z)
| Fill (color : Color) (alpha : option Z)
| Blit (size : Z * Z) (content : list Paint) (dest : Z * Z).

Definition rect_centerx (r : Rect) : Z := rect_x r + rect_w r / 2.
Definition rect_centery (r : Rect) : Z := rect_y r + rect_h r / 2.

(** [_draw_grid]: the vertical lines, then the horizontal ones. *)
Definition _draw_grid (style : CrtStyle) : list Paint :=
  map (fun i => Line (grid_color style) None
                  (i, BORDER_SIZE) (i, SCREEN_HEIGHT - BORDER_SIZE) 1)
    (py_range BORDER_SIZE (SCREEN_WIDTH - BORDER_SIZE) UNIT_SIZE)
  ++ map (fun i => Line (grid_color style) None
                     (BORDER_SIZE, i) (SCREEN_WIDTH - BORDER_SIZE, i) 1)
       (py_range BORDER_SIZE (SCREEN_HEIGHT - BORDER_SIZE) UNIT_SIZE).

(** [_draw_food], for the rectangle in [self.food]: eight glow surfaces,
    the main circle, the bright centre. *)
Definition _draw_food (style : CrtStyle) (food : Rect) : list Paint :=
  map (fun i =>
         let alpha := Z.min 255 ((8 - i) * 25) in
         let size := UNIT_SIZE + i * 2 in
         Blit (size, size)
           [Circle (food_glow_color style) (Some alpha)
              (size / 2, size / 2) ((UNIT_SIZE + i * 2) / 2)]
           (rect_x food - i, rect_y food - i))
    (py_range 8 0 (-1))
  ++ [ Circle (food_color style) None
         (rect_centerx food, rect_centery food) (UNIT_SIZE / 2);
       (let '(red, green, blue) := food_color style in
        Circle (Z.min 255 (red + 50), Z.min 255 (green + 50),
                Z.min 255 (blue + 50)) None
          (rect_centerx food, rect_centery food) ((UNIT_SIZE - 8) / 2)) ].

(** The body of the loop of [_draw_snake] for the segment at index [i]. *)
Definition draw_segment (style : CrtStyle) (i : nat) (segment : Rect)
  : list Paint :=
  if Nat.eqb i 0 then
    map (fun j =>
           let alpha := Z.min 255 ((6 - j) * 40) in
           let size := UNIT_SIZE + j * 2 in
           Blit (size, size)
             [Box (snake_head_color style) (Some alpha)
                (mkRect 0 0 size size) (UNIT_SIZE / 4)]
             (rect_x segment - j, rect_y segment - j))
      (py_range 6 0 (-1))
    ++ [ Box (snake_head_color style) None segment (UNIT_SIZE / 4);
         Box (background_color style) None
           (mkRect (rect_x segment + 3) (rect_y segment + 3) 4 4) 0;
         Box (background_color style) None
           (mkRect (rect_x segment + 13) (rect_y segment + 3) 4 4) 0 ]
  else
    map (fun j =>
           let alpha := Z.min 255 ((3 - j) * 60) in
           let size := UNIT_SIZE + j * 2 in
           Blit (size, size)
             [Box (snake_body_color style) (Some alpha)
                (mkRect 0 0 size size) (UNIT_SIZE / 4)]
             (rect_x segment - j, rect_y segment - j))
      (py_range 3 0 (-1))
    ++ [ Box (snake_body_color style) None segment (UNIT_SIZE / 4);
         Blit (UNIT_SIZE - 4, UNIT_SIZE - 4)
           [Fill (snake_body_color style) (Some 100)]
           (rect_x segment + 2, rect_y segment + 2) ].

(** [enumerate(l)], counting from [i]. *)
Fixpoint enumerate_from {A : Type} (i : nat) (l : list A) : list (nat * A) :=
  match l with
  | [] => []
  | a :: rest => (i, a) :: enumerate_from (S i) rest
  end.

(** [_draw_snake]. *)
Definition _draw_snake (style : CrtStyle) (segments : list Rect)
  : list Paint :=
  flat_map (fun p => draw_segment style (fst p) (snd p))
    (enumerate_from 0 segments).

(** The rectangle a paint covers on the surface it is applied to ([None]
    for a fill, which covers whatever surface it is given). *)
Definition extent (p : Paint) : option Rect :=
  match p with
  | Line _ _ (x1, y1) (x2, y2) _ =>
      Some (mkRect (Z.min x1 x2) (Z.min y1 y2)
              (Z.abs (x2 - x1)) (Z.abs (y2 - y1)))
  | Circle _ _ (cx, cy) radius =>
      Some (mkRect (cx - radius) (cy - radius) (2 * radius) (2 * radius))
  | Box _ _ r _ => Some r
  | Fill _ _ => None
  | Blit (width, height) _ (x, y) => Some (mkRect x y width height)
  end.

(** A rectangle that stays within [margin] pixels of the playable area. *)
Definition near_playable (margin : Z) (r : Rect) : Prop :=
  BORDER_SIZE - margin <= rect_left r
  /\ rect_right r <= SCREEN_WIDTH - BORDER_SIZE + margin
  /\ BORDER_SIZE - margin <= rect_top r
  /\ rect_bottom r <= SCREEN_HEIGHT - BORDER_SIZE + margin.

(** [int(x)] for a float [x]: the integer part, rounded towards zero. *)
Definition py_int (x : Q) : Z :=
  if Qle_bool 0 x then Qfloor x else - Qfloor (- x).

(** The test of [_draw_game_over] that decides whether the restart prompt
    is painted, for the reading [current_time] of [time.time()]:
    [int(current_time * 2) % 2 == 0]. Doubling a float is exact, so the
    rational computation is the float one. *)
Definition restart_prompt_visible (current_time : Q) : bool :=
  py_int (current_time * 2) mod 2 =? 0.

(** ** Collisions, in the words of the specification *)

(** A rectangle that lies inside the playable bounds: at least the border
    away from every edge of the screen. *)
Definition in_playable (r : Rect) : Prop :=
  BORDER_SIZE <= rect_x r
  /\ rect_x r + rect_w r <= SCREEN_WIDTH - BORDER_SIZE
  /\ BORDER_SIZE <= rect_y r
  /\ rect_y r + rect_h r <= SCREEN_HEIGHT - BORDER_SIZE.

(** Two rectangles that share an area: their extents intersect on both
    axes. *)
Definition overlaps (a b : Rect) : Prop :=
  rect_x a < rect_x b + rect_w b /\ rect_x b < rect_x a + rect_w a
  /\ rect_y a < rect_y b + rect_h b /\ rect_y b < rect_y a + rect_h a.

(** The state before the last update of [g_over]: the head is in the top
    row and moves Up. *)
Definition g_top_edge : @Game nat :=
  Eval vm_compute in
    the_session
      (session 1 rnd_feed
         (repeat GAME_UPDATE 5 ++ KEYDOWN K_UP :: repeat GAME_UPDATE 14)).

(** Food in the corner cell; eighteen updates to the right: the head is in
    the last column and moves Right. *)
Definition g_right_edge : @Game nat :=
  Eval vm_compute in
    the_session (session 1 (rnd_of_list []) (repeat GAME_UPDATE 18)).

(** Food in the corner cell; Down and thirteen updates: the head is in the
    bottom row and moves Down. *)
Definition g_bottom_edge : @Game nat :=
  Eval vm_compute in
    the_session
      (session 1 (rnd_of_list []) (KEYDOWN K_DOWN :: repeat GAME_UPDATE 13)).

(** One update, then Up and Left before the next one: the stored direction
    points back at the segment behind the head. *)
Definition g_reversed : @Game nat :=
  Eval vm_compute in
    the_session
      (session 1 (rnd_of_list [])
         [GAME_UPDATE; KEYDOWN K_UP; KEYDOWN K_LEFT]).

(** ** A closed tour of the playable grid *)

(** [SnakeGamePygame().run()]: construction, then the loop over the given
    iterations. *)
Definition main {Pixels : Type} (fuel : nat) (rnd : nat -> Z)
  (iterations : list (list (Event * Q) * Pixels)) : res (@Game Pixels) :=
  g <- init fuel rnd 0%Q ;;
  run_loop fuel rnd iterations g.

(** The number of cells of the playable grid. *)
Definition tour_length : Z := (max_x - min_x + 1) * (max_y - min_y + 1).

(** The direction a player on the tour takes from the cell [r]: right along
    the top row, then down through the rows below in alternating directions
    (columns 2 to 38 only), and from the bottom row back up the first
    column. *)
Definition steer (r : Rect) : Direction :=
  let cx := rect_x r / UNIT_SIZE in
  let cy := rect_y r / UNIT_SIZE in
  if cx =? 1 then (if cy =? 1 then R else U)
  else if cy =? 1 then (if cx =? 38 then D else R)
  else if Z.even cy then (if cx =? 2 then (if cy =? 28 then L else D) else L)
  else (if cx =? 38 then D else R).

(** The cell at position [i] of the tour; position 0 is the top left
    cell. *)
Definition tour_cell (i : Z) : Rect :=
  if i <? 38 then cell (i + 1) 1
  else if i <? 1037 then
    let row := (i - 38) / 37 + 2 in
    let k := (i - 38) mod 37 in
    if Z.even row then cell (38 - k) row else cell (2 + k) row
  else cell 1 (28 - (i - 1037)).

(** The position of a cell on the tour. *)
Definition tour_index (r : Rect) : Z :=
  let cx := rect_x r / UNIT_SIZE in
  let cy := rect_y r / UNIT_SIZE in
  if cy =? 1 then cx - 1
  else if cx =? 1 then 1037 + (28 - cy)
  else 38 + (cy - 2) * 37 + (if Z.even cy then 38 - cx else cx - 2).

Definition Rect_eqb (a b : Rect) : bool :=
  (rect_x a =? rect_x b) && (rect_y a =? rect_y b)
  && (rect_w a =? rect_w b) && (rect_h a =? rect_h b).

(** [grid_cell], as a test that can be run. *)
Definition grid_cellb (r : Rect) : bool :=
  (rect_w r =? UNIT_SIZE) && (rect_h r =? UNIT_SIZE)
  && ((rect_x r - BORDER_SIZE) mod UNIT_SIZE =? 0)
  && ((rect_y r - BORDER_SIZE) mod UNIT_SIZE =? 0)
  && (BORDER_SIZE <=? rect_left r)
  && (rect_right r <=? SCREEN_WIDTH - BORDER_SIZE)
  && (BORDER_SIZE <=? rect_top r)
  && (rect_bottom r <=? SCREEN_HEIGHT - BORDER_SIZE).

(** Position [i] of the tour holds a grid cell, the step the player takes
    there leads to the cell at the next position (the first one after the
    last), and the step after that is not a reversal. *)
Definition tour_check (i : nat) : bool :=
  let p := Z.of_nat i in
  let r := tour_cell p in
  let r' := tour_cell ((p + 1) mod tour_length) in
  grid_cellb r
  && (tour_index r =? p)
  && Rect_eqb (new_head_pos (steer r) r) r'
  && negb (Direction_eqb (steer r') (opposite (steer r))).

(** Every grid cell is on the tour. *)
Definition tour_index_check (r : Rect) : bool :=
  (0 <=? tour_index r) && (tour_index r <? tour_length)
  && Rect_eqb (tour_cell (tour_index r)) r.

(** The snake that lies along the tour with its head at position [p]: [n]
    segments, each one position behind the one before it. *)
Definition arc (p : Z) (n : nat) : list Rect :=
  map (fun i => tour_cell ((p - Z.of_nat i) mod tour_length)) (seq 0 n).

(** A running session whose snake lies along the tour, head at position
    [p], with the food [d] positions ahead of the head, and whose stored
    direction lets the player take the next step of the tour. *)
Definition on_tour {Pixels : Type} (rnd : nat -> Z) (g : @Game Pixels)
  (p : Z) (n : nat) (d : Z) : Prop :=
  reachable rnd g
  /\ running g = true
  /\ snake g = arc p n
  /\ (3 <= n)%nat
  /\ food g = Some (tour_cell ((p + d) mod tour_length))
  /\ 1 <= d <= tour_length - Z.of_nat n
  /\ steer (tour_cell (p mod tour_length)) <> opposite (direction g).

(** The head of the initial snake, and its position on the tour. *)
Definition initial_head : Rect :=
  Eval vm_compute in hd (mkRect 0 0 0 0) initial_snake.

Definition tour_start : Z := Eval vm_compute in tour_index initial_head.

(** What the player on the tour does for one game update, with the head on
    [head]: [idle] frames pass without events, then the key for the
    direction of the tour and the game update are handled in one frame. *)
Definition tour_step {Pixels : Type} (content : Pixels) (idle : nat)
  (head : Rect) : list (list (Event * Q) * Pixels) :=
  repeat ([], content) idle
  ++ [([(KEYDOWN (key_of (steer head)), 0%Q); (GAME_UPDATE, 0%Q)], content)].

(** The frames of [steps] game updates of the player on the tour. *)
Fixpoint tour_frames {Pixels : Type} (content : Pixels) (idle : nat)
  (steps : nat) (head : Rect) : list (list (Event * Q) * Pixels) :=
  match steps with
  | O => []
  | S steps' =>
      tour_step content idle head
      ++ tour_frames content idle steps' (new_head_pos (steer head) head)
  end.

(** The events of the same player, without the frames. *)
Fixpoint tour_events (steps : nat) (head : Rect) : list Event :=
  match steps with
  | O => []
  | S steps' =>
      KEYDOWN (key_of (steer head)) :: GAME_UPDATE
        :: tour_events steps' (new_head_pos (steer head) head)
  end.

(** Draws that put every food on the cell right ahead of the head: food
    number [k] (from 1) lies [k] positions after the initial head. *)
Definition tour_draws : list Z :=
  Eval vm_compute in
    flat_map
      (fun k =>
         let c := tour_cell ((tour_start + Z.of_nat k) mod tour_length) in
         [rect_x c / UNIT_SIZE - min_x; rect_y c / UNIT_SIZE - min_y])
      (seq 1 1061).

Definition rnd_tour : nat -> Z := rnd_of_list tour_draws.

(** The session of the player on the tour after 1060 game updates with the
    draws [rnd_tour]: every update has eaten. *)
Definition g_last : @Game nat :=
  Eval vm_compute in
    the_session (session 1 rnd_tour (tour_events 1060 initial_head)).

(** * Properties *)

(** ** Basic facts *)

Lemma py_index_0_cons {A : Type} (a : A) (l : list A) :
  py_index (a :: l) 0 = Ok a.
Proof.
  unfold py_index.
  replace (0 <? 0) with false by reflexivity.
  cbn [orb].
  destruct (Z.of_nat (length (a :: l)) <=? 0) eqn:E.
  - apply Z.leb_le in E. cbn [length] in E. lia.
  - reflexivity.
Qed.

Lemma py_index_0_nil {A : Type} : py_index (@nil A) 0 = Raise IndexError.
Proof. reflexivity. Qed.

Lemma py_index_0_inv {A : Type} (l : list A) (a : A) :
  py_index l 0 = Ok a -> exists t, l = a :: t.
Proof.
  destruct l as [|b t]; intros H.
  - rewrite py_index_0_nil in H. discriminate.
  - rewrite py_index_0_cons in H. inversion H. now exists t.
Qed.

Lemma min_x_val : min_x = 1. Proof. reflexivity. Qed.
Lemma max_x_val : max_x = 38. Proof. reflexivity. Qed.
Lemma min_y_val : min_y = 1. Proof. reflexivity. Qed.
Lemma max_y_val : max_y = 28. Proof. reflexivity. Qed.

Lemma randint_range (rnd : nat -> Z) (pos : nat) (a b : Z) :
  a <= b -> a <= randint rnd pos a b <= b.
Proof.
  intros Hab. unfold randint.
  pose proof (Z.mod_pos_bound (rnd pos) (b - a + 1)) as Hm.
  lia.
Qed.

Lemma candidate_grid_cell (rnd : nat -> Z) (pos : nat) :
  grid_cell (candidate rnd pos).
Proof.
  unfold grid_cell, aligned_unit, candidate, rect_left, rect_right, rect_top,
    rect_bottom.
  cbn [rect_x rect_y rect_w rect_h].
  rewrite min_x_val, max_x_val, min_y_val, max_y_val.
  pose proof (randint_range rnd pos 1 38 ltac:(lia)) as Hx.
  pose proof (randint_range rnd (S pos) 1 28 ltac:(lia)) as Hy.
  unfold UNIT_SIZE, BORDER_SIZE, SCREEN_WIDTH, SCREEN_HEIGHT.
  repeat split; try lia.
  - replace (randint rnd pos 1 38 * 20 - 20)
      with ((randint rnd pos 1 38 - 1) * 20) by lia.
    apply Z_mod_mult.
  - replace (randint rnd (S pos) 1 28 * 20 - 20)
      with ((randint rnd (S pos) 1 28 - 1) * 20) by lia.
    apply Z_mod_mult.
Qed.

Lemma on_snake_false (segments : list Rect) (r : Rect) :
  on_snake segments r = false <->
  forall segment, In segment segments -> colliderect segment r = false.
Proof.
  unfold on_snake. split.
  - intros H segment Hin.
    destruct (colliderect segment r) eqn:E; [|reflexivity].
    assert (existsb (fun s => colliderect s r) segments = true) as Ht
      by (apply existsb_exists; eauto).
    congruence.
  - intros H. destruct (existsb _ segments) eqn:E; [|reflexivity].
    apply existsb_exists in E. destruct E as [s [Hin Hs]].
    rewrite (H s Hin) in Hs. discriminate.
Qed.

Section NewFood.

Context {Pixels : Type}.
Implicit Types g : @Game Pixels.

Lemma new_food_unfold (fuel : nat) (rnd : nat -> Z) g :
  new_food (S fuel) rnd g =
  if negb (on_snake (snake g) (candidate rnd (random_pos g)))
  then Ok (placed rnd 0 g)
  else new_food fuel rnd (placed rnd 0 g).
Proof.
  cbn [new_food]. unfold placed.
  replace (random_pos g + 2 * (0 + 1))%nat with (S (S (random_pos g))) by lia.
  replace (random_pos g + 2 * 0)%nat with (random_pos g) by lia.
  reflexivity.
Qed.

Lemma placed_placed (rnd : nat -> Z) (k : nat) g :
  placed rnd k (placed rnd 0 g) = placed rnd (S k) g.
Proof.
  unfold placed, set_random_pos, set_food.
  cbn [snake food direction running score high_score game_start_time
       ghosting_frames current_style_index current_style random_pos].
  f_equal; [do 2 f_equal|]; lia.
Qed.

(** Whatever [new_food] returns was produced by the first pass whose
    candidate is off the snake. *)
Lemma new_food_inv (fuel : nat) (rnd : nat -> Z) :
  forall g g',
    new_food fuel rnd g = Ok g' ->
    exists k, (k < fuel)%nat
      /\ g' = placed rnd k g
      /\ on_snake (snake g) (candidate rnd (random_pos g + 2 * k)) = false
      /\ forall j, (j < k)%nat ->
           on_snake (snake g) (candidate rnd (random_pos g + 2 * j)) = true.
Proof.
  induction fuel as [|fuel IH]; intros g g' H.
  - discriminate.
  - rewrite new_food_unfold in H.
    destruct (on_snake (snake g) (candidate rnd (random_pos g))) eqn:E;
      cbn [negb] in H.
    + apply IH in H. destruct H as [k [Hk [Hg [Hfree Hbusy]]]].
      exists (S k). rewrite placed_placed in Hg.
      replace (random_pos (placed rnd 0 g) + 2 * k)%nat
        with (random_pos g + 2 * S k)%nat in Hfree by (cbn; lia).
      cbn [placed snake set_random_pos set_food] in Hfree.
      repeat split; [lia | exact Hg | exact Hfree |].
      intros [|j] Hj.
      * replace (random_pos g + 2 * 0)%nat with (random_pos g) by lia. exact E.
      * specialize (Hbusy j ltac:(lia)).
        replace (random_pos (placed rnd 0 g) + 2 * j)%nat
          with (random_pos g + 2 * S j)%nat in Hbusy by (cbn; lia).
        exact Hbusy.
    + inversion H; subst. exists O.
      replace (random_pos g + 2 * 0)%nat with (random_pos g) by lia.
      repeat split; [lia | exact E |]. intros j Hj. lia.
Qed.

Lemma new_food_no_raise (fuel : nat) (rnd : nat -> Z) :
  forall g e, new_food fuel rnd g <> Raise e.
Proof.
  induction fuel as [|fuel IH]; intros g e.
  - discriminate.
  - rewrite new_food_unfold.
    destruct (negb _); [discriminate | apply IH].
Qed.

Lemma new_food_first_free (rnd : nat -> Z) (k : nat) :
  forall g fuel,
    (forall j, (j < k)%nat ->
       on_snake (snake g) (candidate rnd (random_pos g + 2 * j)) = true) ->
    on_snake (snake g) (candidate rnd (random_pos g + 2 * k)) = false ->
    (k < fuel)%nat ->
    new_food fuel rnd g = Ok (placed rnd k g).
Proof.
  induction k as [|k IH]; intros g fuel Hbusy Hfree Hfuel.
  - destruct fuel as [|fuel]; [lia|].
    rewrite new_food_unfold.
    replace (random_pos g + 2 * 0)%nat with (random_pos g) in Hfree by lia.
    rewrite Hfree. reflexivity.
  - destruct fuel as [|fuel]; [lia|].
    rewrite new_food_unfold.
    pose proof (Hbusy O ltac:(lia)) as H0.
    replace (random_pos g + 2 * 0)%nat with (random_pos g) in H0 by lia.
    rewrite H0. cbn [negb].
    rewrite <- placed_placed. apply IH; [| |lia].
    + intros j Hj. specialize (Hbusy (S j) ltac:(lia)).
      replace (random_pos (placed rnd 0 g) + 2 * j)%nat
        with (random_pos g + 2 * S j)%nat by (cbn; lia).
      exact Hbusy.
    + replace (random_pos (placed rnd 0 g) + 2 * k)%nat
        with (random_pos g + 2 * S k)%nat by (cbn; lia).
      exact Hfree.
Qed.

Lemma new_food_all_busy (rnd : nat -> Z) (fuel : nat) :
  forall g,
    (forall j, (j < fuel)%nat ->
       on_snake (snake g) (candidate rnd (random_pos g + 2 * j)) = true) ->
    new_food fuel rnd g = Diverge.
Proof.
  induction fuel as [|fuel IH]; intros g Hbusy.
  - reflexivity.
  - rewrite new_food_unfold.
    pose proof (Hbusy O ltac:(lia)) as H0.
    replace (random_pos g + 2 * 0)%nat with (random_pos g) in H0 by lia.
    rewrite H0. cbn [negb]. apply IH.
    intros j Hj. specialize (Hbusy (S j) ltac:(lia)).
    replace (random_pos (placed rnd 0 g) + 2 * j)%nat
      with (random_pos g + 2 * S j)%nat by (cbn; lia).
    exact Hbusy.
Qed.

End NewFood.

(** ** Food placement *)

Lemma new_food_food_off_snake {Pixels : Type} (fuel : nat) (rnd : nat -> Z)
  (g g' : @Game Pixels) :
  new_food fuel rnd g = Ok g' -> food_off_snake g' /\ snake g' = snake g.
Proof.
  intros H. apply new_food_inv in H.
  destruct H as [k [_ [Hg [Hfree _]]]]. subst g'.
  split; [|reflexivity].
  exists (candidate rnd (random_pos g + 2 * k)).
  split; [reflexivity|]. split; [apply candidate_grid_cell|].
  apply on_snake_false. exact Hfree.
Qed.

(** C5. Immediately after a call of [new_food] that has returned, the food
    is a unit square aligned to the grid of the playable area, and no
    segment of the snake (which the call leaves as it was) collides with
    it. *)
Theorem new_food_spawns_off_snake {Pixels : Type} (fuel : nat)
  (rnd : nat -> Z) (g g' : @Game Pixels) :
  new_food fuel rnd g = Ok g' ->
  exists f,
    food g' = Some f
    /\ grid_cell f
    /\ snake g' = snake g
    /\ forall segment, In segment (snake g') -> colliderect segment f = false.
Proof.
  intros H. apply new_food_food_off_snake in H.
  destruct H as [[f [Hf [Hcell Hoff]]] Hs].
  exists f. auto.
Qed.

Lemma new_food_spawns_off_snake_witness :
  new_food 3 (rnd_of_list [19; 14; 20; 14]) g_spawn
    = Ok (placed (rnd_of_list [19; 14; 20; 14]) 1 g_spawn)
  /\ exists f,
       food (placed (rnd_of_list [19; 14; 20; 14]) 1 g_spawn) = Some f
       /\ grid_cell f
       /\ snake (placed (rnd_of_list [19; 14; 20; 14]) 1 g_spawn)
          = snake g_spawn
       /\ forall segment,
            In segment (snake (placed (rnd_of_list [19; 14; 20; 14]) 1 g_spawn)) ->
            colliderect segment f = false.
Proof.
  split; [reflexivity|].
  apply (new_food_spawns_off_snake 3 (rnd_of_list [19; 14; 20; 14]) g_spawn).
  reflexivity.
Defined.

(** A cell that is in range can be drawn: the draws [cx - min_x] and
    [cy - min_y] produce it. *)
Lemma candidate_of_draws (rnd : nat -> Z) (pos : nat) (cx cy : Z) :
  min_x <= cx <= max_x -> min_y <= cy <= max_y ->
  rnd pos = cx - min_x -> rnd (S pos) = cy - min_y ->
  candidate rnd pos = cell cx cy.
Proof.
  rewrite min_x_val, max_x_val, min_y_val, max_y_val.
  intros Hx Hy Hdx Hdy. unfold candidate, cell, randint.
  rewrite Hdx, Hdy, min_x_val, max_x_val, min_y_val, max_y_val.
  rewrite !Z.mod_small by lia.
  f_equal; lia.
Qed.

(** ** One game update *)

Lemma removelast_cons_length {A : Type} (a : A) (l : list A) :
  length (removelast (a :: l)) = length l.
Proof.
  revert a. induction l as [|b l IH]; intros a.
  - reflexivity.
  - change (removelast (a :: b :: l)) with (a :: removelast (b :: l)).
    cbn [length]. now rewrite IH.
Qed.

Lemma py_index_crt_styles (i : Z) :
  0 <= i < 3 ->
  py_index crt_styles i = Ok (nth (Z.to_nat i) crt_styles style_green).
Proof.
  intros Hi.
  assert (i = 0 \/ i = 1 \/ i = 2) as [-> | [-> | ->]] by lia; reflexivity.
Qed.

Section Tick.

Context {Pixels : Type}.
Implicit Types g : @Game Pixels.

Lemma check_collisions_crashed g head body :
  snake g = head :: body -> check_collisions g = Ok (crashed g).
Proof.
  intros Hs. unfold check_collisions, crashed.
  rewrite Hs, py_index_0_cons. cbn [bind].
  destruct (outside_playable head);
    cbn [snake set_running orb]; rewrite ?Hs; cbn [tl];
    destruct (hits_body head body); reflexivity.
Qed.

Lemma check_food_miss fuel rnd g head body f :
  snake g = head :: body -> food g = Some f -> colliderect head f = false ->
  check_food fuel rnd g = Ok g.
Proof.
  intros Hs Hf Hc. unfold check_food, food_rect.
  rewrite Hs, py_index_0_cons, Hf. cbn [bind]. now rewrite Hc.
Qed.

Lemma check_food_hit fuel rnd g head body f :
  snake g = head :: body -> food g = Some f -> colliderect head f = true ->
  check_food fuel rnd g = new_food fuel rnd (scored g).
Proof.
  intros Hs Hf Hc. unfold check_food, food_rect, scored.
  rewrite Hs, py_index_0_cons, Hf. cbn [bind]. rewrite Hc.
  cbn [score set_score set_high_score current_style_index
       set_current_style_index].
  change (Z.of_nat (length crt_styles)) with 3.
  destruct ((0 <? score g + 1)
            && ((score g + 1) mod STYLE_CHANGE_SCORE_INTERVAL =? 0)).
  - rewrite py_index_crt_styles by (apply Z.mod_pos_bound; lia).
    reflexivity.
  - reflexivity.
Qed.

(** A game update in which the new head misses the food: the tail is
    dropped and nothing is drawn from the random source. *)
Lemma tick_miss fuel rnd g head body f :
  snake g = head :: body -> food g = Some f ->
  colliderect (new_head_pos (direction g) head) f = false ->
  tick fuel rnd g =
  Ok (crashed (set_snake (new_head_pos (direction g) head
                            :: removelast (head :: body)) g)).
Proof.
  intros Hs Hf Hc. unfold tick, move, food_rect.
  rewrite Hs, py_index_0_cons. cbn [bind food set_snake].
  rewrite Hf. cbn [bind]. rewrite Hc. cbn [negb bind snake set_snake].
  change (removelast (new_head_pos (direction g) head :: head :: body))
    with (new_head_pos (direction g) head :: removelast (head :: body)).
  erewrite check_food_miss; [| reflexivity | exact Hf | exact Hc].
  cbn [bind]. eapply check_collisions_crashed. reflexivity.
Qed.

(** A game update in which the new head is on the food: the snake keeps
    its tail, the score lines run, and [new_food] is called. *)
Lemma tick_hit fuel rnd g head body f :
  snake g = head :: body -> food g = Some f ->
  colliderect (new_head_pos (direction g) head) f = true ->
  tick fuel rnd g =
  (g1 <- new_food fuel rnd
           (scored (set_snake (new_head_pos (direction g) head
                                 :: head :: body) g)) ;;
   Ok (crashed g1)).
Proof.
  intros Hs Hf Hc. unfold tick, move, food_rect.
  rewrite Hs, py_index_0_cons. cbn [bind food set_snake].
  rewrite Hf. cbn [bind]. rewrite Hc. cbn [negb bind].
  erewrite check_food_hit; [| reflexivity | exact Hf | exact Hc].
  destruct (new_food fuel rnd _) as [g1| |] eqn:E; cbn [bind];
    [|reflexivity|reflexivity].
  apply new_food_food_off_snake in E. destruct E as [_ Hsn].
  eapply check_collisions_crashed.
  rewrite Hsn. unfold scored.
  destruct (_ && _); reflexivity.
Qed.

(** A game update that returns started from a snake with a head and a food
    rectangle. *)
Lemma tick_ok_inv fuel rnd g g' :
  tick fuel rnd g = Ok g' ->
  exists head body f, snake g = head :: body /\ food g = Some f.
Proof.
  unfold tick, move, food_rect. intros H.
  destruct (py_index (snake g) 0) as [head| |] eqn:E; try discriminate.
  apply py_index_0_inv in E. destruct E as [body Hs].
  cbn [bind food set_snake] in H.
  destruct (food g) as [f|]; [|discriminate].
  now exists head, body, f.
Qed.

End Tick.

(** ** Geometry of aligned unit squares *)

Lemma aligned_unit_coords (r : Rect) :
  aligned_unit r ->
  rect_w r = 20 /\ rect_h r = 20
  /\ (exists i, rect_x r = 20 * i) /\ (exists j, rect_y r = 20 * j).
Proof.
  unfold aligned_unit, UNIT_SIZE, BORDER_SIZE.
  intros [Hw [Hh [Hx Hy]]].
  pose proof (Z_div_mod_eq_full (rect_x r - 20) 20) as Ex.
  pose proof (Z_div_mod_eq_full (rect_y r - 20) 20) as Ey.
  rewrite Hx in Ex. rewrite Hy in Ey.
  repeat split; try assumption.
  - exists ((rect_x r - 20) / 20 + 1). lia.
  - exists ((rect_y r - 20) / 20 + 1). lia.
Qed.

Lemma colliderect_units (a b : Rect) :
  rect_w a = 20 -> rect_h a = 20 -> rect_w b = 20 -> rect_h b = 20 ->
  colliderect a b =
  (rect_x a <? rect_x b + 20) && (rect_y a <? rect_y b + 20)
  && (rect_x b <? rect_x a + 20) && (rect_y b <? rect_y a + 20).
Proof.
  intros Hwa Hha Hwb Hhb. unfold colliderect.
  rewrite Hwa, Hha, Hwb, Hhb. cbn [Z.eqb orb].
  rewrite !Z.min_l, !Z.max_r by lia. reflexivity.
Qed.

(** Two aligned unit squares collide only when they are the same cell. *)
Lemma aligned_collide_eq (a b : Rect) :
  aligned_unit a -> aligned_unit b -> colliderect a b = true -> a = b.
Proof.
  intros Ha Hb.
  apply aligned_unit_coords in Ha. apply aligned_unit_coords in Hb.
  destruct Ha as [Hwa [Hha [[ia Hxa] [ja Hya]]]].
  destruct Hb as [Hwb [Hhb [[ib Hxb] [jb Hyb]]]].
  rewrite colliderect_units by assumption.
  rewrite !andb_true_iff, !Z.ltb_lt. intros [[[H1 H2] H3] H4].
  destruct a as [xa ya wa ha], b as [xb yb wb hb].
  cbn [rect_x rect_y rect_w rect_h] in *.
  f_equal; lia.
Qed.

Lemma aligned_collide_self (a : Rect) :
  aligned_unit a -> colliderect a a = true.
Proof.
  intros Ha. apply aligned_unit_coords in Ha.
  destruct Ha as [Hw [Hh _]].
  rewrite colliderect_units by assumption.
  rewrite !andb_true_iff, !Z.ltb_lt. lia.
Qed.

Lemma new_head_pos_aligned (d : Direction) (head : Rect) :
  aligned_unit head -> aligned_unit (new_head_pos d head).
Proof.
  unfold aligned_unit, UNIT_SIZE, BORDER_SIZE.
  intros [Hw [Hh [Hx Hy]]].
  apply Z.mod_divide in Hx; [|lia]. apply Z.mod_divide in Hy; [|lia].
  destruct Hx as [qx Hx], Hy as [qy Hy].
  destruct d; unfold new_head_pos, rect_move, UNIT_SIZE;
    cbn [rect_x rect_y rect_w rect_h];
    repeat split; try assumption;
    apply Z.mod_divide; try lia.
  all: first [ exists qx; lia | exists qy; lia
             | exists (qx - 1); lia | exists (qx + 1); lia
             | exists (qy - 1); lia | exists (qy + 1); lia ].
Qed.

(** An aligned unit square that fails the wall test touches no cell of the
    playable grid. *)
Lemma outside_playable_off_grid (r f : Rect) :
  aligned_unit r -> outside_playable r = true -> grid_cell f ->
  colliderect r f = false.
Proof.
  intros Hr Hout [Hf Hin].
  apply aligned_unit_coords in Hr. apply aligned_unit_coords in Hf.
  destruct Hr as [Hwr [Hhr [[ir Hxr] [jr Hyr]]]].
  destruct Hf as [Hwf [Hhf [[i Hxf] [j Hyf]]]].
  rewrite colliderect_units by assumption.
  unfold outside_playable, rect_left, rect_right, rect_top, rect_bottom,
    BORDER_SIZE, SCREEN_WIDTH, SCREEN_HEIGHT in *.
  rewrite Hwr, Hhr in Hout. rewrite Hwf, Hhf in Hin.
  rewrite !orb_true_iff, !Z.ltb_lt in Hout.
  rewrite !andb_false_iff, !Z.ltb_ge.
  lia.
Qed.

Lemma initial_snake_aligned : Forall aligned_unit initial_snake.
Proof.
  unfold initial_snake. repeat constructor.
Qed.

(** ** Fields that the steps of an update leave alone *)

Section Fields.

Context {Pixels : Type}.
Implicit Types g : @Game Pixels.

Lemma crashed_keeps g :
  snake (crashed g) = snake g
  /\ food (crashed g) = food g
  /\ direction (crashed g) = direction g
  /\ score (crashed g) = score g
  /\ high_score (crashed g) = high_score g
  /\ game_start_time (crashed g) = game_start_time g
  /\ ghosting_frames (crashed g) = ghosting_frames g
  /\ current_style_index (crashed g) = current_style_index g
  /\ current_style (crashed g) = current_style g
  /\ random_pos (crashed g) = random_pos g.
Proof.
  unfold crashed. destruct (snake g) as [|head body] eqn:E.
  - rewrite E. repeat split.
  - destruct (outside_playable head || hits_body head body);
      cbn; rewrite ?E; repeat split.
Qed.

Lemma crashed_running g head body :
  snake g = head :: body ->
  running (crashed g)
  = running g && negb (outside_playable head || hits_body head body).
Proof.
  intros E. unfold crashed. rewrite E.
  destruct (outside_playable head || hits_body head body); cbn.
  - now rewrite andb_false_r.
  - now rewrite andb_true_r.
Qed.

Lemma scored_keeps g :
  snake (scored g) = snake g
  /\ food (scored g) = food g
  /\ direction (scored g) = direction g
  /\ running (scored g) = running g
  /\ game_start_time (scored g) = game_start_time g
  /\ ghosting_frames (scored g) = ghosting_frames g
  /\ random_pos (scored g) = random_pos g
  /\ score (scored g) = score g + 1
  /\ high_score (scored g) = Z.max (high_score g) (score g + 1).
Proof.
  unfold scored. destruct (_ && _); cbn; repeat split.
Qed.

Lemma scored_index g :
  current_style_index (scored g)
  = if (0 <? score g + 1)
       && ((score g + 1) mod STYLE_CHANGE_SCORE_INTERVAL =? 0)
    then (current_style_index g + 1) mod 3
    else current_style_index g.
Proof.
  unfold scored.
  cbn [score set_score set_high_score current_style_index].
  destruct (_ && _); reflexivity.
Qed.

Lemma scored_style g :
  py_index crt_styles (current_style_index g) = Ok (current_style g) ->
  py_index crt_styles (current_style_index (scored g))
  = Ok (current_style (scored g)).
Proof.
  intros H. unfold scored.
  cbn [score set_score set_high_score current_style_index].
  destruct (_ && _).
  - cbn [current_style_index current_style set_current_style
         set_current_style_index].
    apply py_index_crt_styles. apply Z.mod_pos_bound. lia.
  - exact H.
Qed.

Lemma start_game_restarted fuel rnd now g g' :
  start_game fuel rnd now g = Ok g' ->
  exists k, (k < fuel)%nat
    /\ g' = restarted rnd now k g
    /\ on_snake initial_snake (candidate rnd (random_pos g + 2 * k)) = false.
Proof.
  unfold start_game.
  cbn [current_style_index set_current_style_index].
  change (py_index crt_styles 0) with (Ok style_green). cbn [bind].
  destruct (new_food fuel rnd _) as [g1| |] eqn:E; cbn [bind];
    try discriminate.
  intros H. inversion H; subst g'; clear H.
  apply new_food_inv in E. destruct E as [k [Hk [-> [Hfree _]]]].
  exists k. repeat split; assumption.
Qed.

End Fields.

(** ** The invariant of reachable sessions *)

Lemma style_index_step (s : Z) :
  0 <= s ->
  (if (0 <? s + 1) && ((s + 1) mod STYLE_CHANGE_SCORE_INTERVAL =? 0)
   then ((s / STYLE_CHANGE_SCORE_INTERVAL) mod 3 + 1) mod 3
   else (s / STYLE_CHANGE_SCORE_INTERVAL) mod 3)
  = ((s + 1) / STYLE_CHANGE_SCORE_INTERVAL) mod 3.
Proof.
  intros Hs. unfold STYLE_CHANGE_SCORE_INTERVAL.
  replace (0 <? s + 1) with true by (symmetry; apply Z.ltb_lt; lia).
  cbn [andb].
  destruct ((s + 1) mod 5 =? 0) eqn:E.
  - apply Z.eqb_eq in E.
    assert ((s + 1) / 5 = s / 5 + 1) as -> by (Z.div_mod_to_equations; lia).
    now rewrite Z.add_mod_idemp_l by lia.
  - apply Z.eqb_neq in E.
    assert ((s + 1) / 5 = s / 5) as -> by (Z.div_mod_to_equations; lia).
    reflexivity.
Qed.

Lemma In_removelast {A : Type} (l : list A) (a : A) :
  In a (removelast l) -> In a l.
Proof.
  induction l as [|b l IH]; [auto|].
  destruct l as [|c l]; [intros []|].
  change (removelast (b :: c :: l)) with (b :: removelast (c :: l)).
  intros [->|H]; [now left | right; auto].
Qed.

Lemma fade_length {Pixels : Type} (base : Z) (n : nat)
  (frames : list (@Surface Pixels)) :
  forall i, length (fade base n i frames) = length frames.
Proof.
  induction frames as [|f frames IH]; intros i; cbn [fade length];
    [reflexivity | now rewrite IH].
Qed.

Section Invariant.

Context {Pixels : Type}.
Implicit Types g : @Game Pixels.

Lemma restarted_session_inv rnd now k g :
  0 <= high_score g ->
  on_snake initial_snake (candidate rnd (random_pos g + 2 * k)) = false ->
  session_inv (restarted rnd now k g).
Proof.
  intros Hh Hfree. unfold session_inv, restarted.
  cbn [snake food score high_score current_style_index current_style
       ghosting_frames].
  repeat split; try (discriminate || reflexivity || lia).
  - apply initial_snake_aligned.
  - exists (candidate rnd (random_pos g + 2 * k)).
    cbn [snake food].
    split; [reflexivity|]. split; [apply candidate_grid_cell|].
    now apply on_snake_false.
Qed.

Lemma tick_session_inv fuel rnd g g' :
  session_inv g -> tick fuel rnd g = Ok g' -> session_inv g'.
Proof.
  intros (Hne & Hal & (f0 & Hf0 & Hcell & Hoff) & Hlen & Hsc & Hidx & Hsty & Hfr) H.
  destruct (tick_ok_inv _ _ _ _ H) as (head & body & f & Hs & Hf).
  assert (f0 = f) by congruence. subst f0.
  set (nh := new_head_pos (direction g) head).
  assert (aligned_unit nh) as Hnh.
  { apply new_head_pos_aligned. rewrite Hs in Hal. now inversion Hal. }
  destruct (colliderect nh f) eqn:Hc.
  - rewrite (tick_hit _ _ _ _ _ _ Hs Hf Hc) in H. fold nh in H.
    destruct (new_food fuel rnd _) as [g1| |] eqn:E; cbn [bind] in H;
      try discriminate.
    inversion H; subst g'; clear H.
    destruct (new_food_food_off_snake _ _ _ _ E) as [Hfood Hsn].
    apply new_food_inv in E. destruct E as (k & _ & Hg1 & _).
    destruct (crashed_keeps g1)
      as (C1 & C2 & _ & C4 & C5 & _ & C7 & C8 & C9 & _).
    set (g0 := set_snake (nh :: head :: body) g) in *.
    destruct (scored_keeps g0) as (S1 & _ & _ & _ & _ & S6 & _ & S8 & S9).
    assert (snake g1 = nh :: head :: body) as Hsn1 by (rewrite Hsn, S1; reflexivity).
    assert (score g1 = score g + 1) as Hsc1 by (rewrite Hg1; cbn; exact S8).
    assert (high_score g1 = Z.max (high_score g) (score g + 1)) as Hh1
      by (rewrite Hg1; cbn; exact S9).
    unfold session_inv, food_off_snake.
    rewrite C1, C2, C4, C5, C7, C8, C9, Hsn1, Hsc1, Hh1.
    repeat split.
    + discriminate.
    + constructor; [exact Hnh | now rewrite Hs in Hal].
    + destruct Hfood as (f1 & Hf1 & Hcell1 & Hoff1).
      exists f1. rewrite Hsn1 in Hoff1. auto.
    + rewrite Hs in Hlen. cbn [length] in *. lia.
    + lia.
    + lia.
    + rewrite Hg1. cbn [current_style_index placed set_random_pos set_food].
      rewrite scored_index. subst g0.
      cbn [score current_style_index set_snake].
      rewrite Hidx. apply style_index_step. lia.
    + rewrite Hg1.
      cbn [current_style_index current_style placed set_random_pos set_food].
      apply scored_style. subst g0. exact Hsty.
    + rewrite Hg1. cbn [ghosting_frames placed set_random_pos set_food].
      rewrite S6. subst g0. exact Hfr.
  - rewrite (tick_miss _ _ _ _ _ _ Hs Hf Hc) in H. fold nh in H.
    set (g0 := set_snake (nh :: removelast (head :: body)) g) in *.
    assert (g' = crashed g0) as -> by congruence. clear H.
    destruct (crashed_keeps g0)
      as (C1 & C2 & _ & C4 & C5 & _ & C7 & C8 & C9 & _).
    unfold session_inv, food_off_snake.
    rewrite C1, C2, C4, C5, C7, C8, C9. subst g0.
    cbn [snake food score high_score ghosting_frames current_style_index
         current_style set_snake].
    repeat split; try assumption; try lia.
    + discriminate.
    + constructor; [exact Hnh|].
      apply Forall_forall. intros s Hin. apply In_removelast in Hin.
      rewrite Forall_forall in Hal. apply Hal. now rewrite Hs.
    + exists f. repeat split; try assumption; try apply Hcell.
      intros s [<-|Hin]; [exact Hc|].
      apply In_removelast in Hin. apply Hoff. now rewrite Hs.
    + change (length (nh :: removelast (head :: body)))
        with (S (length (removelast (head :: body)))).
      rewrite removelast_cons_length. rewrite Hs in Hlen.
      cbn [length] in Hlen. lia.
Qed.

Lemma draw_keeps content g :
  let g' := fst (draw content g) in
  snake g' = snake g /\ food g' = food g /\ direction g' = direction g
  /\ running g' = running g /\ score g' = score g
  /\ high_score g' = high_score g
  /\ game_start_time g' = game_start_time g
  /\ current_style_index g' = current_style_index g
  /\ current_style g' = current_style g.
Proof.
  unfold draw.
  cbn [ghosting_frames set_ghosting_frames set_random_pos current_style].
  destruct (max_ghosting_frames <? _); cbn; repeat split.
Qed.

Lemma draw_frames_length content g :
  Z.of_nat (length (ghosting_frames g)) <= max_ghosting_frames ->
  Z.of_nat (length (ghosting_frames (fst (draw content g))))
  <= max_ghosting_frames.
Proof.
  unfold draw, max_ghosting_frames.
  cbn [ghosting_frames set_ghosting_frames set_random_pos current_style].
  intros H.
  destruct (5 <? _) eqn:E;
    cbn [fst ghosting_frames set_ghosting_frames];
    rewrite fade_length.
  - destruct (ghosting_frames g) as [|f fr]; cbn [app tl length] in *.
    + lia.
    + rewrite length_app. cbn [length]. lia.
  - apply Z.ltb_ge in E. exact E.
Qed.

Lemma draw_session_inv content g :
  session_inv g -> session_inv (fst (draw content g)).
Proof.
  intros (Hne & Hal & (f & Hf & Hcell & Hoff) & Hlen & Hsc & Hidx & Hsty & Hfr).
  pose proof (draw_frames_length content g Hfr) as Hfr'.
  destruct (draw_keeps content g)
    as (D1 & D2 & _ & _ & D5 & D6 & _ & D8 & D9).
  unfold session_inv, food_off_snake.
  rewrite D1, D2, D5, D6, D8, D9.
  repeat split; try assumption; try lia.
  exists f. auto.
Qed.

Lemma handle_event_session_inv fuel rnd now ev g g' :
  session_inv g -> handle_event fuel rnd now ev g = Ok g' -> session_inv g'.
Proof.
  intros Hinv H.
  assert (forall d, session_inv (set_direction d g)) as Hdir.
  { intros d. exact Hinv. }
  destruct ev as [|[| | | | |]| |]; cbn [handle_event] in H.
  - inversion H; now subst.
  - inversion H. destruct (negb _); [apply Hdir | exact Hinv].
  - inversion H. destruct (negb _); [apply Hdir | exact Hinv].
  - inversion H. destruct (negb _); [apply Hdir | exact Hinv].
  - inversion H. destruct (negb _); [apply Hdir | exact Hinv].
  - destruct (negb (running g)).
    + apply start_game_restarted in H. destruct H as (k & _ & -> & Hfree).
      apply restarted_session_inv; [|exact Hfree].
      destruct Hinv as (_ & _ & _ & _ & Hsc & _). lia.
    + inversion H; now subst.
  - inversion H; now subst.
  - destruct (running g).
    + eapply tick_session_inv; eassumption.
    + inversion H; now subst.
  - inversion H; now subst.
Qed.

Lemma init_session_inv fuel rnd now g :
  init fuel rnd now = Ok g -> session_inv g.
Proof.
  unfold init. change (py_index crt_styles 0) with (Ok style_green).
  cbn [bind]. intros H.
  apply start_game_restarted in H. destruct H as (k & _ & -> & Hfree).
  apply restarted_session_inv; [cbn; lia | exact Hfree].
Qed.

Lemma reachable_session_inv rnd g : reachable rnd g -> session_inv g.
Proof.
  induction 1 as [fuel now g H | fuel now ev g g' _ IH H | content g _ IH].
  - eapply init_session_inv; eassumption.
  - eapply handle_event_session_inv; eassumption.
  - now apply draw_session_inv.
Qed.

End Invariant.

(** ** Sample sessions are reachable *)

Lemma handle_events_reachable {Pixels : Type} fuel rnd evs :
  forall (g g' : @Game Pixels),
    reachable rnd g -> handle_events fuel rnd evs g = Ok g' ->
    reachable rnd g'.
Proof.
  induction evs as [|[ev now] evs IH]; intros g g' Hr H; cbn [handle_events] in H.
  - inversion H; now subst.
  - destruct (handle_event fuel rnd now ev g) as [g1| |] eqn:E;
      cbn [bind] in H; try discriminate.
    eapply IH; [|exact H]. eapply reach_event; eassumption.
Qed.

Lemma session_reachable fuel rnd evs g :
  session fuel rnd evs = Ok g -> reachable rnd g.
Proof.
  unfold session. intros H.
  destruct (init fuel rnd 0%Q) as [g0| |] eqn:E; cbn [bind] in H;
    try discriminate.
  eapply handle_events_reachable; [|exact H].
  eapply reach_init. exact E.
Qed.

Lemma g_score4_reachable : reachable rnd_feed g_score4.
Proof.
  apply (session_reachable 1 rnd_feed (repeat GAME_UPDATE 4)).
  vm_compute. reflexivity.
Qed.

Lemma g_over_reachable : reachable rnd_feed g_over.
Proof.
  apply (session_reachable 1 rnd_feed
           (repeat GAME_UPDATE 5 ++ KEYDOWN K_UP :: repeat GAME_UPDATE 15)).
  vm_compute. reflexivity.
Qed.

Lemma g_left_edge_reachable : reachable (rnd_of_list []) g_left_edge.
Proof.
  apply (session_reachable 1 (rnd_of_list [])
           (KEYDOWN K_UP :: GAME_UPDATE :: KEYDOWN K_LEFT
              :: repeat GAME_UPDATE 19)).
  vm_compute. reflexivity.
Qed.

(** ** Snake length *)

(** The snake after a game update that returns. *)
Lemma tick_snake {Pixels : Type} fuel rnd (g g' : @Game Pixels) head body f :
  snake g = head :: body -> food g = Some f ->
  tick fuel rnd g = Ok g' ->
  snake g' =
  new_head_pos (direction g) head
    :: (if colliderect (new_head_pos (direction g) head) f
        then head :: body
        else removelast (head :: body)).
Proof.
  intros Hs Hf H.
  destruct (colliderect (new_head_pos (direction g) head) f) eqn:Hc.
  - rewrite (tick_hit _ _ _ _ _ _ Hs Hf Hc) in H.
    destruct (new_food fuel rnd _) as [g1| |] eqn:E; cbn [bind] in H;
      try discriminate.
    assert (g' = crashed g1) as -> by congruence.
    destruct (crashed_keeps g1) as (-> & _).
    destruct (new_food_food_off_snake _ _ _ _ E) as [_ ->].
    destruct (scored_keeps (set_snake (new_head_pos (direction g) head
                                         :: head :: body) g)) as (-> & _).
    reflexivity.
  - rewrite (tick_miss _ _ _ _ _ _ Hs Hf Hc) in H.
    assert (g' = crashed (set_snake (new_head_pos (direction g) head
                                        :: removelast (head :: body)) g))
      as -> by congruence.
    destruct (crashed_keeps (set_snake (new_head_pos (direction g) head
                                        :: removelast (head :: body)) g))
      as (-> & _).
    reflexivity.
Qed.

(** A game update in which the new head misses the food returns whatever
    the fuel and the draws. *)
Lemma tick_miss_returns {Pixels : Type} fuel rnd (g : @Game Pixels) head body f :
  snake g = head :: body -> food g = Some f ->
  colliderect (new_head_pos (direction g) head) f = false ->
  exists g', tick fuel rnd g = Ok g'.
Proof.
  intros Hs Hf Hc. eexists. eapply tick_miss; eassumption.
Qed.

(** C1. In a reachable running session (its snake has a head and its food
    is a rectangle), let the new head be the head moved one unit in the
    current direction. Whatever game update returns leaves the snake as
    long as it was, or exactly one segment longer when the new head
    collides with the food. If the new head misses the food the update
    does return, whatever the fuel and the draws, with the length
    unchanged. If it is on the food the update returns, one segment
    longer, as soon as [new_food] draws a cell off the grown snake within
    the fuel. *)
Theorem tick_snake_length {Pixels : Type} rnd fuel now (g : @Game Pixels) :
  reachable rnd g ->
  running g = true ->
  exists head body f,
    snake g = head :: body
    /\ food g = Some f
    /\ (forall g',
          handle_event fuel rnd now GAME_UPDATE g = Ok g' ->
          length (snake g') =
          if colliderect (new_head_pos (direction g) head) f
          then S (length (snake g))
          else length (snake g))
    /\ (colliderect (new_head_pos (direction g) head) f = false ->
        exists g',
          handle_event fuel rnd now GAME_UPDATE g = Ok g'
          /\ length (snake g') = length (snake g))
    /\ (colliderect (new_head_pos (direction g) head) f = true ->
        forall k,
          (k < fuel)%nat ->
          (forall j, (j < k)%nat ->
             on_snake (new_head_pos (direction g) head :: head :: body)
               (candidate rnd (random_pos g + 2 * j)) = true) ->
          on_snake (new_head_pos (direction g) head :: head :: body)
            (candidate rnd (random_pos g + 2 * k)) = false ->
          exists g',
            handle_event fuel rnd now GAME_UPDATE g = Ok g'
            /\ length (snake g') = S (length (snake g))).
Proof.
  intros Hr Hrun.
  pose proof (reachable_session_inv _ _ Hr) as (Hne & _ & (f & Hf & _) & _).
  destruct (snake g) as [|head body] eqn:Hs; [congruence|].
  exists head, body, f.
  split; [reflexivity|]. split; [exact Hf|].
  cbn [handle_event]. rewrite Hrun.
  assert (forall g',
            tick fuel rnd g = Ok g' ->
            length (snake g') =
            if colliderect (new_head_pos (direction g) head) f
            then S (length (head :: body))
            else length (head :: body)) as Hany.
  { intros g' H.
    rewrite (tick_snake _ _ _ _ _ _ _ Hs Hf H).
    destruct (colliderect _ f).
    - reflexivity.
    - change (length (?a :: ?l)) with (S (length l)).
      now rewrite removelast_cons_length. }
  split; [exact Hany|]. split.
  - intros Hc.
    destruct (tick_miss_returns fuel rnd g head body f Hs Hf Hc) as [g' H].
    exists g'. split; [exact H|].
    rewrite (Hany g' H), Hc. reflexivity.
  - intros Hc k Hk Hbusy Hfree.
    rewrite (tick_hit _ _ _ _ _ _ Hs Hf Hc).
    set (g0 := scored (set_snake (new_head_pos (direction g) head
                                    :: head :: body) g)).
    assert (snake g0 = new_head_pos (direction g) head :: head :: body
            /\ random_pos g0 = random_pos g) as [Hs0 Hp0].
    { destruct (scored_keeps (set_snake (new_head_pos (direction g) head
                                          :: head :: body) g))
        as (S1 & _ & _ & _ & _ & _ & S7 & _).
      split; [exact S1 | exact S7]. }
    rewrite (new_food_first_free rnd k g0 fuel).
    + cbn [bind]. eexists. split; [reflexivity|].
      destruct (crashed_keeps (placed rnd k g0)) as (-> & _).
      cbn [snake placed set_random_pos set_food]. rewrite Hs0. reflexivity.
    + intros j Hj. rewrite Hs0, Hp0. now apply Hbusy.
    + rewrite Hs0, Hp0. exact Hfree.
    + exact Hk.
Qed.

Lemma tick_snake_length_witness :
  (reachable (rnd_of_list []) g_start
   /\ running g_start = true
   /\ handle_event 0 (rnd_of_list []) 0 GAME_UPDATE g_start = Ok g_moved
   /\ length (snake g_start) = 3%nat
   /\ length (snake g_moved) = 3%nat)
  /\ (reachable rnd_feed g_score4
      /\ running g_score4 = true
      /\ length (snake g_score4) = 7%nat
      /\ exists g',
           handle_event 1 rnd_feed 0 GAME_UPDATE g_score4 = Ok g'
           /\ length (snake g') = 8%nat).
Proof.
  split.
  - assert (reachable (rnd_of_list []) g_start) as Hr.
    { apply (session_reachable 1 (rnd_of_list []) []).
      vm_compute. reflexivity. }
    split; [exact Hr|]. split; [reflexivity|]. split; [reflexivity|].
    split; [reflexivity|].
    destruct (tick_snake_length (rnd_of_list []) 0 0%Q g_start Hr eq_refl)
      as (head & body & f & Hs & Hf & Hany & _).
    assert (head = mkRect 400 300 20 20 /\ f = mkRect 20 20 20 20)
      as [-> ->].
    { vm_compute in Hs, Hf. split; congruence. }
    exact (Hany g_moved eq_refl).
  - split; [exact g_score4_reachable|]. split; [reflexivity|].
    split; [reflexivity|].
    destruct (tick_snake_length rnd_feed 1 0%Q g_score4
                g_score4_reachable eq_refl)
      as (head & body & f & Hs & Hf & _ & _ & Heat).
    assert (head = mkRect 480 300 20 20 /\ f = mkRect 500 300 20 20
            /\ body = tl (snake g_score4)) as (-> & -> & ->).
    { vm_compute in Hs, Hf. vm_compute.
      repeat split; congruence. }
    apply (Heat eq_refl O).
    + constructor.
    + intros j Hj. inversion Hj.
    + vm_compute. reflexivity.
Defined.

(** C10. In every reachable session the number of segments of the snake is
    the score plus 3. *)
Theorem snake_length_score_plus_3 {Pixels : Type} rnd (g : @Game Pixels) :
  reachable rnd g -> Z.of_nat (length (snake g)) = score g + 3.
Proof.
  intros Hr. apply reachable_session_inv in Hr.
  destruct Hr as (_ & _ & _ & Hlen & _). exact Hlen.
Qed.

Lemma snake_length_score_plus_3_witness :
  reachable rnd_feed g_over
  /\ score g_over = 5
  /\ Z.of_nat (length (snake g_over)) = score g_over + 3.
Proof.
  split; [exact g_over_reachable|]. split; [reflexivity|].
  apply (snake_length_score_plus_3 rnd_feed g_over).
  exact g_over_reachable.
Defined.

(** ** Score and style rotation *)

Lemma tick_score_index {Pixels : Type} fuel rnd (g g' : @Game Pixels)
  head body f :
  snake g = head :: body -> food g = Some f ->
  tick fuel rnd g = Ok g' ->
  if colliderect (new_head_pos (direction g) head) f
  then score g' = score g + 1
       /\ high_score g' = Z.max (high_score g) (score g + 1)
       /\ current_style_index g' =
          (if (0 <? score g + 1)
              && ((score g + 1) mod STYLE_CHANGE_SCORE_INTERVAL =? 0)
           then (current_style_index g + 1) mod 3
           else current_style_index g)
  else score g' = score g
       /\ high_score g' = high_score g
       /\ current_style_index g' = current_style_index g.
Proof.
  intros Hs Hf H.
  destruct (colliderect (new_head_pos (direction g) head) f) eqn:Hc.
  - rewrite (tick_hit _ _ _ _ _ _ Hs Hf Hc) in H.
    destruct (new_food fuel rnd _) as [g1| |] eqn:E; cbn [bind] in H;
      try discriminate.
    assert (g' = crashed g1) as -> by congruence.
    destruct (crashed_keeps g1) as (_ & _ & _ & -> & -> & _ & _ & -> & _).
    apply new_food_inv in E. destruct E as (k & _ & -> & _).
    cbn [score high_score current_style_index placed set_random_pos set_food].
    rewrite scored_index.
    destruct (scored_keeps (set_snake (new_head_pos (direction g) head
                                         :: head :: body) g))
      as (_ & _ & _ & _ & _ & _ & _ & -> & ->).
    repeat split.
  - rewrite (tick_miss _ _ _ _ _ _ Hs Hf Hc) in H.
    assert (g' = crashed (set_snake (new_head_pos (direction g) head
                                        :: removelast (head :: body)) g))
      as -> by congruence.
    destruct (crashed_keeps (set_snake (new_head_pos (direction g) head
                                        :: removelast (head :: body)) g))
      as (_ & _ & _ & -> & -> & _ & _ & -> & _).
    repeat split.
Qed.



(** ** Collisions *)

Lemma tick_running {Pixels : Type} fuel rnd (g g' : @Game Pixels) head' body' :
  tick fuel rnd g = Ok g' ->
  snake g' = head' :: body' ->
  running g' =
  running g && negb (outside_playable head' || hits_body head' body').
Proof.
  intros H Hs'.
  destruct (tick_ok_inv _ _ _ _ H) as (head & body & f & Hs & Hf).
  destruct (colliderect (new_head_pos (direction g) head) f) eqn:Hc.
  - rewrite (tick_hit _ _ _ _ _ _ Hs Hf Hc) in H.
    destruct (new_food fuel rnd _) as [g1| |] eqn:E; cbn [bind] in H;
      try discriminate.
    assert (g' = crashed g1) as -> by congruence.
    destruct (crashed_keeps g1) as (C1 & _). rewrite C1 in Hs'.
    rewrite (crashed_running g1 _ _ Hs').
    apply new_food_inv in E. destruct E as (k & _ & -> & _).
    cbn [running placed set_random_pos set_food].
    destruct (scored_keeps (set_snake (new_head_pos (direction g) head
                                         :: head :: body) g))
      as (_ & _ & _ & -> & _).
    reflexivity.
  - rewrite (tick_miss _ _ _ _ _ _ Hs Hf Hc) in H.
    set (g0 := set_snake (new_head_pos (direction g) head
                            :: removelast (head :: body)) g) in *.
    assert (g' = crashed g0) as -> by congruence.
    destruct (crashed_keeps g0) as (C1 & _). rewrite C1 in Hs'.
    rewrite (crashed_running g0 _ _ Hs'). reflexivity.
Qed.

(** In a session that satisfies the invariant, a new head that fails the
    wall test or lies on the body is not on the food: the update that ends
    the game never calls [new_food]. *)
Lemma crash_misses_food {Pixels : Type} (g : @Game Pixels) head body f :
  session_inv g -> snake g = head :: body -> food g = Some f ->
  outside_playable (new_head_pos (direction g) head)
  || hits_body (new_head_pos (direction g) head)
       (if colliderect (new_head_pos (direction g) head) f
        then head :: body
        else removelast (head :: body)) = true ->
  colliderect (new_head_pos (direction g) head) f = false.
Proof.
  intros (_ & Hal & (f0 & Hf0 & Hcell & Hoff) & _) Hs Hf Hcrash.
  assert (f0 = f) by congruence. subst f0.
  set (nh := new_head_pos (direction g) head) in *.
  assert (aligned_unit nh) as Hnh.
  { apply new_head_pos_aligned. rewrite Hs in Hal. now inversion Hal. }
  destruct (colliderect nh f) eqn:Hc; [exfalso | reflexivity].
  apply orb_true_iff in Hcrash. destruct Hcrash as [Hout | Hbody].
  - rewrite (outside_playable_off_grid nh f Hnh Hout Hcell) in Hc.
    discriminate.
  - apply existsb_exists in Hbody. destruct Hbody as (s & Hin & Hcs).
    rewrite <- Hs in Hin.
    assert (aligned_unit s) as Hals
      by (rewrite Forall_forall in Hal; now apply Hal).
    assert (nh = s) as Es by (now apply aligned_collide_eq).
    assert (nh = f) as Ef by (apply aligned_collide_eq; [| apply Hcell |]; assumption).
    specialize (Hoff s Hin).
    rewrite <- Es, Ef in Hoff.
    rewrite aligned_collide_self in Hoff by apply Hcell.
    discriminate.
Qed.

(** An update that eats does not end the game. *)
Lemma eating_tick_keeps_running {Pixels : Type} fuel rnd
  (g g' : @Game Pixels) head body f :
  session_inv g -> running g = true ->
  snake g = head :: body -> food g = Some f ->
  tick fuel rnd g = Ok g' ->
  colliderect (new_head_pos (direction g) head) f = true ->
  running g' = true.
Proof.
  intros Hinv Hrun Hs Hf H Hc.
  pose proof (tick_snake _ _ _ _ _ _ _ Hs Hf H) as Hs'.
  rewrite (tick_running _ _ _ _ _ _ H Hs'), Hrun. cbn [andb].
  destruct (outside_playable (new_head_pos (direction g) head)
            || hits_body (new_head_pos (direction g) head)
                 (if colliderect (new_head_pos (direction g) head) f
                  then head :: body else removelast (head :: body))) eqn:E;
    [|reflexivity].
  rewrite (crash_misses_food g head body f Hinv Hs Hf E) in Hc.
  discriminate.
Qed.

(** An update whose new head fails a test of [check_collisions] returns
    with the game over and the score unchanged. *)
Lemma crash_tick_returns {Pixels : Type} fuel rnd (g : @Game Pixels)
  head body f :
  session_inv g -> running g = true ->
  snake g = head :: body -> food g = Some f ->
  outside_playable (new_head_pos (direction g) head)
  || hits_body (new_head_pos (direction g) head)
       (if colliderect (new_head_pos (direction g) head) f
        then head :: body else removelast (head :: body)) = true ->
  exists g',
    tick fuel rnd g = Ok g' /\ running g' = false /\ score g' = score g.
Proof.
  intros Hinv Hrun Hs Hf Hcrash.
  pose proof (crash_misses_food g head body f Hinv Hs Hf Hcrash) as Hmiss.
  destruct (tick_miss_returns fuel rnd g head body f Hs Hf Hmiss) as [g' H].
  exists g'. split; [exact H|].
  pose proof (tick_snake _ _ _ _ _ _ _ Hs Hf H) as Hs'.
  pose proof (tick_score_index _ _ _ _ _ _ _ Hs Hf H) as Hsc.
  rewrite Hmiss in Hsc. split; [|apply Hsc].
  rewrite (tick_running _ _ _ _ _ _ H Hs'), Hrun, Hcrash. reflexivity.
Qed.

(** The two tests of [check_collisions], in the words of the
    specification. *)
Lemma outside_playable_spec (r : Rect) :
  outside_playable r = true <-> ~ in_playable r.
Proof.
  unfold outside_playable, in_playable, rect_left, rect_right, rect_top,
    rect_bottom.
  rewrite !orb_true_iff, !Z.ltb_lt. lia.
Qed.

Lemma overlaps_spec (a b : Rect) :
  aligned_unit a -> aligned_unit b ->
  colliderect a b = true <-> overlaps a b.
Proof.
  intros Ha Hb.
  apply aligned_unit_coords in Ha. apply aligned_unit_coords in Hb.
  destruct Ha as (Hwa & Hha & _). destruct Hb as (Hwb & Hhb & _).
  rewrite colliderect_units by assumption.
  unfold overlaps. rewrite Hwa, Hha, Hwb, Hhb.
  rewrite !andb_true_iff, !Z.ltb_lt. lia.
Qed.

Lemma hits_body_spec (head : Rect) (body : list Rect) :
  aligned_unit head -> Forall aligned_unit body ->
  hits_body head body = true <-> exists s, In s body /\ overlaps head s.
Proof.
  intros Ha Hb. unfold hits_body. rewrite existsb_exists.
  rewrite Forall_forall in Hb.
  split; intros (s & Hin & Hc); exists s; (split; [exact Hin|]);
    apply (overlaps_spec head s Ha (Hb s Hin)); exact Hc.
Qed.

(** C6. For a reachable running session with head [head], body [body] and
    food [f], let [nh] be the head moved one unit in the current direction;
    the segments it can run into are all but the last one, which moves
    away. If [nh] does not lie inside the playable bounds, or shares an
    area with one of those segments, the game update returns (whatever the
    fuel and the draws) with [running] false and the tail dropped. If
    [nh] lies inside the bounds and shares no area with any of them, every
    update that returns leaves the session running, and it does return
    when [nh] is not on the food. In particular, with the head in the
    leftmost playable column and the direction Left, the update returns
    with [running] false. *)
Theorem collision_stops_the_game {Pixels : Type} rnd fuel now
  (g : @Game Pixels) :
  reachable rnd g ->
  running g = true ->
  exists head body f,
    snake g = head :: body
    /\ food g = Some f
    /\ (~ in_playable (new_head_pos (direction g) head)
        \/ (exists s, In s (removelast (head :: body))
                      /\ overlaps (new_head_pos (direction g) head) s) ->
        exists g',
          handle_event fuel rnd now GAME_UPDATE g = Ok g'
          /\ running g' = false
          /\ snake g'
             = new_head_pos (direction g) head :: removelast (head :: body))
    /\ (in_playable (new_head_pos (direction g) head) ->
        (forall s, In s (removelast (head :: body)) ->
                   ~ overlaps (new_head_pos (direction g) head) s) ->
        (forall g',
           handle_event fuel rnd now GAME_UPDATE g = Ok g' ->
           running g' = true)
        /\ (~ overlaps (new_head_pos (direction g) head) f ->
            exists g',
              handle_event fuel rnd now GAME_UPDATE g = Ok g'
              /\ running g' = true))
    /\ (rect_left head = BORDER_SIZE -> direction g = L ->
        exists g',
          handle_event fuel rnd now GAME_UPDATE g = Ok g'
          /\ running g' = false).
Proof.
  intros Hr Hrun.
  pose proof (reachable_session_inv _ _ Hr) as Hinv.
  pose proof Hinv as (Hne & Hal & (f & Hf & Hfc & Hoff) & _).
  destruct (snake g) as [|head body] eqn:Hs; [congruence|].
  exists head, body, f.
  split; [reflexivity|]. split; [exact Hf|].
  cbn [handle_event]. rewrite Hrun.
  set (nh := new_head_pos (direction g) head).
  assert (aligned_unit nh) as Hnh
    by (apply new_head_pos_aligned; now inversion Hal).
  assert (Forall aligned_unit (removelast (head :: body))) as Halr.
  { apply Forall_forall. intros s Hin. apply In_removelast in Hin.
    rewrite Forall_forall in Hal. now apply Hal. }
  (* a new head that collides is not on the food *)
  assert (~ in_playable nh
          \/ (exists s, In s (removelast (head :: body)) /\ overlaps nh s) ->
          colliderect nh f = false) as Hmiss.
  { intros Hcrash. destruct (colliderect nh f) eqn:Hc; [exfalso|reflexivity].
    assert (nh = f) as E
      by (apply aligned_collide_eq; [exact Hnh | apply Hfc | exact Hc]).
    destruct Hcrash as [Hout | (s & Hin & Hov)].
    - apply Hout. rewrite E. destruct Hfc as (_ & H1 & H2 & H3 & H4).
      unfold in_playable, rect_left, rect_right, rect_top, rect_bottom in *.
      auto.
    - apply In_removelast in Hin.
      assert (aligned_unit s) as Hsa
        by (rewrite Forall_forall in Hal; now apply Hal).
      apply (overlaps_spec nh s Hnh Hsa) in Hov.
      assert (nh = s) as E' by (now apply aligned_collide_eq).
      specialize (Hoff s Hin). rewrite <- E', E in Hoff.
      rewrite aligned_collide_self in Hoff by apply Hfc. discriminate. }
  assert (~ in_playable nh
          \/ (exists s, In s (removelast (head :: body)) /\ overlaps nh s) ->
          exists g',
            tick fuel rnd g = Ok g' /\ running g' = false
            /\ snake g' = nh :: removelast (head :: body)) as Hcrash.
  { intros Hc. pose proof (Hmiss Hc) as Hm.
    destruct (crash_tick_returns fuel rnd g head body f Hinv Hrun
                Hs Hf) as (g' & H & Hover & _).
    { fold nh. rewrite Hm. apply orb_true_iff.
      destruct Hc as [Hout | Hov].
      - left. now apply outside_playable_spec.
      - right. now apply hits_body_spec. }
    exists g'. split; [exact H|]. split; [exact Hover|].
    rewrite (tick_snake _ _ _ _ _ _ _ Hs Hf H). fold nh.
    now rewrite Hm. }
  split; [exact Hcrash|]. split; [|].
  - intros Hin Hfree.
    assert (outside_playable nh = false) as Hout.
    { destruct (outside_playable nh) eqn:E; [|reflexivity].
      apply outside_playable_spec in E. contradiction. }
    assert (hits_body nh (removelast (head :: body)) = false) as Hhit.
    { destruct (hits_body nh (removelast (head :: body))) eqn:E;
        [|reflexivity].
      apply (hits_body_spec nh _ Hnh Halr) in E.
      destruct E as (s & Hs' & Hov). exfalso. exact (Hfree s Hs' Hov). }
    assert (forall g', tick fuel rnd g = Ok g' -> running g' = true) as Hany.
    { intros g' H.
      destruct (colliderect nh f) eqn:Hc.
      - eapply eating_tick_keeps_running; try eassumption; reflexivity.
      - pose proof (tick_snake _ _ _ _ _ _ _ Hs Hf H) as Hs'.
        fold nh in Hs'. rewrite Hc in Hs'.
        rewrite (tick_running _ _ _ _ _ _ H Hs'), Hrun, Hout, Hhit.
        reflexivity. }
    split; [exact Hany|].
    intros Hnf.
    assert (colliderect nh f = false) as Hc.
    { destruct (colliderect nh f) eqn:E; [|reflexivity].
      apply (overlaps_spec nh f Hnh (proj1 Hfc)) in E. contradiction. }
    destruct (tick_miss_returns fuel rnd g head body f Hs Hf Hc)
      as [g' H].
    exists g'. split; [exact H | exact (Hany g' H)].
  - intros Hleft Hdir.
    destruct Hcrash as (g' & H & Hover & _).
    { left. subst nh. rewrite Hdir.
      unfold in_playable, new_head_pos, rect_move.
      cbn [rect_x rect_y rect_w rect_h].
      unfold rect_left in Hleft. rewrite Hleft.
      unfold BORDER_SIZE, UNIT_SIZE. lia. }
    exists g'. split; assumption.
Qed.

Lemma collision_stops_the_game_witness :
  (* the left wall *)
  (reachable (rnd_of_list []) g_left_edge
   /\ running g_left_edge = true
   /\ hd_error (snake g_left_edge) = Some (mkRect 20 280 20 20)
   /\ direction g_left_edge = L
   /\ exists g',
        handle_event 1 (rnd_of_list []) 0 GAME_UPDATE g_left_edge = Ok g'
        /\ running g' = false)
  (* the top wall *)
  /\ (reachable rnd_feed g_top_edge
      /\ running g_top_edge = true
      /\ hd_error (snake g_top_edge) = Some (mkRect 500 20 20 20)
      /\ direction g_top_edge = U
      /\ exists g',
           handle_event 1 rnd_feed 0 GAME_UPDATE g_top_edge = Ok g'
           /\ running g' = false)
  (* the right wall *)
  /\ (reachable (rnd_of_list []) g_right_edge
      /\ running g_right_edge = true
      /\ hd_error (snake g_right_edge) = Some (mkRect 760 300 20 20)
      /\ direction g_right_edge = R
      /\ exists g',
           handle_event 1 (rnd_of_list []) 0 GAME_UPDATE g_right_edge = Ok g'
           /\ running g' = false)
  (* the bottom wall *)
  /\ (reachable (rnd_of_list []) g_bottom_edge
      /\ running g_bottom_edge = true
      /\ hd_error (snake g_bottom_edge) = Some (mkRect 400 560 20 20)
      /\ direction g_bottom_edge = D
      /\ exists g',
           handle_event 1 (rnd_of_list []) 0 GAME_UPDATE g_bottom_edge = Ok g'
           /\ running g' = false)
  (* the body *)
  /\ (reachable (rnd_of_list []) g_reversed
      /\ running g_reversed = true
      /\ snake g_reversed
         = [mkRect 420 300 20 20; mkRect 400 300 20 20; mkRect 380 300 20 20]
      /\ direction g_reversed = L
      /\ exists g',
           handle_event 1 (rnd_of_list []) 0 GAME_UPDATE g_reversed = Ok g'
           /\ running g' = false)
  (* no collision *)
  /\ (reachable (rnd_of_list []) g_moved
      /\ running g_moved = true
      /\ exists g',
           handle_event 1 (rnd_of_list []) 0 GAME_UPDATE g_moved = Ok g'
           /\ running g' = true).
Proof.
  assert (forall evs g,
            session 1 (rnd_of_list []) evs = Ok g ->
            reachable (rnd_of_list []) g) as Hreach
    by (intros evs g; apply session_reachable).
  assert (reachable (rnd_of_list []) g_right_edge) as Rr
    by (apply (Hreach (repeat GAME_UPDATE 18)); vm_compute; reflexivity).
  assert (reachable (rnd_of_list []) g_bottom_edge) as Rb
    by (apply (Hreach (KEYDOWN K_DOWN :: repeat GAME_UPDATE 13));
        vm_compute; reflexivity).
  assert (reachable (rnd_of_list []) g_reversed) as Rv
    by (apply (Hreach [GAME_UPDATE; KEYDOWN K_UP; KEYDOWN K_LEFT]);
        vm_compute; reflexivity).
  assert (reachable (rnd_of_list []) g_moved) as Rm
    by (apply (Hreach [GAME_UPDATE]); vm_compute; reflexivity).
  assert (reachable rnd_feed g_top_edge) as Rt.
  { apply (session_reachable 1 rnd_feed
             (repeat GAME_UPDATE 5 ++ KEYDOWN K_UP :: repeat GAME_UPDATE 14)).
    vm_compute. reflexivity. }
  split; [|split; [|split; [|split; [|split]]]].
  - split; [exact g_left_edge_reachable|]. split; [reflexivity|].
    split; [reflexivity|]. split; [reflexivity|].
    destruct (collision_stops_the_game (rnd_of_list []) 1 0%Q g_left_edge
                g_left_edge_reachable eq_refl)
      as (head & body & f & Hs & _ & _ & _ & Hleft).
    assert (head = mkRect 20 280 20 20) as ->
      by (vm_compute in Hs; congruence).
    apply Hleft; reflexivity.
  - split; [exact Rt|]. split; [reflexivity|].
    split; [reflexivity|]. split; [reflexivity|].
    destruct (collision_stops_the_game rnd_feed 1 0%Q g_top_edge Rt eq_refl)
      as (head & body & f & Hs & _ & Hcrash & _).
    assert (head = mkRect 500 20 20 20) as ->
      by (vm_compute in Hs; congruence).
    destruct Hcrash as (g' & H & Hover & _).
    { left. vm_compute. intuition discriminate. }
    exists g'. split; assumption.
  - split; [exact Rr|]. split; [reflexivity|].
    split; [reflexivity|]. split; [reflexivity|].
    destruct (collision_stops_the_game (rnd_of_list []) 1 0%Q g_right_edge
                Rr eq_refl)
      as (head & body & f & Hs & _ & Hcrash & _).
    assert (head = mkRect 760 300 20 20) as ->
      by (vm_compute in Hs; congruence).
    destruct Hcrash as (g' & H & Hover & _).
    { left. vm_compute. intuition discriminate. }
    exists g'. split; assumption.
  - split; [exact Rb|]. split; [reflexivity|].
    split; [reflexivity|]. split; [reflexivity|].
    destruct (collision_stops_the_game (rnd_of_list []) 1 0%Q g_bottom_edge
                Rb eq_refl)
      as (head & body & f & Hs & _ & Hcrash & _).
    assert (head = mkRect 400 560 20 20) as ->
      by (vm_compute in Hs; congruence).
    destruct Hcrash as (g' & H & Hover & _).
    { left. vm_compute. intuition discriminate. }
    exists g'. split; assumption.
  - split; [exact Rv|]. split; [reflexivity|].
    split; [reflexivity|]. split; [reflexivity|].
    destruct (collision_stops_the_game (rnd_of_list []) 1 0%Q g_reversed
                Rv eq_refl)
      as (head & body & f & Hs & _ & Hcrash & _).
    assert (head = mkRect 420 300 20 20
            /\ body = [mkRect 400 300 20 20; mkRect 380 300 20 20])
      as [-> ->] by (vm_compute in Hs; split; congruence).
    destruct Hcrash as (g' & H & Hover & _).
    { right. exists (mkRect 400 300 20 20). split.
      - right. left. reflexivity.
      - vm_compute. repeat split. }
    exists g'. split; assumption.
  - split; [exact Rm|]. split; [reflexivity|].
    destruct (collision_stops_the_game (rnd_of_list []) 1 0%Q g_moved
                Rm eq_refl)
      as (head & body & f & Hs & Hf & _ & Hfree & _).
    assert (head = mkRect 420 300 20 20
            /\ body = [mkRect 400 300 20 20; mkRect 380 300 20 20]
            /\ f = mkRect 20 20 20 20)
      as (-> & -> & ->) by (vm_compute in Hs, Hf; repeat split; congruence).
    destruct Hfree as [_ Hret].
    + vm_compute. intuition discriminate.
    + intros s [<- | [<- | []]]; vm_compute; intuition discriminate.
    + apply Hret. vm_compute. intuition discriminate.
Defined.

(** ** Direction keys *)

Lemma key_of_inj (d d' : Direction) : key_of d = key_of d' -> d = d'.
Proof. destruct d, d'; intros H; (reflexivity || discriminate). Qed.

Lemma Direction_eqb_eq (d d' : Direction) :
  Direction_eqb d d' = true <-> d = d'.
Proof. destruct d, d'; cbn; split; intros H; (reflexivity || discriminate). Qed.

(** The four direction branches of the handler at once. *)
Lemma handle_direction_key {Pixels : Type} fuel rnd now (g : @Game Pixels)
  (d : Direction) :
  handle_event fuel rnd now (KEYDOWN (key_of d)) g
  = Ok (if Direction_eqb d (opposite (direction g))
        then g else set_direction d g).
Proof.
  destruct d, (direction g) eqn:E; cbn [key_of handle_event];
    rewrite E; reflexivity.
Qed.

(** C8. A key that asks for the exact reverse of the current direction is
    ignored: the handler returns (no error) and the session, its direction
    included, is what it was. This holds whether or not the session is
    running. *)
Theorem reverse_direction_is_ignored {Pixels : Type} fuel rnd now
  (g : @Game Pixels) :
  handle_event fuel rnd now (KEYDOWN (key_of (opposite (direction g)))) g
  = Ok g
  /\ forall g',
       handle_event fuel rnd now (KEYDOWN (key_of (opposite (direction g)))) g
       = Ok g' ->
       direction g' = direction g.
Proof.
  rewrite handle_direction_key.
  replace (Direction_eqb (opposite (direction g)) (opposite (direction g)))
    with true by (symmetry; now apply Direction_eqb_eq).
  split; [reflexivity|]. intros g' H. congruence.
Qed.

(** Any other direction request is taken. *)
Lemma other_direction_is_taken {Pixels : Type} fuel rnd now
  (g : @Game Pixels) (d : Direction) :
  d <> opposite (direction g) ->
  handle_event fuel rnd now (KEYDOWN (key_of d)) g = Ok (set_direction d g).
Proof.
  intros Hd. rewrite handle_direction_key.
  destruct (Direction_eqb d (opposite (direction g))) eqn:E;
    [|reflexivity].
  apply Direction_eqb_eq in E. contradiction.
Qed.

Lemma set_direction_same {Pixels : Type} (g : @Game Pixels) :
  set_direction (direction g) g = g.
Proof. destruct g; reflexivity. Qed.

(** ** Game over *)




(** ** Restart *)

(** C3, as stated, fails: restarting a reachable session that is over with
    score 5 and the second style gives score 0 and the first style; only
    the high score is carried over. *)
Lemma restart_resets_score_and_style :
  reachable rnd_feed g_over
  /\ running g_over = false
  /\ score g_over = 5
  /\ current_style_index g_over = 1
  /\ handle_event 1 rnd_feed 7 (KEYDOWN K_SPACE) g_over
     = Ok (restarted rnd_feed 7 0 g_over)
  /\ score (restarted rnd_feed 7 0 g_over) <> score g_over
  /\ current_style_index (restarted rnd_feed 7 0 g_over)
     <> current_style_index g_over
  /\ high_score (restarted rnd_feed 7 0 g_over) = 5.
Proof.
  split; [exact g_over_reachable|].
  repeat split; try reflexivity; discriminate.
Qed.

(** C3, amended. A restart (the restart key handled while the session is
    over) that returns keeps the high score; the score is 0 and the style
    is the first one again, whatever they were; the snake is the initial
    three segments, the direction is Right, the session is running, the
    start time is the current clock reading, the frame history is empty,
    and the food is a fresh grid cell off the snake. *)
Theorem restart_keeps_only_high_score {Pixels : Type} fuel rnd now
  (g g' : @Game Pixels) :
  running g = false ->
  handle_event fuel rnd now (KEYDOWN K_SPACE) g = Ok g' ->
  high_score g' = high_score g
  /\ score g' = 0
  /\ current_style_index g' = 0
  /\ current_style g' = style_green
  /\ snake g' = initial_snake
  /\ direction g' = R
  /\ running g' = true
  /\ game_start_time g' = now
  /\ ghosting_frames g' = []
  /\ food_off_snake g'.
Proof.
  intros Hrun H. cbn [handle_event] in H. rewrite Hrun in H. cbn [negb] in H.
  apply start_game_restarted in H. destruct H as (k & _ & -> & Hfree).
  repeat split.
  exists (candidate rnd (random_pos g + 2 * k)).
  split; [reflexivity|]. split; [apply candidate_grid_cell|].
  now apply on_snake_false.
Qed.

Lemma restart_keeps_only_high_score_witness :
  running g_over = false
  /\ handle_event 1 rnd_feed 7 (KEYDOWN K_SPACE) g_over
     = Ok (restarted rnd_feed 7 0 g_over)
  /\ high_score (restarted rnd_feed 7 0 g_over) = high_score g_over
  /\ score (restarted rnd_feed 7 0 g_over) = 0
  /\ current_style_index (restarted rnd_feed 7 0 g_over) = 0
  /\ current_style (restarted rnd_feed 7 0 g_over) = style_green
  /\ snake (restarted rnd_feed 7 0 g_over) = initial_snake
  /\ direction (restarted rnd_feed 7 0 g_over) = R
  /\ running (restarted rnd_feed 7 0 g_over) = true
  /\ game_start_time (restarted rnd_feed 7 0 g_over) = 7%Q
  /\ ghosting_frames (restarted rnd_feed 7 0 g_over) = []
  /\ food_off_snake (restarted rnd_feed 7 0 g_over).
Proof.
  split; [reflexivity|]. split; [reflexivity|].
  apply (restart_keeps_only_high_score 1 rnd_feed 7%Q g_over).
  - reflexivity.
  - reflexivity.
Defined.

(** ** The ghosting pass *)

Lemma fade_pixels {Pixels : Type} (base : Z) (n : nat)
  (frames : list (@Surface Pixels)) :
  forall i, map pixels (fade base n i frames) = map pixels frames.
Proof.
  induction frames as [|f frames IH]; intros i; cbn [fade map];
    [reflexivity | now rewrite IH].
Qed.

Lemma fade_nth_error {Pixels : Type} (base : Z) (n : nat)
  (frames : list (@Surface Pixels)) :
  forall i0 i s,
    nth_error (fade base n i0 frames) i = Some s ->
    alpha s = Some (frame_alpha base (i0 + i) n).
Proof.
  induction frames as [|f frames IH]; intros i0 i s H.
  - destruct i; discriminate.
  - destruct i as [|i]; cbn [fade nth_error] in H.
    + inversion H. cbn [alpha set_alpha]. now rewrite Nat.add_0_r.
    + apply IH in H. rewrite H. do 2 f_equal. lia.
Qed.

Lemma style_ghosting_alpha (s : CrtStyle) :
  In s crt_styles ->
  ghosting_alpha s = 20 \/ ghosting_alpha s = 30 \/ ghosting_alpha s = 15.
Proof.
  intros [<- | [<- | [<- | []]]]; cbn; auto.
Qed.

Lemma frame_alpha_checked :
  forallb (fun base => forallb (frame_alpha_check base) (seq 1 5))
    [20; 30; 15] = true.
Proof. vm_compute. reflexivity. Qed.

(** For the three styles of the game and a history of one to five frames:
    the float passed to [set_alpha] is finite; the stored alpha is the
    exact value [base * (n - i) / n] rounded down to an integer, or one
    less where the float falls just short of it; the frame at index 0 gets
    the base alpha itself; and every later frame gets strictly less. *)
Lemma frame_alpha_facts (base : Z) (n i : nat) :
  base = 20 \/ base = 30 \/ base = 15 ->
  (1 <= n <= 5)%nat -> (i < n)%nat ->
  float_is_finite (ghost_alpha base i n) = true
  /\ base * Z.of_nat (n - i) - Z.of_nat n <= frame_alpha base i n * Z.of_nat n
  /\ frame_alpha base i n * Z.of_nat n <= base * Z.of_nat (n - i)
  /\ (i = O -> frame_alpha base i n = base)
  /\ (forall j, (i < j < n)%nat -> frame_alpha base j n < frame_alpha base i n).
Proof.
  intros Hb Hn Hi.
  pose proof frame_alpha_checked as H.
  rewrite forallb_forall in H.
  assert (In base [20; 30; 15]) as Hin by (cbn; intuition).
  specialize (H base Hin). rewrite forallb_forall in H.
  specialize (H n ltac:(apply in_seq; lia)).
  unfold frame_alpha_check in H. rewrite forallb_forall in H.
  specialize (H i ltac:(apply in_seq; lia)).
  rewrite !andb_true_iff in H.
  destruct H as ((((H1 & H2) & H3) & H4) & H5).
  apply Z.leb_le in H2. apply Z.leb_le in H3.
  rewrite forallb_forall in H5.
  split; [exact H1|]. split; [exact H2|]. split; [exact H3|]. split.
  - intros ->. cbn [Nat.eqb] in H4. now apply Z.eqb_eq in H4.
  - intros j Hj. apply Z.ltb_lt. apply H5. apply in_seq. lia.
Qed.

(** The frames of the history before the alphas are set: the new frame is
    appended and, above five frames, the first one is dropped. *)
Lemma draw_history {Pixels : Type} (content : Pixels) (g : @Game Pixels) :
  let kept :=
    if max_ghosting_frames <? Z.of_nat (length (ghosting_frames g ++
                                 [surface_copy (mkSurface content None)]))
    then tl (ghosting_frames g ++ [surface_copy (mkSurface content None)])
    else ghosting_frames g ++ [surface_copy (mkSurface content None)] in
  ghosting_frames (fst (draw content g))
  = fade (ghosting_alpha (current_style g)) (length kept) 0 kept
  /\ snd (draw content g)
     = ghosting_frames (fst (draw content g)) ++ [mkSurface content None].
Proof.
  unfold draw.
  cbn [ghosting_frames set_ghosting_frames set_random_pos current_style].
  destruct (max_ghosting_frames <? _); split; reflexivity.
Qed.

Lemma g_four_frames_reachable : reachable (rnd_of_list []) g_four_frames.
Proof.
  change g_four_frames
    with (fst (draw 4%nat
                 (fst (draw 3%nat
                         (fst (draw 2%nat
                                 (fst (draw 1%nat
                                         (the_session
                                            (session 1 (rnd_of_list []) [])))))))))).
  do 4 apply reach_draw.
  apply (session_reachable 1 (rnd_of_list []) []).
  vm_compute. reflexivity.
Qed.

(** C2, as stated, fails: with frames 1 to 4 in the history (1 the oldest)
    and the first style (base alpha 20), drawing frame 5 blits the history
    oldest first with alphas 20, 16, 12, 8, 3 and then frame 5 opaque: the
    oldest frame gets the full base alpha and the newest the least, the
    reverse of an opacity that falls with age. (A history of three frames
    is blitted with alphas 20, 13, 6.) *)
Lemma ghosting_oldest_frame_gets_full_alpha :
  reachable (rnd_of_list []) g_four_frames
  /\ map pixels (ghosting_frames g_four_frames) = [1; 2; 3; 4]%nat
  /\ ghosting_alpha (current_style g_four_frames) = 20
  /\ map shown (snd (draw 5%nat g_four_frames))
     = [ (1%nat, Some 20); (2%nat, Some 16); (3%nat, Some 12);
         (4%nat, Some 8); (5%nat, Some 3); (5%nat, None) ]
  /\ ~ (inject_Z (frame_alpha 20 0 5) == aged_alpha 20 4 5)%Q
  /\ ~ (inject_Z (frame_alpha 20 4 5) == aged_alpha 20 0 5)%Q
  /\ frame_alpha 20 4 5 < frame_alpha 20 0 5
  /\ map (fun i => frame_alpha 20 i 3) [0; 1; 2]%nat = [20; 13; 6].
Proof.
  split; [exact g_four_frames_reachable|].
  repeat split; try reflexivity; intros H; vm_compute in H; discriminate.
Qed.

(** C2, amended. With at most five frames in the history and one of the
    three styles of the game in use, [draw] appends the new frame and drops
    the first (oldest) one if that makes six, so between one and five
    frames are kept, the last of them a copy of the current frame. They
    are blitted first to last (oldest to newest), and the current frame is
    blitted after them with no alpha set (opaque). The frame at index [i]
    of [n] is blitted with the integer part of the float
    [base * (1 - i / n)], where [base] is the ghosting alpha of the style:
    that float is finite, the integer is the exact value
    [base * (n - i) / n] rounded down or one less, the oldest frame gets
    the whole base alpha, every newer frame gets strictly less than every
    older one, and the newest gets at most [base / n]. *)
Theorem ghosting_pass_fades_towards_newest {Pixels : Type}
  (content : Pixels) (g : @Game Pixels) :
  Z.of_nat (length (ghosting_frames g)) <= max_ghosting_frames ->
  In (current_style g) crt_styles ->
  (1 <= length (history_after content g) <= 5)%nat
  /\ map pixels (history_after content g)
     = (if Z.of_nat (length (ghosting_frames g)) =? max_ghosting_frames
        then tl (map pixels (ghosting_frames g))
        else map pixels (ghosting_frames g)) ++ [content]
  /\ snd (draw content g)
     = history_after content g ++ [mkSurface content None]
  /\ (forall i s,
        nth_error (history_after content g) i = Some s ->
        exists a,
          alpha s = Some a
          /\ a = stored_alpha
                   (ghost_alpha (ghosting_alpha (current_style g)) i
                      (length (history_after content g)))
          /\ float_is_finite
               (ghost_alpha (ghosting_alpha (current_style g)) i
                  (length (history_after content g))) = true
          /\ ghosting_alpha (current_style g)
               * Z.of_nat (length (history_after content g) - i)
             - Z.of_nat (length (history_after content g))
             <= a * Z.of_nat (length (history_after content g))
          /\ a * Z.of_nat (length (history_after content g))
             <= ghosting_alpha (current_style g)
                * Z.of_nat (length (history_after content g) - i)
          /\ (i = O -> a = ghosting_alpha (current_style g))
          /\ (S i = length (history_after content g) ->
              a * Z.of_nat (length (history_after content g))
              <= ghosting_alpha (current_style g))
          /\ (forall j sj aj,
                (i < j)%nat ->
                nth_error (history_after content g) j = Some sj ->
                alpha sj = Some aj ->
                aj < a)).
Proof.
  intros Hlen Hstyle.
  destruct (draw_history content g) as [Hhist Hblits].
  pose proof (draw_frames_length content g Hlen) as Hlen'.
  fold (history_after content g) in Hhist, Hblits, Hlen'.
  set (history := history_after content g) in *.
  set (base := ghosting_alpha (current_style g)) in *.
  assert (map pixels history
          = (if Z.of_nat (length (ghosting_frames g)) =? max_ghosting_frames
             then tl (map pixels (ghosting_frames g))
             else map pixels (ghosting_frames g)) ++ [content]) as Hpix.
  { rewrite Hhist, fade_pixels.
    rewrite length_app. cbn [length]. unfold max_ghosting_frames in *.
    destruct (Z.of_nat (length (ghosting_frames g)) =? 5) eqn:E.
    - apply Z.eqb_eq in E.
      replace (5 <? Z.of_nat (length (ghosting_frames g) + 1)) with true
        by (symmetry; apply Z.ltb_lt; lia).
      destruct (ghosting_frames g) as [|f fr]; [cbn in E; lia|].
      cbn [app tl map]. now rewrite map_app.
    - apply Z.eqb_neq in E.
      replace (5 <? Z.of_nat (length (ghosting_frames g) + 1)) with false
        by (symmetry; apply Z.ltb_ge; lia).
      now rewrite map_app. }
  assert (1 <= length history <= 5)%nat as Hn.
  { split.
    - rewrite <- (length_map pixels), Hpix, length_app. cbn [length]. lia.
    - unfold max_ghosting_frames in Hlen'. lia. }
  assert (forall i s, nth_error history i = Some s ->
            alpha s = Some (frame_alpha base i (length history))) as Halpha.
  { intros i s Hs. rewrite Hhist in Hs.
    apply fade_nth_error in Hs. rewrite Hs.
    do 2 f_equal. subst history. rewrite Hhist at 1. now rewrite fade_length. }
  pose proof (style_ghosting_alpha _ Hstyle) as Hbase. fold base in Hbase.
  split; [exact Hn|]. split; [exact Hpix|]. split; [exact Hblits|].
  intros i s Hs.
  assert (i < length history)%nat as Hi
    by (apply nth_error_Some; congruence).
  destruct (frame_alpha_facts base (length history) i Hbase Hn Hi)
    as (F1 & F2 & F3 & F4 & F5).
  exists (frame_alpha base i (length history)).
  split; [now apply Halpha|]. split; [reflexivity|].
  split; [exact F1|]. split; [exact F2|]. split; [exact F3|].
  split; [exact F4|]. split.
  - intros Hlast.
    replace (length history - i)%nat with 1%nat in F3 by lia. lia.
  - intros j sj aj Hij Hsj Haj.
    assert (j < length history)%nat as Hj
      by (apply nth_error_Some; congruence).
    rewrite (Halpha j sj Hsj) in Haj. injection Haj as <-.
    apply F5. lia.
Qed.

Lemma ghosting_pass_fades_towards_newest_witness :
  Z.of_nat (length (ghosting_frames g_four_frames)) <= max_ghosting_frames
  /\ In (current_style g_four_frames) crt_styles
  /\ map shown (history_after 5%nat g_four_frames)
     = [ (1%nat, Some 20); (2%nat, Some 16); (3%nat, Some 12);
         (4%nat, Some 8); (5%nat, Some 3) ]
  /\ (1 <= length (history_after 5%nat g_four_frames) <= 5)%nat
  /\ map pixels (history_after 5%nat g_four_frames)
     = (if Z.of_nat (length (ghosting_frames g_four_frames))
           =? max_ghosting_frames
        then tl (map pixels (ghosting_frames g_four_frames))
        else map pixels (ghosting_frames g_four_frames)) ++ [5%nat]
  /\ snd (draw 5%nat g_four_frames)
     = history_after 5%nat g_four_frames ++ [mkSurface 5%nat None]
  /\ (forall i s,
        nth_error (history_after 5%nat g_four_frames) i = Some s ->
        exists a,
          alpha s = Some a
          /\ a = stored_alpha
                   (ghost_alpha (ghosting_alpha (current_style g_four_frames))
                      i (length (history_after 5%nat g_four_frames)))
          /\ float_is_finite
               (ghost_alpha (ghosting_alpha (current_style g_four_frames)) i
                  (length (history_after 5%nat g_four_frames))) = true
          /\ ghosting_alpha (current_style g_four_frames)
               * Z.of_nat (length (history_after 5%nat g_four_frames) - i)
             - Z.of_nat (length (history_after 5%nat g_four_frames))
             <= a * Z.of_nat (length (history_after 5%nat g_four_frames))
          /\ a * Z.of_nat (length (history_after 5%nat g_four_frames))
             <= ghosting_alpha (current_style g_four_frames)
                * Z.of_nat (length (history_after 5%nat g_four_frames) - i)
          /\ (i = O -> a = ghosting_alpha (current_style g_four_frames))
          /\ (S i = length (history_after 5%nat g_four_frames) ->
              a * Z.of_nat (length (history_after 5%nat g_four_frames))
              <= ghosting_alpha (current_style g_four_frames))
          /\ (forall j sj aj,
                (i < j)%nat ->
                nth_error (history_after 5%nat g_four_frames) j = Some sj ->
                alpha sj = Some aj ->
                aj < a)).
Proof.
  assert (Z.of_nat (length (ghosting_frames g_four_frames))
          <= max_ghosting_frames) as H by (vm_compute; discriminate).
  assert (In (current_style g_four_frames) crt_styles) as Hs
    by (left; reflexivity).
  split; [exact H|]. split; [exact Hs|]. split; [reflexivity|].
  exact (ghosting_pass_fades_towards_newest 5%nat g_four_frames H Hs).
Defined.

(** * Further properties of the session *)

(** ** The snake stays a chain of distinct cells *)

Lemma grid_cell_of_aligned (r : Rect) :
  aligned_unit r -> outside_playable r = false -> grid_cell r.
Proof.
  intros Ha Hout. split; [exact Ha|].
  unfold outside_playable in Hout.
  rewrite !orb_false_iff, !Z.ltb_ge in Hout.
  lia.
Qed.

Lemma grid_cell_inside (r : Rect) :
  grid_cell r -> outside_playable r = false.
Proof.
  intros (_ & H1 & H2 & H3 & H4). unfold outside_playable.
  rewrite !orb_false_iff, !Z.ltb_ge. lia.
Qed.

Lemma chain_removelast (l : list Rect) : chain l -> chain (removelast l).
Proof.
  induction l as [|a l IH]; [auto|].
  destruct l as [|b l]; [auto|].
  intros [Hd Hc]. specialize (IH Hc).
  change (removelast (a :: b :: l)) with (a :: removelast (b :: l)).
  destruct l as [|c l]; [exact I|].
  change (removelast (b :: c :: l)) with (b :: removelast (c :: l)) in *.
  split; assumption.
Qed.

Lemma NoDup_removelast {A : Type} (l : list A) :
  NoDup l -> NoDup (removelast l).
Proof.
  destruct l as [|a l]; [auto|]. intros H.
  rewrite (app_removelast_last a (l:=a :: l)) in H by discriminate.
  now apply NoDup_app_remove_r in H.
Qed.

Lemma hits_body_self (head : Rect) (body : list Rect) :
  aligned_unit head -> In head body -> hits_body head body = true.
Proof.
  intros Ha Hin. apply existsb_exists. exists head.
  split; [exact Hin | now apply aligned_collide_self].
Qed.

Lemma initial_snake_chain : chain initial_snake.
Proof.
  repeat split; exists R; reflexivity.
Qed.

Section Shape.

Context {Pixels : Type}.
Implicit Types g : @Game Pixels.

(** A running session that satisfies both invariants has its whole snake
    on distinct cells of the playable grid. *)
Lemma running_snake_cells g head body :
  session_inv g -> running g = true -> snake g = head :: body ->
  Forall grid_cell body -> NoDup body ->
  running g = negb (outside_playable head || hits_body head body) ->
  Forall grid_cell (head :: body) /\ NoDup (head :: body).
Proof.
  intros (_ & Hal & _) Hrun Hs Hcells Hnd Hr.
  rewrite Hrun in Hr. symmetry in Hr.
  apply negb_true_iff, orb_false_iff in Hr. destruct Hr as [Hout Hhit].
  assert (aligned_unit head) as Ha by (rewrite Hs in Hal; now inversion Hal).
  split.
  - constructor; [now apply grid_cell_of_aligned | exact Hcells].
  - constructor; [|exact Hnd].
    intros Hin. rewrite (hits_body_self head body Ha Hin) in Hhit.
    discriminate.
Qed.

Lemma restarted_body_inv rnd now k g : body_inv (restarted rnd now k g).
Proof.
  exists (mkRect 400 300 20 20),
    [mkRect 380 300 20 20; mkRect 360 300 20 20].
  split; [reflexivity|]. split.
  { repeat constructor; try reflexivity; cbn; discriminate. }
  split.
  { repeat constructor; cbn; intuition discriminate. }
  split; [reflexivity|].
  exact initial_snake_chain.
Qed.

Lemma tick_body_inv fuel rnd g g' :
  session_inv g -> body_inv g -> running g = true ->
  tick fuel rnd g = Ok g' -> body_inv g'.
Proof.
  intros Hinv (head & body & Hs & Hcells & Hnd & Hr & Hch) Hrun H.
  destruct (running_snake_cells g head body Hinv Hrun Hs Hcells Hnd Hr)
    as [Hcells' Hnd'].
  destruct (tick_ok_inv _ _ _ _ H) as (head0 & body0 & f & Hs0 & Hf).
  assert (head0 = head /\ body0 = body) as [-> ->]
    by (rewrite Hs in Hs0; inversion Hs0; auto).
  pose proof (tick_snake _ _ _ _ _ _ _ Hs Hf H) as Hs'.
  set (nh := new_head_pos (direction g) head) in *.
  set (rest := if colliderect nh f then head :: body
               else removelast (head :: body)) in *.
  exists nh, rest. split; [exact Hs'|].
  assert (Forall grid_cell rest /\ NoDup rest /\ chain (nh :: rest))
    as (Hc & Hn & Hchain).
  { subst rest. destruct (colliderect nh f).
    - repeat split; try assumption.
      + now exists (direction g).
      + now rewrite <- Hs.
    - split; [|split].
      + apply Forall_forall. intros s Hin. apply In_removelast in Hin.
        rewrite Forall_forall in Hcells'. now apply Hcells'.
      + now apply NoDup_removelast.
      + rewrite Hs in Hch. apply chain_removelast in Hch.
        destruct body as [|b body]; [exact I|].
        change (removelast (head :: b :: body))
          with (head :: removelast (b :: body)) in *.
        split; [now exists (direction g) | exact Hch]. }
  split; [exact Hc|]. split; [exact Hn|]. split.
  - rewrite (tick_running _ _ _ _ _ _ H Hs'), Hrun. reflexivity.
  - rewrite Hs'. exact Hchain.
Qed.

Lemma handle_event_body_inv fuel rnd now ev g g' :
  session_inv g -> body_inv g ->
  handle_event fuel rnd now ev g = Ok g' -> body_inv g'.
Proof.
  intros Hinv Hb H.
  assert (forall d, body_inv (set_direction d g)) as Hdir
    by (intros d; exact Hb).
  destruct ev as [|[| | | | |]| |]; cbn [handle_event] in H.
  - inversion H; now subst.
  - inversion H. destruct (negb _); [apply Hdir | exact Hb].
  - inversion H. destruct (negb _); [apply Hdir | exact Hb].
  - inversion H. destruct (negb _); [apply Hdir | exact Hb].
  - inversion H. destruct (negb _); [apply Hdir | exact Hb].
  - destruct (negb (running g)).
    + apply start_game_restarted in H. destruct H as (k & _ & -> & _).
      apply restarted_body_inv.
    + inversion H; now subst.
  - inversion H; now subst.
  - destruct (running g) eqn:Hrun.
    + eapply tick_body_inv; eassumption.
    + inversion H; now subst.
  - inversion H; now subst.
Qed.

Lemma draw_body_inv content g : body_inv g -> body_inv (fst (draw content g)).
Proof.
  intros (head & body & Hs & Hcells & Hnd & Hr & Hch).
  destruct (draw_keeps content g) as (D1 & _ & _ & D4 & _).
  exists head, body. rewrite D1, D4. auto.
Qed.

Lemma reachable_body_inv rnd g : reachable rnd g -> body_inv g.
Proof.
  induction 1 as [fuel now g H | fuel now ev g g' Hr IH H | content g _ IH].
  - unfold init in H. change (py_index crt_styles 0) with (Ok style_green) in H.
    cbn [bind] in H.
    apply start_game_restarted in H. destruct H as (k & _ & -> & _).
    apply restarted_body_inv.
  - eapply handle_event_body_inv; [|exact IH|exact H].
    now apply reachable_session_inv in Hr.
  - now apply draw_body_inv.
Qed.

End Shape.

(** X1. A reachable session is running exactly when its head passes the
    wall test and collides with none of the segments behind it: the game is
    over if and only if the head is out of the playable area or on the
    body. *)
Theorem running_iff_head_clear {Pixels : Type} rnd (g : @Game Pixels) :
  reachable rnd g ->
  exists head body,
    snake g = head :: body
    /\ running g = negb (outside_playable head || hits_body head body).
Proof.
  intros Hr. apply reachable_body_inv in Hr.
  destruct Hr as (head & body & Hs & _ & _ & Hrun & _).
  now exists head, body.
Qed.

Lemma running_iff_head_clear_witness :
  reachable rnd_feed g_over
  /\ exists head body,
       snake g_over = head :: body
       /\ running g_over
          = negb (outside_playable head || hits_body head body).
Proof.
  split; [exact g_over_reachable|].
  apply (running_iff_head_clear rnd_feed g_over).
  exact g_over_reachable.
Defined.

Lemma distinct_cells_do_not_collide (a b : Rect) :
  aligned_unit a -> aligned_unit b -> a <> b -> colliderect a b = false.
Proof.
  intros Ha Hb Hne. destruct (colliderect a b) eqn:E; [|reflexivity].
  exfalso. apply Hne. now apply aligned_collide_eq.
Qed.

(** X2. While a reachable session is running, every segment of the snake
    is a cell of the playable grid, no cell holds two segments, and no two
    segments collide. *)
Theorem running_snake_on_distinct_cells {Pixels : Type} rnd
  (g : @Game Pixels) :
  reachable rnd g ->
  running g = true ->
  Forall grid_cell (snake g)
  /\ NoDup (snake g)
  /\ forall i j a b,
       i <> j ->
       nth_error (snake g) i = Some a -> nth_error (snake g) j = Some b ->
       colliderect a b = false.
Proof.
  intros Hr Hrun.
  pose proof (reachable_session_inv _ _ Hr) as Hinv.
  destruct (reachable_body_inv _ _ Hr)
    as (head & body & Hs & Hcells & Hnd & Hrn & _).
  destruct (running_snake_cells g head body Hinv Hrun Hs Hcells Hnd Hrn)
    as [Hc Hn].
  rewrite Hs. split; [exact Hc|]. split; [exact Hn|].
  intros i j a b Hij Ha Hb.
  rewrite Forall_forall in Hc.
  apply distinct_cells_do_not_collide.
  - apply Hc. eapply nth_error_In; eassumption.
  - apply Hc. eapply nth_error_In; eassumption.
  - intros ->. apply Hij.
    rewrite NoDup_nth_error in Hn. apply Hn.
    + apply nth_error_Some. congruence.
    + congruence.
Qed.

Lemma running_snake_on_distinct_cells_witness :
  reachable rnd_feed g_score4
  /\ running g_score4 = true
  /\ Forall grid_cell (snake g_score4)
  /\ NoDup (snake g_score4).
Proof.
  split; [exact g_score4_reachable|]. split; [reflexivity|].
  destruct (running_snake_on_distinct_cells rnd_feed g_score4
              g_score4_reachable eq_refl) as (H1 & H2 & _).
  split; assumption.
Defined.

(** X3. In every reachable session, running or over, the snake is a chain:
    each segment is the one behind it moved one unit Up, Down, Left or
    Right; every segment is an aligned unit square, and the segments behind
    the head are distinct cells inside the playable area. *)
Theorem snake_is_a_chain {Pixels : Type} rnd (g : @Game Pixels) :
  reachable rnd g ->
  chain (snake g)
  /\ Forall aligned_unit (snake g)
  /\ Forall grid_cell (tl (snake g))
  /\ NoDup (tl (snake g)).
Proof.
  intros Hr.
  pose proof (reachable_session_inv _ _ Hr) as (_ & Hal & _).
  destruct (reachable_body_inv _ _ Hr)
    as (head & body & Hs & Hcells & Hnd & _ & Hch).
  rewrite Hs in *. cbn [tl]. auto.
Qed.

Lemma snake_is_a_chain_witness :
  reachable rnd_feed g_over
  /\ chain (snake g_over)
  /\ Forall aligned_unit (snake g_over)
  /\ Forall grid_cell (tl (snake g_over))
  /\ NoDup (tl (snake g_over)).
Proof.
  split; [exact g_over_reachable|].
  apply (snake_is_a_chain rnd_feed g_over).
  exact g_over_reachable.
Defined.

(** ** Eating, crashing and the score *)

(** X4. In a reachable running session, a game update that raises the
    score leaves the session running: the update that ends the game never
    scores, and the score of a finished game is the score before the
    crash. *)
Theorem scoring_update_keeps_running {Pixels : Type} rnd fuel now
  (g g' : @Game Pixels) :
  reachable rnd g ->
  running g = true ->
  handle_event fuel rnd now GAME_UPDATE g = Ok g' ->
  (score g' = score g + 1 -> running g' = true)
  /\ (running g' = false ->
      score g' = score g /\ high_score g' = high_score g
      /\ food g' = food g /\ random_pos g' = random_pos g).
Proof.
  intros Hr Hrun H.
  pose proof (reachable_session_inv _ _ Hr) as Hinv.
  cbn [handle_event] in H. rewrite Hrun in H.
  destruct (tick_ok_inv _ _ _ _ H) as (head & body & f & Hs & Hf).
  pose proof (tick_score_index _ _ _ _ _ _ _ Hs Hf H) as Hsc.
  destruct (colliderect (new_head_pos (direction g) head) f) eqn:Hc.
  - pose proof (eating_tick_keeps_running _ _ _ _ _ _ _ Hinv Hrun Hs Hf H Hc)
      as Hrun'.
    split; [auto|]. intros Hover. congruence.
  - destruct Hsc as (Hs1 & Hh1 & _).
    split; [intros E; lia|]. intros _.
    rewrite (tick_miss _ _ _ _ _ _ Hs Hf Hc) in H.
    set (g0 := set_snake (new_head_pos (direction g) head
                            :: removelast (head :: body)) g) in *.
    assert (g' = crashed g0) as -> by congruence.
    destruct (crashed_keeps g0) as (_ & C2 & _ & _ & _ & _ & _ & _ & _ & C10).
    rewrite C2, C10. auto.
Qed.

Lemma scoring_update_keeps_running_witness :
  reachable rnd_feed g_score4
  /\ running g_score4 = true
  /\ handle_event 1 rnd_feed 0 GAME_UPDATE g_score4
     = Ok (the_session (session 1 rnd_feed (repeat GAME_UPDATE 5)))
  /\ score (the_session (session 1 rnd_feed (repeat GAME_UPDATE 5)))
     = score g_score4 + 1
  /\ running (the_session (session 1 rnd_feed (repeat GAME_UPDATE 5))) = true.
Proof.
  split; [exact g_score4_reachable|]. split; [reflexivity|].
  split; [vm_compute; reflexivity|]. split; [reflexivity|].
  refine (proj1 (scoring_update_keeps_running rnd_feed 1 0%Q g_score4
                   (the_session (session 1 rnd_feed (repeat GAME_UPDATE 5)))
                   g_score4_reachable eq_refl _) _).
  - vm_compute. reflexivity.
  - reflexivity.
Defined.

(** ** The board bounds the score *)

Lemma in_py_range_pos (a b s i : Z) :
  0 < s ->
  In i (py_range a b s) <-> exists k, 0 <= k /\ i = a + k * s /\ i < b.
Proof.
  intros Hs. unfold py_range, py_range_len.
  replace (0 <? s) with true by (symmetry; now apply Z.ltb_lt).
  rewrite in_map_iff. split.
  - intros (k & Hi & Hk). apply in_seq in Hk.
    exists (Z.of_nat k). split; [lia|]. split; [now rewrite Hi|].
    destruct (a <? b) eqn:E; [|cbn in Hk; lia].
    apply Z.ltb_lt in E.
    assert (Z.of_nat k < (b - a + s - 1) / s) as Hlt by lia.
    pose proof (Z.mul_div_le (b - a + s - 1) s Hs) as Hq.
    subst i. nia.
  - intros (k & Hk & Hi & Hlt).
    assert (a < b) as Hab by nia.
    replace (a <? b) with true by (symmetry; now apply Z.ltb_lt).
    exists (Z.to_nat k). split; [rewrite Z2Nat.id by exact Hk; now rewrite Hi|].
    apply in_seq. split; [lia|]. cbn [Nat.add].
    apply Z2Nat.inj_lt; [exact Hk | |].
    + apply Z.div_pos; lia.
    + assert (k + 1 <= (b - a + s - 1) / s) as Hq
        by (apply Z.div_le_lower_bound; [exact Hs | nia]).
      lia.
Qed.

Lemma in_all_cells (r : Rect) : grid_cell r -> In r all_cells.
Proof.
  intros (Ha & H1 & H2 & H3 & H4).
  apply aligned_unit_coords in Ha.
  destruct Ha as (Hw & Hh & (i & Hx) & (j & Hy)).
  unfold rect_left, rect_right, rect_top, rect_bottom, BORDER_SIZE,
    SCREEN_WIDTH, SCREEN_HEIGHT in *.
  rewrite Hw in H2. rewrite Hh in H4.
  unfold all_cells. apply in_flat_map. exists i. split.
  - apply in_py_range_pos; [lia|]. exists (i - min_x).
    rewrite min_x_val, max_x_val. lia.
  - apply in_map_iff. exists j. split.
    + destruct r as [x y w h]. cbn [rect_x rect_y rect_w rect_h] in *.
      unfold cell, UNIT_SIZE. f_equal; lia.
    + apply in_py_range_pos; [lia|]. exists (j - min_y).
      rewrite min_y_val, max_y_val. lia.
Qed.

Lemma all_cells_length : length all_cells = 1064%nat.
Proof. vm_compute. reflexivity. Qed.

(** While the session runs, the snake and the food lie on distinct cells of
    a board of 1064 cells. *)
Lemma running_score_bound {Pixels : Type} (g : @Game Pixels) :
  session_inv g -> body_inv g -> running g = true -> score g <= 1060.
Proof.
  intros Hinv (head & body & Hs & Hcells & Hnd & Hrn & _) Hrun.
  destruct (running_snake_cells g head body Hinv Hrun Hs Hcells Hnd Hrn)
    as [Hc Hn].
  destruct Hinv as (_ & _ & (f & Hf & Hfc & Hoff) & Hlen & _).
  rewrite <- Hs in Hc, Hn.
  assert (NoDup (f :: snake g)) as Hnf.
  { constructor; [|exact Hn]. intros Hin.
    specialize (Hoff f Hin).
    rewrite aligned_collide_self in Hoff by apply Hfc. discriminate. }
  assert (incl (f :: snake g) all_cells) as Hincl.
  { intros r [<-|Hin]; apply in_all_cells; [exact Hfc|].
    rewrite Forall_forall in Hc. now apply Hc. }
  pose proof (NoDup_incl_length Hnf Hincl) as Hle.
  rewrite all_cells_length in Hle. cbn [length] in Hle. lia.
Qed.

Lemma over_step_score {Pixels : Type} fuel rnd now ev (g g' : @Game Pixels) :
  session_inv g ->
  handle_event fuel rnd now ev g = Ok g' ->
  running g' = false ->
  score g' = score g.
Proof.
  intros Hinv H Hover.
  destruct ev as [|[| | | | |]| |]; cbn [handle_event] in H.
  - inversion H; now subst.
  - inversion H. now destruct (negb _).
  - inversion H. now destruct (negb _).
  - inversion H. now destruct (negb _).
  - inversion H. now destruct (negb _).
  - destruct (negb (running g)).
    + apply start_game_restarted in H. destruct H as (k & _ & -> & _).
      discriminate.
    + inversion H; now subst.
  - inversion H; now subst.
  - destruct (running g) eqn:Hrun.
    + destruct (tick_ok_inv _ _ _ _ H) as (head & body & f & Hs & Hf).
      pose proof (tick_score_index _ _ _ _ _ _ _ Hs Hf H) as Hsc.
      destruct (colliderect (new_head_pos (direction g) head) f) eqn:Hc.
      * rewrite (eating_tick_keeps_running _ _ _ _ _ _ _
                   Hinv Hrun Hs Hf H Hc) in Hover.
        discriminate.
      * apply Hsc.
    + inversion H; now subst.
  - inversion H; now subst.
Qed.

(** X5. The score of a reachable session never exceeds 1060: the board has
    38 x 28 = 1064 cells, and a running snake of [score + 3] segments and
    the food occupy distinct cells of it. *)
Theorem score_at_most_1060 {Pixels : Type} rnd (g : @Game Pixels) :
  reachable rnd g -> 0 <= score g <= 1060.
Proof.
  intros Hr. split.
  { apply reachable_session_inv in Hr.
    destruct Hr as (_ & _ & _ & _ & Hsc & _). lia. }
  induction Hr as [fuel now g H | fuel now ev g g' Hr IH H | content g Hr IH].
  - apply running_score_bound.
    + eapply init_session_inv; eassumption.
    + eapply reachable_body_inv. eapply reach_init; eassumption.
    + unfold init in H.
      change (py_index crt_styles 0) with (Ok style_green) in H.
      cbn [bind] in H.
      apply start_game_restarted in H. destruct H as (k & _ & -> & _).
      reflexivity.
  - pose proof (reachable_session_inv _ _ Hr) as Hinv.
    destruct (running g') eqn:Hrun'.
    + apply running_score_bound; [| |exact Hrun'].
      * eapply handle_event_session_inv; eassumption.
      * eapply handle_event_body_inv; try eassumption.
        now apply reachable_body_inv in Hr.
    + rewrite (over_step_score _ _ _ _ _ _ Hinv H Hrun'). exact IH.
  - destruct (draw_keeps content g) as (_ & _ & _ & _ & -> & _). exact IH.
Qed.

Lemma score_at_most_1060_witness :
  reachable rnd_feed g_over /\ 0 <= score g_over <= 1060.
Proof.
  split; [exact g_over_reachable|].
  apply (score_at_most_1060 rnd_feed g_over).
  exact g_over_reachable.
Defined.

(** ** A full board *)

Lemma candidate_is_cell (rnd : nat -> Z) (pos : nat) :
  exists cx cy,
    min_x <= cx <= max_x /\ min_y <= cy <= max_y
    /\ candidate rnd pos = cell cx cy.
Proof.
  exists (randint rnd pos min_x max_x), (randint rnd (S pos) min_y max_y).
  split; [apply randint_range; rewrite min_x_val, max_x_val; lia|].
  split; [apply randint_range; rewrite min_y_val, max_y_val; lia|].
  reflexivity.
Qed.

(** X6. When no cell of the board is free of snake segments, [new_food]
    does not return, whatever the fuel and whatever the random source
    draws: every candidate is rejected. *)
Theorem new_food_never_returns_on_full_board {Pixels : Type}
  (g : @Game Pixels) :
  ~ free_cell_exists (snake g) ->
  forall fuel rnd, new_food fuel rnd g = Diverge.
Proof.
  intros Hfull fuel rnd. apply new_food_all_busy. intros j _.
  destruct (candidate_is_cell rnd (random_pos g + 2 * j))
    as (cx & cy & Hx & Hy & ->).
  destruct (on_snake (snake g) (cell cx cy)) eqn:E; [reflexivity|].
  exfalso. apply Hfull. now exists cx, cy.
Qed.

Lemma all_cells_full : ~ free_cell_exists all_cells.
Proof.
  intros (cx & cy & Hx & Hy & Hfree).
  rewrite min_x_val, max_x_val in Hx. rewrite min_y_val, max_y_val in Hy.
  assert (grid_cell (cell cx cy)) as Hc.
  { unfold grid_cell, aligned_unit, cell, rect_left, rect_right, rect_top,
      rect_bottom, UNIT_SIZE, BORDER_SIZE, SCREEN_WIDTH, SCREEN_HEIGHT.
    cbn [rect_x rect_y rect_w rect_h].
    repeat split; try lia.
    - replace (cx * 20 - 20) with ((cx - 1) * 20) by lia. apply Z_mod_mult.
    - replace (cy * 20 - 20) with ((cy - 1) * 20) by lia. apply Z_mod_mult. }
  rewrite on_snake_false in Hfree.
  specialize (Hfree (cell cx cy) (in_all_cells _ Hc)).
  rewrite aligned_collide_self in Hfree by apply Hc. discriminate.
Qed.

Lemma new_food_never_returns_on_full_board_witness :
  ~ free_cell_exists (snake g_full)
  /\ forall fuel rnd, new_food fuel rnd g_full = Diverge.
Proof.
  split; [exact all_cells_full|].
  apply (new_food_never_returns_on_full_board g_full).
  exact all_cells_full.
Defined.

(** ** After the game is over *)

Lemma over_step {Pixels : Type} fuel rnd now ev (g : @Game Pixels) :
  running g = false -> ev <> KEYDOWN K_SPACE ->
  exists g',
    handle_event fuel rnd now ev g = Ok g'
    /\ g' = set_direction (direction g') g.
Proof.
  intros Hrun Hev.
  assert (forall d, exists g',
            handle_event fuel rnd now (KEYDOWN (key_of d)) g = Ok g'
            /\ g' = set_direction (direction g') g) as Hkey.
  { intros d. rewrite handle_direction_key. eexists. split; [reflexivity|].
    destruct (Direction_eqb d (opposite (direction g)));
      [now rewrite set_direction_same | reflexivity]. }
  destruct ev as [|[| | | | |]| |]; cbn [handle_event];
    try (exists g; split; [reflexivity | now rewrite set_direction_same]).
  - apply (Hkey L).
  - apply (Hkey R).
  - apply (Hkey U).
  - apply (Hkey D).
  - congruence.
  - rewrite Hrun. exists g. split; [reflexivity | now rewrite set_direction_same].
Qed.

Lemma over_events {Pixels : Type} fuel rnd evs :
  forall (g : @Game Pixels),
    running g = false ->
    Forall (fun p => fst p <> KEYDOWN K_SPACE) evs ->
    exists g',
      handle_events fuel rnd evs g = Ok g'
      /\ g' = set_direction (direction g') g.
Proof.
  induction evs as [|[ev now] evs IH]; intros g Hrun Hno.
  - exists g. split; [reflexivity | now rewrite set_direction_same].
  - inversion Hno as [|? ? Hev Hrest]; subst. cbn [fst] in Hev.
    destruct (over_step fuel rnd now ev g Hrun Hev) as (g1 & H1 & E1).
    assert (running g1 = false) as Hrun1 by (rewrite E1; exact Hrun).
    destruct (IH g1 Hrun1 Hrest) as (g' & H' & E').
    exists g'. cbn [handle_events]. rewrite H1. cbn [bind].
    split; [exact H'|]. rewrite E' at 1. rewrite E1. reflexivity.
Qed.

(** X7. Once a session is over it stays as it is through any number of
    iterations of the main loop that do not contain the restart key: [run]
    returns (it never waits for [new_food]), and snake, food, score, high
    score, style, start time and the running flag are what they were.
    Only the direction, the frame history and the position in the random
    source may differ. *)
Theorem game_over_stays_frozen {Pixels : Type} fuel rnd iterations :
  forall (g : @Game Pixels),
    running g = false ->
    no_restart iterations ->
    exists g',
      run_loop fuel rnd iterations g = Ok g'
      /\ same_play g g' /\ running g' = false.
Proof.
  induction iterations as [|[evs content] rest IH]; intros g Hrun Hno.
  - exists g. split; [reflexivity|]. split; [|exact Hrun].
    unfold same_play. repeat split.
  - inversion Hno as [|? ? Hevs Hrest]; subst. cbn [fst] in Hevs.
    destruct (over_events fuel rnd evs g Hrun Hevs) as (g1 & H1 & E1).
    cbn [run_loop]. rewrite H1. cbn [bind].
    set (g2 := fst (draw content g1)).
    destruct (draw_keeps content g1)
      as (D1 & D2 & _ & D4 & D5 & D6 & D7 & D8 & D9).
    fold g2 in D1, D2, D4, D5, D6, D7, D8, D9.
    assert (same_play g g2) as Hsame.
    { unfold same_play.
      rewrite D1, D2, D4, D5, D6, D7, D8, D9, E1. repeat split. }
    assert (running g2 = false) as Hrun2
      by (destruct Hsame as (_ & _ & -> & _); exact Hrun).
    destruct (existsb is_quit (map fst evs)).
    + exists g2. auto.
    + destruct (IH g2 Hrun2 Hrest) as (g' & H' & Hsame' & Hrun').
      exists g'. split; [exact H'|]. split; [|exact Hrun'].
      unfold same_play in *.
      destruct Hsame as (A1 & A2 & A3 & A4 & A5 & A6 & A7 & A8).
      destruct Hsame' as (B1 & B2 & B3 & B4 & B5 & B6 & B7 & B8).
      repeat split; congruence.
Qed.

Lemma game_over_stays_frozen_witness :
  running g_over = false
  /\ no_restart [([(GAME_UPDATE, 0%Q); (KEYDOWN K_LEFT, 0%Q)], 1%nat);
                 ([(GAME_UPDATE, 1%Q)], 2%nat)]
  /\ exists g',
       run_loop 0 rnd_feed
         [([(GAME_UPDATE, 0%Q); (KEYDOWN K_LEFT, 0%Q)], 1%nat);
          ([(GAME_UPDATE, 1%Q)], 2%nat)] g_over = Ok g'
       /\ same_play g_over g' /\ running g' = false.
Proof.
  assert (no_restart [([(GAME_UPDATE, 0%Q); (KEYDOWN K_LEFT, 0%Q)], 1%nat);
                      ([(GAME_UPDATE, 1%Q)], 2%nat)]) as Hno
    by (repeat constructor; discriminate).
  split; [reflexivity|]. split; [exact Hno|].
  apply (game_over_stays_frozen 0 rnd_feed _ g_over); [reflexivity | exact Hno].
Defined.

(** ** The high score *)

Lemma handle_event_high_score {Pixels : Type} fuel rnd now ev
  (g g' : @Game Pixels) :
  handle_event fuel rnd now ev g = Ok g' -> high_score g <= high_score g'.
Proof.
  intros H.
  destruct ev as [|[| | | | |]| |]; cbn [handle_event] in H.
  - inversion H; subst; lia.
  - inversion H. destruct (negb _); cbn; lia.
  - inversion H. destruct (negb _); cbn; lia.
  - inversion H. destruct (negb _); cbn; lia.
  - inversion H. destruct (negb _); cbn; lia.
  - destruct (negb (running g)).
    + apply start_game_restarted in H. destruct H as (k & _ & -> & _).
      cbn. lia.
    + inversion H; subst; lia.
  - inversion H; subst; lia.
  - destruct (running g).
    + destruct (tick_ok_inv _ _ _ _ H) as (head & body & f & Hs & Hf).
      pose proof (tick_score_index _ _ _ _ _ _ _ Hs Hf H) as Hsc.
      destruct (colliderect _ f); destruct Hsc as (_ & Hh & _); lia.
    + inversion H; subst; lia.
  - inversion H; subst; lia.
Qed.

Lemma handle_events_high_score {Pixels : Type} fuel rnd evs :
  forall (g g' : @Game Pixels),
    handle_events fuel rnd evs g = Ok g' -> high_score g <= high_score g'.
Proof.
  induction evs as [|[ev now] evs IH]; intros g g' H; cbn [handle_events] in H.
  - inversion H; subst; lia.
  - destruct (handle_event fuel rnd now ev g) as [g1| |] eqn:E;
      cbn [bind] in H; try discriminate.
    apply handle_event_high_score in E. apply IH in H. lia.
Qed.

(** X8. The high score never decreases: whatever events and frames [run]
    goes through (updates, keys, restarts), the high score of the session
    it returns is at least the one it started from. *)
Theorem high_score_never_decreases {Pixels : Type} fuel rnd iterations :
  forall (g g' : @Game Pixels),
    run_loop fuel rnd iterations g = Ok g' ->
    high_score g <= high_score g'.
Proof.
  induction iterations as [|[evs content] rest IH]; intros g g' H;
    cbn [run_loop] in H.
  - inversion H; subst; lia.
  - destruct (handle_events fuel rnd evs g) as [g1| |] eqn:E;
      cbn [bind] in H; try discriminate.
    apply handle_events_high_score in E.
    destruct (draw_keeps content g1) as (_ & _ & _ & _ & _ & D6 & _).
    destruct (existsb is_quit (map fst evs)).
    + assert (g' = fst (draw content g1)) as -> by congruence.
      rewrite D6. exact E.
    + apply IH in H. rewrite D6 in H. lia.
Qed.

Lemma high_score_never_decreases_witness :
  run_loop 1 rnd_feed
    [([(KEYDOWN K_SPACE, 3%Q); (GAME_UPDATE, 3%Q)], 1%nat)] g_over
  = Ok (fst (draw 1%nat
               (the_session
                  (handle_events 1 rnd_feed
                     [(KEYDOWN K_SPACE, 3%Q); (GAME_UPDATE, 3%Q)] g_over))))
  /\ score (fst (draw 1%nat
               (the_session
                  (handle_events 1 rnd_feed
                     [(KEYDOWN K_SPACE, 3%Q); (GAME_UPDATE, 3%Q)] g_over))))
     = 0
  /\ high_score g_over
     <= high_score
          (fst (draw 1%nat
               (the_session
                  (handle_events 1 rnd_feed
                     [(KEYDOWN K_SPACE, 3%Q); (GAME_UPDATE, 3%Q)] g_over)))).
Proof.
  split; [vm_compute; reflexivity|]. split; [vm_compute; reflexivity|].
  apply (high_score_never_decreases 1 rnd_feed
           [([(KEYDOWN K_SPACE, 3%Q); (GAME_UPDATE, 3%Q)], 1%nat)] g_over).
  vm_compute. reflexivity.
Defined.

(** ** Exceptions *)

Lemma handle_event_no_raise {Pixels : Type} fuel rnd now ev
  (g : @Game Pixels) e :
  session_inv g -> handle_event fuel rnd now ev g <> Raise e.
Proof.
  intros (Hne & _ & (f & Hf & _) & _).
  destruct ev as [|[| | | | |]| |]; cbn [handle_event]; try discriminate.
  - destruct (negb (running g)); [|discriminate].
    unfold start_game.
    cbn [current_style_index set_current_style_index].
    change (py_index crt_styles 0) with (Ok style_green). cbn [bind].
    destruct (new_food fuel rnd _) as [g1|e1|] eqn:E; cbn [bind];
      try discriminate.
    now apply new_food_no_raise in E.
  - destruct (running g); [|discriminate].
    destruct (snake g) as [|head body] eqn:Hs; [congruence|].
    destruct (colliderect (new_head_pos (direction g) head) f) eqn:Hc.
    + rewrite (tick_hit _ _ _ _ _ _ Hs Hf Hc).
      destruct (new_food fuel rnd _) as [g1|e1|] eqn:E; cbn [bind];
        try discriminate.
      now apply new_food_no_raise in E.
    + rewrite (tick_miss _ _ _ _ _ _ Hs Hf Hc). discriminate.
Qed.

Lemma handle_events_no_raise {Pixels : Type} fuel rnd evs :
  forall (g : @Game Pixels) e,
    reachable rnd g -> handle_events fuel rnd evs g <> Raise e.
Proof.
  induction evs as [|[ev now] evs IH]; intros g e Hr; cbn [handle_events].
  - discriminate.
  - destruct (handle_event fuel rnd now ev g) as [g1|e1|] eqn:E; cbn [bind].
    + apply IH. eapply reach_event; eassumption.
    + exfalso. eapply handle_event_no_raise; [|exact E].
      now apply reachable_session_inv in Hr.
    + discriminate.
Qed.

(** X9. From a reachable session [run] never raises: every index into the
    snake or the style list is in range and the food is never [None]. The
    only way an event fails to be handled is [new_food] still looking for a
    free cell. *)
Theorem run_never_raises {Pixels : Type} rnd (g : @Game Pixels) :
  reachable rnd g ->
  forall fuel iterations e, run_loop fuel rnd iterations g <> Raise e.
Proof.
  intros Hr fuel iterations. revert g Hr.
  induction iterations as [|[evs content] rest IH]; intros g Hr e;
    cbn [run_loop].
  - discriminate.
  - destruct (handle_events fuel rnd evs g) as [g1|e1|] eqn:E; cbn [bind].
    + destruct (existsb is_quit (map fst evs)); [discriminate|].
      apply IH. apply reach_draw.
      eapply handle_events_reachable; eassumption.
    + exfalso. eapply handle_events_no_raise; eassumption.
    + discriminate.
Qed.

Lemma run_never_raises_witness :
  reachable rnd_feed g_score4
  /\ forall fuel iterations e,
       run_loop fuel rnd_feed iterations g_score4 <> Raise e.
Proof.
  split; [exact g_score4_reachable|].
  apply (run_never_raises rnd_feed g_score4).
  exact g_score4_reachable.
Defined.

(** X10. A game update on a running session without a snake raises
    IndexError (the head is read first), and one with a snake but no food
    rectangle raises TypeError; neither changes with the fuel or the
    draws. *)
Theorem update_raises_without_snake_or_food {Pixels : Type} fuel rnd now
  (g : @Game Pixels) :
  running g = true ->
  snake g = [] \/ food g = None ->
  handle_event fuel rnd now GAME_UPDATE g
  = Raise (match snake g with [] => IndexError | _ :: _ => TypeError end).
Proof.
  intros Hrun Hbad. cbn [handle_event]. rewrite Hrun.
  unfold tick, move, food_rect.
  destruct (snake g) as [|head body] eqn:Hs.
  - reflexivity.
  - destruct Hbad as [Hbad | Hbad]; [discriminate|].
    rewrite py_index_0_cons. cbn [bind food set_snake]. rewrite Hbad.
    reflexivity.
Qed.

Lemma update_raises_without_snake_or_food_witness :
  handle_event 3 rnd_feed 0 GAME_UPDATE
    (set_running true (constructed style_green : @Game nat))
  = Raise IndexError
  /\ handle_event 3 rnd_feed 0 GAME_UPDATE
       (set_food None g_start)
     = Raise TypeError.
Proof.
  split.
  - apply (update_raises_without_snake_or_food 3 rnd_feed 0%Q
             (set_running true (constructed style_green : @Game nat)));
      [reflexivity | left; reflexivity].
  - apply (update_raises_without_snake_or_food 3 rnd_feed 0%Q
             (set_food None g_start));
      [reflexivity | right; reflexivity].
Defined.

(** ** Two keys between two updates *)

Lemma new_head_pos_back (d : Direction) (r : Rect) :
  new_head_pos (opposite d) (new_head_pos d r) = r.
Proof.
  destruct r as [x y w h].
  destruct d; unfold new_head_pos, rect_move, opposite, UNIT_SIZE;
    cbn [rect_x rect_y rect_w rect_h]; f_equal; lia.
Qed.

Lemma opposite_inj (d d' : Direction) : opposite d = opposite d' -> d = d'.
Proof. destruct d, d'; intros H; (reflexivity || discriminate). Qed.

Lemma tick_direction {Pixels : Type} fuel rnd (g g' : @Game Pixels) :
  tick fuel rnd g = Ok g' -> direction g' = direction g.
Proof.
  intros H.
  destruct (tick_ok_inv _ _ _ _ H) as (head & body & f & Hs & Hf).
  destruct (colliderect (new_head_pos (direction g) head) f) eqn:Hc.
  - rewrite (tick_hit _ _ _ _ _ _ Hs Hf Hc) in H.
    destruct (new_food fuel rnd _) as [g1| |] eqn:E; cbn [bind] in H;
      try discriminate.
    assert (g' = crashed g1) as -> by congruence.
    destruct (crashed_keeps g1) as (_ & _ & -> & _).
    apply new_food_inv in E. destruct E as (k & _ & -> & _).
    cbn [direction placed set_random_pos set_food].
    destruct (scored_keeps (set_snake (new_head_pos (direction g) head
                                         :: head :: body) g))
      as (_ & _ & -> & _).
    reflexivity.
  - rewrite (tick_miss _ _ _ _ _ _ Hs Hf Hc) in H.
    set (g0 := set_snake (new_head_pos (direction g) head
                            :: removelast (head :: body)) g) in *.
    assert (g' = crashed g0) as -> by congruence.
    destruct (crashed_keeps g0) as (_ & _ & -> & _). reflexivity.
Qed.

Lemma body_has_two {A : Type} (head : A) (body : list A) (s : Z) :
  Z.of_nat (length (head :: body)) = s + 3 -> 0 <= s ->
  exists b1 b2 body', body = b1 :: b2 :: body'.
Proof.
  intros Hlen Hs. destruct body as [|b1 [|b2 body']]; cbn [length] in Hlen;
    try lia.
  now exists b1, b2, body'.
Qed.



(** ** Style, food and frame history of reachable sessions *)

(** X12. In every reachable session the style in use is determined by the
    score alone: the style index is [(score // 5) % 3] and [current_style]
    is the entry of [crt_styles] at that index. *)
Theorem style_follows_score {Pixels : Type} rnd (g : @Game Pixels) :
  reachable rnd g ->
  current_style_index g = (score g / STYLE_CHANGE_SCORE_INTERVAL) mod 3
  /\ 0 <= current_style_index g < Z.of_nat (length crt_styles)
  /\ current_style g
     = nth (Z.to_nat ((score g / STYLE_CHANGE_SCORE_INTERVAL) mod 3))
         crt_styles style_green.
Proof.
  intros Hr. apply reachable_session_inv in Hr.
  destruct Hr as (_ & _ & _ & _ & _ & Hidx & Hsty & _).
  assert (0 <= current_style_index g < 3) as Hrange
    by (rewrite Hidx; apply Z.mod_pos_bound; lia).
  split; [exact Hidx|]. split; [exact Hrange|].
  rewrite py_index_crt_styles in Hsty by exact Hrange.
  rewrite <- Hidx. congruence.
Qed.

Lemma style_follows_score_witness :
  reachable rnd_feed g_over
  /\ score g_over = 5
  /\ current_style g_over = style_amber.
Proof.
  split; [exact g_over_reachable|]. split; [reflexivity|].
  destruct (style_follows_score rnd_feed g_over g_over_reachable)
    as (_ & _ & ->).
  reflexivity.
Defined.

(** X13. In every reachable session, not only right after [new_food], the
    food is a cell of the playable grid that lies under no segment of the
    snake: no segment collides with it in either order of the test, and it
    differs from every segment. *)
Theorem food_is_always_off_the_snake {Pixels : Type} rnd (g : @Game Pixels) :
  reachable rnd g ->
  exists f,
    food g = Some f
    /\ grid_cell f
    /\ forall segment,
         In segment (snake g) ->
         colliderect segment f = false
         /\ colliderect f segment = false
         /\ segment <> f.
Proof.
  intros Hr. apply reachable_session_inv in Hr.
  destruct Hr as (_ & Hal & (f & Hf & Hcell & Hoff) & _).
  exists f. split; [exact Hf|]. split; [exact Hcell|].
  intros s Hin. specialize (Hoff s Hin).
  assert (s <> f) as Hne.
  { intros ->. rewrite aligned_collide_self in Hoff by apply Hcell.
    discriminate. }
  split; [exact Hoff|]. split; [|exact Hne].
  apply distinct_cells_do_not_collide; [apply Hcell | | congruence].
  rewrite Forall_forall in Hal. now apply Hal.
Qed.

Lemma food_is_always_off_the_snake_witness :
  reachable (rnd_of_list []) g_left_edge
  /\ exists f,
       food g_left_edge = Some f
       /\ grid_cell f
       /\ forall segment,
            In segment (snake g_left_edge) ->
            colliderect segment f = false
            /\ colliderect f segment = false
            /\ segment <> f.
Proof.
  split; [exact g_left_edge_reachable|].
  apply (food_is_always_off_the_snake (rnd_of_list []) g_left_edge).
  exact g_left_edge_reachable.
Defined.

(** X14. The frame history of a reachable session never holds more than
    five frames, and each [draw] makes it one frame longer until it holds
    five and keeps it at five from then on. *)
Theorem frame_history_is_bounded {Pixels : Type} rnd (g : @Game Pixels) :
  reachable rnd g ->
  Z.of_nat (length (ghosting_frames g)) <= max_ghosting_frames
  /\ forall content,
       length (ghosting_frames (fst (draw content g)))
       = Nat.min 5 (S (length (ghosting_frames g))).
Proof.
  intros Hr. apply reachable_session_inv in Hr.
  destruct Hr as (_ & _ & _ & _ & _ & _ & _ & Hfr).
  split; [exact Hfr|]. intros content.
  destruct (draw_history content g) as [-> _].
  rewrite fade_length, length_app. cbn [length].
  unfold max_ghosting_frames in *.
  destruct (5 <? Z.of_nat (length (ghosting_frames g) + 1)) eqn:E.
  - apply Z.ltb_lt in E.
    destruct (ghosting_frames g) as [|f fr]; cbn [app tl length] in *;
      [lia|].
    rewrite length_app. cbn [length]. lia.
  - apply Z.ltb_ge in E. rewrite length_app. cbn [length]. lia.
Qed.

Lemma frame_history_is_bounded_witness :
  reachable (rnd_of_list []) (fst (draw 5%nat g_four_frames))
  /\ Z.of_nat (length (ghosting_frames (fst (draw 5%nat g_four_frames))))
     <= max_ghosting_frames
  /\ length (ghosting_frames
               (fst (draw 6%nat (fst (draw 5%nat g_four_frames)))))
     = Nat.min 5 (S (length (ghosting_frames
                               (fst (draw 5%nat g_four_frames))))).
Proof.
  assert (reachable (rnd_of_list []) (fst (draw 5%nat g_four_frames))) as Hr
    by (apply reach_draw; exact g_four_frames_reachable).
  split; [exact Hr|].
  destruct (frame_history_is_bounded (rnd_of_list []) _ Hr) as [H1 H2].
  split; [exact H1 | exact (H2 6%nat)].
Defined.

(** * Filling the board *)

(** ** The closed tour *)

Lemma Rect_eqb_eq (a b : Rect) : Rect_eqb a b = true -> a = b.
Proof.
  destruct a as [ax ay aw ah], b as [bx by' bw bh]. unfold Rect_eqb. cbn [rect_x rect_y rect_w rect_h].
  rewrite !andb_true_iff, !Z.eqb_eq. intros [[[-> ->] ->] ->]. reflexivity.
Qed.

Lemma grid_cellb_grid_cell (r : Rect) : grid_cellb r = true -> grid_cell r.
Proof.
  unfold grid_cellb, grid_cell, aligned_unit.
  rewrite !andb_true_iff, !Z.eqb_eq, !Z.leb_le. tauto.
Qed.

Lemma tour_length_val : tour_length = 1064.
Proof. reflexivity. Qed.

Lemma tour_checked : forallb tour_check (seq 0 1064) = true.
Proof. vm_compute. reflexivity. Qed.

Lemma tour_index_checked : forallb tour_index_check all_cells = true.
Proof. vm_compute. reflexivity. Qed.

Lemma tour_cell_facts (p : Z) :
  0 <= p < tour_length ->
  grid_cell (tour_cell p)
  /\ tour_index (tour_cell p) = p
  /\ new_head_pos (steer (tour_cell p)) (tour_cell p)
     = tour_cell ((p + 1) mod tour_length)
  /\ steer (tour_cell ((p + 1) mod tour_length))
     <> opposite (steer (tour_cell p)).
Proof.
  intros Hp. rewrite tour_length_val in Hp.
  pose proof tour_checked as H. rewrite forallb_forall in H.
  assert (In (Z.to_nat p) (seq 0 1064)) as Hin by (apply in_seq; lia).
  apply H in Hin. cbv beta zeta delta [tour_check] in Hin.
  rewrite Z2Nat.id in Hin by lia.
  rewrite !andb_true_iff in Hin. destruct Hin as [[[H1 H2] H3] H4].
  split; [now apply grid_cellb_grid_cell|].
  split; [now apply Z.eqb_eq|].
  split; [now apply Rect_eqb_eq|].
  intros E. apply negb_true_iff in H4.
  apply Direction_eqb_eq in E. congruence.
Qed.

Lemma tour_index_facts (r : Rect) :
  grid_cell r ->
  0 <= tour_index r < tour_length /\ tour_cell (tour_index r) = r.
Proof.
  intros Hr. apply in_all_cells in Hr.
  pose proof tour_index_checked as H. rewrite forallb_forall in H.
  apply H in Hr. unfold tour_index_check in Hr.
  rewrite !andb_true_iff, Z.leb_le, Z.ltb_lt in Hr.
  destruct Hr as [[H1 H2] H3]. apply Rect_eqb_eq in H3. auto.
Qed.

Lemma tour_cell_inj (p q : Z) :
  0 <= p < tour_length -> 0 <= q < tour_length ->
  tour_cell p = tour_cell q -> p = q.
Proof.
  intros Hp Hq E.
  destruct (tour_cell_facts p Hp) as (_ & <- & _).
  destruct (tour_cell_facts q Hq) as (_ & <- & _).
  now rewrite E.
Qed.

Lemma mod_in_tour (a : Z) : 0 <= a mod tour_length < tour_length.
Proof. apply Z.mod_pos_bound. reflexivity. Qed.

Lemma tour_cell_mod_cell (a : Z) : grid_cell (tour_cell (a mod tour_length)).
Proof. apply tour_cell_facts, mod_in_tour. Qed.

Lemma arc_S (p : Z) (n : nat) :
  arc p (S n) = tour_cell (p mod tour_length) :: arc (p - 1) n.
Proof.
  unfold arc. cbn [seq map]. rewrite Z.sub_0_r. f_equal.
  rewrite <- seq_shift, map_map. apply map_ext. intros i.
  do 2 f_equal. lia.
Qed.

Lemma arc_step (p : Z) (n : nat) :
  arc (p + 1) (S n) = tour_cell ((p + 1) mod tour_length) :: arc p n.
Proof. rewrite arc_S. do 2 f_equal. lia. Qed.

Lemma arc_removelast (p : Z) (n : nat) : removelast (arc p (S n)) = arc p n.
Proof.
  unfold arc. rewrite seq_S, map_app. cbn [map]. apply removelast_last.
Qed.

Lemma in_arc (p : Z) (n : nat) (r : Rect) :
  In r (arc p n) <->
  exists i, (i < n)%nat /\ r = tour_cell ((p - Z.of_nat i) mod tour_length).
Proof.
  unfold arc. rewrite in_map_iff. split.
  - intros (i & <- & Hi). apply in_seq in Hi. exists i. split; [lia|reflexivity].
  - intros (i & Hi & ->). exists i. split; [reflexivity|]. apply in_seq. lia.
Qed.

Lemma arc_length (p : Z) (n : nat) : length (arc p n) = n.
Proof. unfold arc. now rewrite length_map, length_seq. Qed.

Lemma arc_aligned (p : Z) (n : nat) : Forall aligned_unit (arc p n).
Proof.
  apply Forall_forall. intros r Hr. apply in_arc in Hr.
  destruct Hr as (i & _ & ->). apply tour_cell_mod_cell.
Qed.

(** The step of the tour from the head's cell. *)
Lemma tour_next (p : Z) :
  new_head_pos (steer (tour_cell (p mod tour_length)))
    (tour_cell (p mod tour_length))
  = tour_cell ((p + 1) mod tour_length).
Proof.
  destruct (tour_cell_facts (p mod tour_length) (mod_in_tour p))
    as (_ & _ & -> & _).
  f_equal. rewrite tour_length_val.
  rewrite Zplus_mod_idemp_l. reflexivity.
Qed.

Lemma tour_no_reversal (p : Z) :
  steer (tour_cell ((p + 1) mod tour_length))
  <> opposite (steer (tour_cell (p mod tour_length))).
Proof.
  destruct (tour_cell_facts (p mod tour_length) (mod_in_tour p))
    as (_ & _ & _ & H).
  rewrite tour_length_val in *.
  rewrite Zplus_mod_idemp_l in H. exact H.
Qed.

(** The cell [k] positions ahead of the head is not under a snake of [n]
    segments as long as [n + k] does not exceed the length of the tour. *)
Lemma ahead_not_in_arc (p k : Z) (n : nat) :
  1 <= k -> k + Z.of_nat n <= tour_length ->
  ~ In (tour_cell ((p + k) mod tour_length)) (arc p n).
Proof.
  intros Hk Hn Hin. apply in_arc in Hin. destruct Hin as (i & Hi & E).
  apply tour_cell_inj in E; try apply mod_in_tour.
  rewrite tour_length_val in *.
  Z.to_euclidean_division_equations. lia.
Qed.

(** A grid cell that is not under the snake is some way ahead of its
    head. *)
Lemma food_position (p : Z) (n : nat) (f : Rect) :
  (1 <= n)%nat -> Z.of_nat n <= tour_length ->
  grid_cell f ->
  (forall s, In s (arc p n) -> colliderect s f = false) ->
  exists d, 1 <= d <= tour_length - Z.of_nat n
            /\ f = tour_cell ((p + d) mod tour_length).
Proof.
  intros Hn1 Hn Hf Hoff.
  destruct (tour_index_facts f Hf) as (Hq & Ef).
  set (q := tour_index f) in *.
  set (d := (q - p) mod tour_length).
  assert (0 <= d < tour_length) as Hd by apply mod_in_tour.
  assert ((p + d) mod tour_length = q) as Epd.
  { subst d. rewrite tour_length_val in *.
    Z.to_euclidean_division_equations. lia. }
  assert (~ In f (arc p n)) as Hnotin.
  { intros Hin. specialize (Hoff f Hin).
    rewrite aligned_collide_self in Hoff by apply Hf. discriminate. }
  exists d. split; [|now rewrite Epd].
  destruct (Z_le_gt_dec d 0) as [H0 | H0].
  - exfalso. apply Hnotin. apply in_arc. exists O. split; [lia|].
    rewrite <- Ef. f_equal. cbn [Z.of_nat]. rewrite <- Epd.
    f_equal. lia.
  - destruct (Z_le_gt_dec d (tour_length - Z.of_nat n)) as [H1 | H1];
      [lia|].
    exfalso. apply Hnotin. apply in_arc.
    exists (Z.to_nat (tour_length - d)). split; [lia|].
    rewrite <- Ef, <- Epd. f_equal.
    rewrite Z2Nat.id by lia. rewrite tour_length_val in *.
    Z.to_euclidean_division_equations. lia.
Qed.

Section Tour.

Context {Pixels : Type}.
Implicit Types g : @Game Pixels.

Lemma on_tour_draw rnd g p n d (content : Pixels) :
  on_tour rnd g p n d -> on_tour rnd (fst (draw content g)) p n d.
Proof.
  intros (Hr & Hrun & Hs & Hn & Hf & Hd & Hdir).
  destruct (draw_keeps content g) as (D1 & D2 & D3 & D4 & _).
  unfold on_tour. rewrite D1, D2, D3, D4.
  repeat split; try assumption; try lia. now apply reach_draw.
Qed.

Lemma on_tour_idle rnd (content : Pixels) fuel rest (idle : nat) :
  forall g p n d,
    on_tour rnd g p n d ->
    exists g1,
      on_tour rnd g1 p n d
      /\ run_loop fuel rnd (repeat ([], content) idle ++ rest) g
         = run_loop fuel rnd rest g1.
Proof.
  induction idle as [|idle IH]; intros g p n d Hg.
  - exists g. split; [exact Hg | reflexivity].
  - cbn [repeat app run_loop handle_events bind map existsb fst].
    apply IH. now apply on_tour_draw.
Qed.

(** One step of the player: either the update is still inside [new_food]
    when the fuel runs out, or the session is on the tour one position
    further, closer to a full board. *)
Lemma on_tour_step rnd fuel g p n d :
  on_tour rnd g p n d ->
  let evs := [(KEYDOWN (key_of (steer (tour_cell (p mod tour_length)))), 0%Q);
              (GAME_UPDATE, 0%Q)] in
  handle_events fuel rnd evs g = Diverge
  \/ exists g' n' d',
       handle_events fuel rnd evs g = Ok g'
       /\ on_tour rnd g' (p + 1) n' d'
       /\ (tour_length - 1 - Z.of_nat n') * tour_length + d'
          < (tour_length - 1 - Z.of_nat n) * tour_length + d.
Proof.
  intros (Hr & Hrun & Hs & Hn & Hf & Hd & Hdir) evs. subst evs.
  set (head := tour_cell (p mod tour_length)) in *.
  set (dir := steer head).
  set (f := tour_cell ((p + d) mod tour_length)) in *.
  cbn [handle_events].
  rewrite (other_direction_is_taken fuel rnd 0%Q g dir Hdir). cbn [bind].
  set (g1 := set_direction dir g).
  assert (reachable rnd g1) as Hr1.
  { apply (reach_event rnd fuel 0%Q (KEYDOWN (key_of dir)) g g1 Hr).
    now apply other_direction_is_taken. }
  pose proof (reachable_session_inv _ _ Hr1) as Hinv1.
  destruct n as [|n0]; [lia|].
  assert (snake g1 = head :: arc (p - 1) n0) as Hs1
    by (subst g1; cbn [snake set_direction]; rewrite Hs; apply arc_S).
  assert (food g1 = Some f) as Hf1 by exact Hf.
  assert (running g1 = true) as Hrun1 by exact Hrun.
  assert (direction g1 = dir) as Hdir1 by reflexivity.
  assert (new_head_pos (direction g1) head
          = tour_cell ((p + 1) mod tour_length)) as Hnh
    by (rewrite Hdir1; apply tour_next).
  assert (head :: arc (p - 1) n0 = arc p (S n0)) as Harc
    by (symmetry; apply arc_S).
  assert (handle_event fuel rnd 0%Q GAME_UPDATE g1 = tick fuel rnd g1) as Hup
    by (cbn [handle_event]; now rewrite Hrun1).
  rewrite Hup.
  destruct (Z.eq_dec d 1) as [Hd1 | Hd1].
  - (* the step eats *)
    assert (colliderect (new_head_pos (direction g1) head) f = true) as Hc.
    { rewrite Hnh. subst f. rewrite Hd1.
      apply aligned_collide_self, tour_cell_mod_cell. }
    destruct (tick fuel rnd g1) as [g'|e|] eqn:Ht; cbn [bind handle_events].
    + right.
      assert (reachable rnd g') as Hr'.
      { apply (reach_event rnd fuel 0%Q GAME_UPDATE g1 g' Hr1).
        now rewrite Hup. }
      pose proof (tick_snake _ _ _ _ _ _ _ Hs1 Hf1 Ht) as Hs'.
      rewrite Hc, Hnh, Harc, <- arc_step in Hs'.
      pose proof (reachable_session_inv _ _ Hr') as (_ & _ & Hfood & Hlen & _).
      destruct Hfood as (f' & Hf' & Hcell' & Hoff').
      rewrite Hs' in Hoff'.
      assert (Z.of_nat (S (S n0)) <= tour_length) as Hle by lia.
      destruct (food_position (p + 1) (S (S n0)) f' ltac:(lia) Hle Hcell' Hoff')
        as (d' & Hd' & Ef').
      exists g', (S (S n0)), d'.
      split; [reflexivity|]. split.
      * unfold on_tour. split; [exact Hr'|].
        split; [eapply eating_tick_keeps_running; eassumption|].
        split; [exact Hs'|]. split; [lia|].
        split; [now rewrite Hf', Ef'|]. split; [exact Hd'|].
        rewrite (tick_direction _ _ _ _ Ht), Hdir1.
        apply tour_no_reversal.
      * rewrite tour_length_val in *. lia.
    + exfalso. apply (handle_event_no_raise fuel rnd 0%Q GAME_UPDATE g1 e Hinv1).
      now rewrite Hup.
    + now left.
  - (* the step does not eat *)
    right.
    assert (colliderect (new_head_pos (direction g1) head) f = false) as Hc.
    { rewrite Hnh. apply distinct_cells_do_not_collide;
        try apply tour_cell_mod_cell.
      intros E. apply tour_cell_inj in E; try apply mod_in_tour.
      rewrite tour_length_val in *.
      Z.to_euclidean_division_equations. lia. }
    rewrite (tick_miss _ _ _ _ _ _ Hs1 Hf1 Hc). cbn [bind handle_events].
    set (g0 := set_snake (new_head_pos (direction g1) head
                            :: removelast (head :: arc (p - 1) n0)) g1).
    assert (tick fuel rnd g1 = Ok (crashed g0)) as Ht
      by (apply (tick_miss _ _ _ _ _ _ Hs1 Hf1 Hc)).
    assert (snake (crashed g0) = arc (p + 1) (S n0)) as Hs'.
    { destruct (crashed_keeps g0) as (-> & _).
      subst g0. cbn [snake set_snake].
      rewrite Hnh, Harc, arc_removelast. symmetry. apply arc_step. }
    exists (crashed g0), (S n0), (d - 1).
    split; [reflexivity|]. split.
    + unfold on_tour.
      split.
      { apply (reach_event rnd fuel 0%Q GAME_UPDATE g1 _ Hr1).
        now rewrite Hup. }
      split.
      { rewrite arc_step in Hs'.
        rewrite (tick_running _ _ _ _ _ _ Ht Hs'), Hrun1.
        rewrite grid_cell_inside by apply tour_cell_mod_cell.
        cbn [andb orb].
        destruct (hits_body _ _) eqn:Hhit; [exfalso | reflexivity].
        apply existsb_exists in Hhit. destruct Hhit as (s & Hin & Hcs).
        pose proof Hin as Hin'. apply in_arc in Hin'.
        destruct Hin' as (i & Hi & Es).
        apply aligned_collide_eq in Hcs;
          [| apply tour_cell_mod_cell
           | rewrite Es; apply tour_cell_mod_cell].
        apply (ahead_not_in_arc p 1 n0); [lia | lia |].
        now rewrite Hcs. }
      split; [exact Hs'|]. split; [lia|].
      split.
      { destruct (crashed_keeps g0) as (_ & -> & _).
        subst g0. cbn [food set_snake]. rewrite Hf1. subst f.
        do 3 f_equal. lia. }
      split; [lia|].
      destruct (crashed_keeps g0) as (_ & _ & -> & _).
      subst g0. cbn [direction set_snake]. rewrite Hdir1.
      apply tour_no_reversal.
    + lia.
Qed.

Lemma tour_run rnd fuel (content : Pixels) (idle : nat) :
  forall steps g p n d,
    on_tour rnd g p n d ->
    (tour_length - 1 - Z.of_nat n) * tour_length + d <= Z.of_nat steps ->
    run_loop fuel rnd
      (tour_frames content idle steps (tour_cell (p mod tour_length))) g
    = Diverge.
Proof.
  induction steps as [|steps IH]; intros g p n d Hg Hsteps.
  - destruct Hg as (_ & _ & _ & _ & _ & Hd & _).
    rewrite tour_length_val in *. lia.
  - cbn [tour_frames]. unfold tour_step. rewrite <- app_assoc.
    destruct (on_tour_idle rnd content fuel
                ([([(KEYDOWN (key_of (steer (tour_cell (p mod tour_length)))),
                     0%Q); (GAME_UPDATE, 0%Q)], content)]
                 ++ tour_frames content idle steps
                      (new_head_pos (steer (tour_cell (p mod tour_length)))
                         (tour_cell (p mod tour_length))))
                idle g p n d Hg) as (g1 & Hg1 & ->).
    cbn [app run_loop].
    destruct (on_tour_step rnd fuel g1 p n d Hg1) as [-> | (g' & n' & d' & -> & Hg' & Hless)].
    + reflexivity.
    + cbn [bind map fst existsb is_quit orb].
      rewrite tour_next. apply (IH _ (p + 1) n' d').
      * now apply on_tour_draw.
      * lia.
Qed.

End Tour.

Lemma cell_grid_cell (cx cy : Z) :
  min_x <= cx <= max_x -> min_y <= cy <= max_y -> grid_cell (cell cx cy).
Proof.
  rewrite min_x_val, max_x_val, min_y_val, max_y_val. intros Hx Hy.
  unfold grid_cell, aligned_unit, cell, rect_left, rect_right, rect_top,
    rect_bottom, UNIT_SIZE, BORDER_SIZE, SCREEN_WIDTH, SCREEN_HEIGHT.
  cbn [rect_x rect_y rect_w rect_h].
  repeat split; try lia.
  - replace (cx * 20 - 20) with ((cx - 1) * 20) by lia. apply Z_mod_mult.
  - replace (cy * 20 - 20) with ((cy - 1) * 20) by lia. apply Z_mod_mult.
Qed.

Lemma init_no_raise {Pixels : Type} fuel rnd now e :
  @init Pixels fuel rnd now <> Raise e.
Proof.
  unfold init. change (py_index crt_styles 0) with (@Ok CrtStyle style_green).
  cbn [bind]. unfold start_game.
  cbn [current_style_index set_current_style_index constructed set_snake
       set_direction set_score].
  change (py_index crt_styles 0) with (@Ok CrtStyle style_green). cbn [bind].
  destruct (new_food fuel rnd _) as [g1|e1|] eqn:E; cbn [bind];
    try discriminate.
  now apply new_food_no_raise in E.
Qed.

Lemma init_on_tour {Pixels : Type} fuel rnd (g : @Game Pixels) :
  init fuel rnd 0%Q = Ok g -> exists d, on_tour rnd g tour_start 3 d.
Proof.
  intros H. pose proof (reach_init rnd fuel 0%Q g H) as Hr.
  unfold init in H.
  change (py_index crt_styles 0) with (@Ok CrtStyle style_green) in H.
  cbn [bind] in H.
  apply start_game_restarted in H. destruct H as (k & _ & Hg & Hfree).
  set (f := candidate rnd (random_pos (constructed style_green) + 2 * k))
    in *.
  assert (initial_snake = arc tour_start 3) as Hs by reflexivity.
  rewrite on_snake_false, Hs in Hfree.
  destruct (food_position tour_start 3 f ltac:(lia)
              ltac:(rewrite tour_length_val; lia)
              (candidate_grid_cell _ _) Hfree) as (d & Hd & Ef).
  exists d. unfold on_tour.
  split; [exact Hr|]. subst g.
  cbn [running snake food direction restarted].
  split; [reflexivity|]. split; [exact Hs|]. split; [lia|].
  split; [now rewrite <- Ef|]. split; [exact Hd|].
  vm_compute. discriminate.
Qed.

(** In a reachable running session with 1063 segments the food lies on the
    one cell that is not under the snake, and the update that eats it
    never returns. *)
Lemma last_cell_update {Pixels : Type} rnd (g : @Game Pixels) :
  reachable rnd g -> running g = true ->
  Z.of_nat (length (snake g)) = tour_length - 1 ->
  exists head body f,
    snake g = head :: body
    /\ food g = Some f
    /\ (forall r, grid_cell r -> r = f \/ In r (snake g))
    /\ (colliderect (new_head_pos (direction g) head) f = true ->
        ~ free_cell_exists (new_head_pos (direction g) head :: head :: body)
        /\ forall fuel rnd' now,
             handle_event fuel rnd' now GAME_UPDATE g = Diverge).
Proof.
  intros Hr Hrun Hlen.
  pose proof (reachable_session_inv _ _ Hr) as Hinv.
  destruct (reachable_body_inv _ _ Hr)
    as (head & body & Hs & Hcells & Hnd & Hrn & _).
  destruct (running_snake_cells g head body Hinv Hrun Hs Hcells Hnd Hrn)
    as [Hc Hn].
  pose proof Hinv as (_ & Hal & (f & Hf & Hfc & Hoff) & _).
  exists head, body, f. split; [exact Hs|]. split; [exact Hf|].
  rewrite <- Hs in Hc, Hn.
  assert (NoDup (f :: snake g)) as Hnf.
  { constructor; [|exact Hn]. intros Hin.
    specialize (Hoff f Hin).
    rewrite aligned_collide_self in Hoff by apply Hfc. discriminate. }
  assert (incl (f :: snake g) all_cells) as Hincl.
  { intros r [<-|Hin]; apply in_all_cells; [exact Hfc|].
    rewrite Forall_forall in Hc. now apply Hc. }
  assert (incl all_cells (f :: snake g)) as Hall.
  { apply NoDup_length_incl; [exact Hnf | | exact Hincl].
    rewrite all_cells_length. cbn [length].
    rewrite tour_length_val in Hlen. lia. }
  assert (forall r, grid_cell r -> r = f \/ In r (snake g)) as Hfull.
  { intros r Hgr. destruct (Hall r (in_all_cells r Hgr)) as [<- | Hin];
      [now left | now right]. }
  split; [exact Hfull|].
  intros Heat.
  assert (new_head_pos (direction g) head = f) as Enh.
  { apply aligned_collide_eq; [| apply Hfc | exact Heat].
    apply new_head_pos_aligned. rewrite Hs in Hal. now inversion Hal. }
  assert (forall r, grid_cell r ->
            on_snake (new_head_pos (direction g) head :: head :: body) r
            = true) as Hbusy.
  { intros r Hgr. unfold on_snake. apply existsb_exists. exists r.
    split; [|apply aligned_collide_self, Hgr].
    rewrite Enh, <- Hs. destruct (Hfull r Hgr) as [-> | Hin];
      [now left | now right]. }
  split.
  - intros (cx & cy & Hx & Hy & Hfree).
    rewrite Hbusy in Hfree by now apply cell_grid_cell. discriminate.
  - intros fuel rnd' now. cbn [handle_event]. rewrite Hrun.
    rewrite (tick_hit _ _ _ _ _ _ Hs Hf Heat).
    rewrite new_food_all_busy; [reflexivity|].
    intros j _.
    destruct (scored_keeps (set_snake (new_head_pos (direction g) head
                                         :: head :: body) g)) as (-> & _).
    cbn [snake set_snake]. apply Hbusy, candidate_grid_cell.
Qed.



(** * Painting *)

(** ** The grid *)

Lemma vertical_line_drawn (s : CrtStyle) (x : Z) :
  In (Line (grid_color s) None (x, BORDER_SIZE)
        (x, SCREEN_HEIGHT - BORDER_SIZE) 1) (_draw_grid s)
  <-> In x (py_range BORDER_SIZE (SCREEN_WIDTH - BORDER_SIZE) UNIT_SIZE).
Proof.
  unfold _draw_grid. rewrite in_app_iff, !in_map_iff. split.
  - intros [(i & E & Hi) | (i & E & Hi)].
    + injection E as E1. subst i. exact Hi.
    + exfalso. injection E as E1 E2 E3 E4.
      unfold BORDER_SIZE, SCREEN_WIDTH in *. lia.
  - intros Hx. left. now exists x.
Qed.

Lemma horizontal_line_drawn (s : CrtStyle) (y : Z) :
  In (Line (grid_color s) None (BORDER_SIZE, y)
        (SCREEN_WIDTH - BORDER_SIZE, y) 1) (_draw_grid s)
  <-> In y (py_range BORDER_SIZE (SCREEN_HEIGHT - BORDER_SIZE) UNIT_SIZE).
Proof.
  unfold _draw_grid. rewrite in_app_iff, !in_map_iff. split.
  - intros [(i & E & Hi) | (i & E & Hi)].
    + exfalso. injection E as E1 E2 E3 E4.
      unfold BORDER_SIZE, SCREEN_WIDTH in *. lia.
    + injection E as E1. subst i. exact Hi.
  - intros Hy. right. now exists y.
Qed.

(** X15. [_draw_grid] paints 38 vertical and 28 horizontal lines, and they
    are the edges of the cells the game uses: for every cell of the
    playable grid the line along its left edge and the line along its top
    edge are painted, while the line along its right (bottom) edge is
    painted unless the cell is in the last column (row): the right and
    bottom boundaries of the playable area get no line. *)
Theorem grid_lines_are_cell_edges (s : CrtStyle) (r : Rect) :
  grid_cell r ->
  length (_draw_grid s) = 66%nat
  /\ In (Line (grid_color s) None (rect_left r, BORDER_SIZE)
           (rect_left r, SCREEN_HEIGHT - BORDER_SIZE) 1) (_draw_grid s)
  /\ In (Line (grid_color s) None (BORDER_SIZE, rect_top r)
           (SCREEN_WIDTH - BORDER_SIZE, rect_top r) 1) (_draw_grid s)
  /\ (In (Line (grid_color s) None (rect_right r, BORDER_SIZE)
            (rect_right r, SCREEN_HEIGHT - BORDER_SIZE) 1) (_draw_grid s)
      <-> rect_right r < SCREEN_WIDTH - BORDER_SIZE)
  /\ (In (Line (grid_color s) None (BORDER_SIZE, rect_bottom r)
            (SCREEN_WIDTH - BORDER_SIZE, rect_bottom r) 1) (_draw_grid s)
      <-> rect_bottom r < SCREEN_HEIGHT - BORDER_SIZE).
Proof.
  intros (Ha & H1 & H2 & H3 & H4).
  apply aligned_unit_coords in Ha.
  destruct Ha as (Hw & Hh & (i & Hx) & (j & Hy)).
  rewrite !vertical_line_drawn, !horizontal_line_drawn.
  rewrite !in_py_range_pos by reflexivity.
  unfold rect_left, rect_right, rect_top, rect_bottom, BORDER_SIZE,
    SCREEN_WIDTH, SCREEN_HEIGHT, UNIT_SIZE in *.
  rewrite Hw in *. rewrite Hh in *.
  split; [reflexivity|]. split; [|split; [|split]].
  - exists (i - 1). lia.
  - exists (j - 1). lia.
  - split; [intros (k & Hk & E & Hlt); exact Hlt|].
    intros Hlt. exists i. lia.
  - split; [intros (k & Hk & E & Hlt); exact Hlt|].
    intros Hlt. exists j. lia.
Qed.

Lemma grid_lines_are_cell_edges_witness :
  grid_cell (cell 38 28)
  /\ In (Line (grid_color style_green) None
           (rect_left (cell 38 28), BORDER_SIZE)
           (rect_left (cell 38 28), SCREEN_HEIGHT - BORDER_SIZE) 1)
       (_draw_grid style_green)
  /\ ~ In (Line (grid_color style_green) None
             (rect_right (cell 38 28), BORDER_SIZE)
             (rect_right (cell 38 28), SCREEN_HEIGHT - BORDER_SIZE) 1)
         (_draw_grid style_green).
Proof.
  assert (grid_cell (cell 38 28)) as Hc.
  { repeat split; try reflexivity; cbn; discriminate. }
  destruct (grid_lines_are_cell_edges style_green (cell 38 28) Hc)
    as (_ & H1 & _ & H3 & _).
  split; [exact Hc|]. split; [exact H1|].
  intros Hin. apply H3 in Hin. vm_compute in Hin. discriminate.
Defined.

(** ** The food *)

Lemma py_range_8_down : py_range 8 0 (-1) = [8; 7; 6; 5; 4; 3; 2; 1].
Proof. reflexivity. Qed.

Lemma py_range_6_down : py_range 6 0 (-1) = [6; 5; 4; 3; 2; 1].
Proof. reflexivity. Qed.

Lemma py_range_3_down : py_range 3 0 (-1) = [3; 2; 1].
Proof. reflexivity. Qed.

(** X16. For a unit-square food rectangle, [_draw_food] paints eight glow
    discs of radius 18 down to 11, largest first, then the food disc of
    radius 10 and the bright core of radius 6, all ten centred on the
    centre of the food. The glow disc of radius [r] has alpha
    [25 * (18 - r)]: the largest one is fully transparent (alpha 0) and
    the opacity grows towards the centre, up to 175. *)
Theorem food_glow_is_concentric (s : CrtStyle) (f : Rect) :
  rect_w f = UNIT_SIZE -> rect_h f = UNIT_SIZE ->
  exists core_color,
    _draw_food s f
    = map (fun radius =>
             Blit (2 * radius, 2 * radius)
               [Circle (food_glow_color s) (Some (25 * (18 - radius)))
                  (radius, radius) radius]
               (rect_centerx f - radius, rect_centery f - radius))
        [18; 17; 16; 15; 14; 13; 12; 11]
      ++ [ Circle (food_color s) None (rect_centerx f, rect_centery f) 10;
           Circle core_color None (rect_centerx f, rect_centery f) 6 ].
Proof.
  intros Hw Hh. unfold _draw_food, rect_centerx, rect_centery.
  rewrite py_range_8_down, Hw, Hh. unfold UNIT_SIZE.
  destruct (food_color s) as [[red green] blue].
  eexists. cbn [map app].
  change (20 / 2) with 10. change ((20 - 8) / 2) with 6.
  repeat (f_equal; try (f_equal; lia)).
Qed.

Lemma food_glow_is_concentric_witness :
  exists core_color,
    _draw_food style_amber (cell 5 7)
    = map (fun radius =>
             Blit (2 * radius, 2 * radius)
               [Circle (food_glow_color style_amber)
                  (Some (25 * (18 - radius))) (radius, radius) radius]
               (rect_centerx (cell 5 7) - radius,
                rect_centery (cell 5 7) - radius))
        [18; 17; 16; 15; 14; 13; 12; 11]
      ++ [ Circle (food_color style_amber) None
             (rect_centerx (cell 5 7), rect_centery (cell 5 7)) 10;
           Circle core_color None
             (rect_centerx (cell 5 7), rect_centery (cell 5 7)) 6 ].
Proof.
  apply (food_glow_is_concentric style_amber (cell 5 7)); reflexivity.
Defined.

(** ** The snake *)

Lemma draw_segments_after_head (s : CrtStyle) (l : list Rect) :
  forall i,
    flat_map (fun p => draw_segment s (fst p) (snd p))
      (enumerate_from (S i) l)
    = flat_map (draw_segment s 1) l.
Proof.
  induction l as [|a l IH]; intros i; cbn [enumerate_from flat_map fst snd].
  - reflexivity.
  - now rewrite IH.
Qed.

(** The head gets the first branch of the loop, every other segment the
    second. *)
Lemma draw_snake_cons (s : CrtStyle) (head : Rect) (body : list Rect) :
  _draw_snake s (head :: body)
  = draw_segment s 0 head ++ flat_map (draw_segment s 1) body.
Proof.
  unfold _draw_snake. cbn [enumerate_from flat_map fst snd].
  now rewrite draw_segments_after_head.
Qed.

Lemma grid_cell_bounds (r : Rect) :
  grid_cell r ->
  rect_w r = 20 /\ rect_h r = 20
  /\ 20 <= rect_x r /\ rect_x r <= 760 /\ 20 <= rect_y r /\ rect_y r <= 560.
Proof.
  intros ((Hw & Hh & _) & H1 & H2 & H3 & H4).
  unfold rect_left, rect_right, rect_top, rect_bottom, UNIT_SIZE,
    BORDER_SIZE, SCREEN_WIDTH, SCREEN_HEIGHT in *.
  lia.
Qed.

Ltac paint_cases H :=
  repeat (destruct H as [<- | H];
          [eexists; split; [reflexivity|];
           unfold near_playable, rect_left, rect_right, rect_top, rect_bottom,
             UNIT_SIZE, BORDER_SIZE, SCREEN_WIDTH, SCREEN_HEIGHT;
           cbn [rect_x rect_y rect_w rect_h]; lia|]);
  destruct H.

Lemma segment_paint_near (s : CrtStyle) (i : nat) (segment : Rect) (p : Paint) :
  grid_cell segment ->
  In p (draw_segment s i segment) ->
  exists r, extent p = Some r /\ near_playable 6 r.
Proof.
  intros Hc Hin. apply grid_cell_bounds in Hc.
  destruct Hc as (Hw & Hh & Hx1 & Hx2 & Hy1 & Hy2).
  destruct segment as [x y w h]. cbn [rect_x rect_y rect_w rect_h] in *.
  subst w h.
  unfold draw_segment in Hin. destruct (Nat.eqb i 0).
  - rewrite py_range_6_down in Hin.
    cbn [map app In rect_x rect_y] in Hin. paint_cases Hin.
  - rewrite py_range_3_down in Hin.
    cbn [map app In rect_x rect_y] in Hin. paint_cases Hin.
Qed.

Lemma food_paint_near (s : CrtStyle) (f : Rect) (p : Paint) :
  grid_cell f ->
  In p (_draw_food s f) ->
  exists r, extent p = Some r /\ near_playable 8 r.
Proof.
  intros Hc Hin. apply grid_cell_bounds in Hc.
  destruct Hc as (Hw & Hh & Hx1 & Hx2 & Hy1 & Hy2).
  destruct f as [x y w h]. cbn [rect_x rect_y rect_w rect_h] in *.
  subst w h.
  unfold _draw_food, rect_centerx, rect_centery in Hin.
  rewrite py_range_8_down in Hin.
  destruct (food_color s) as [[red green] blue].
  cbn [map app In rect_x rect_y rect_w rect_h] in Hin.
  unfold UNIT_SIZE in Hin.
  change (20 / 2) with 10 in Hin. change ((20 - 8) / 2) with 6 in Hin.
  paint_cases Hin.
Qed.

Lemma near_playable_weaken (m m' : Z) (r : Rect) :
  m <= m' -> near_playable m r -> near_playable m' r.
Proof.
  unfold near_playable. intros Hm (H1 & H2 & H3 & H4). lia.
Qed.

(** X17. While a reachable session is running, everything [_draw_food] and
    [_draw_snake] paint for it (glow included) covers a rectangle within 8
    pixels of the playable area, hence at least 12 pixels inside the
    screen: nothing is painted off the screen or clipped. *)
Theorem running_paint_stays_near_playable {Pixels : Type} rnd
  (g : @Game Pixels) (f : Rect) (p : Paint) :
  reachable rnd g ->
  running g = true ->
  food g = Some f ->
  In p (_draw_food (current_style g) f
        ++ _draw_snake (current_style g) (snake g)) ->
  exists r,
    extent p = Some r
    /\ near_playable 8 r
    /\ 0 <= rect_left r /\ rect_right r <= SCREEN_WIDTH
    /\ 0 <= rect_top r /\ rect_bottom r <= SCREEN_HEIGHT.
Proof.
  intros Hr Hrun Hf Hin.
  pose proof (reachable_session_inv _ _ Hr) as Hinv.
  destruct (reachable_body_inv _ _ Hr)
    as (head & body & Hs & Hcells & Hnd & Hrn & _).
  destruct (running_snake_cells g head body Hinv Hrun Hs Hcells Hnd Hrn)
    as [Hc _].
  destruct Hinv as (_ & _ & (f0 & Hf0 & Hfc & _) & _).
  assert (f0 = f) by congruence. subst f0.
  assert (exists r, extent p = Some r /\ near_playable 8 r) as (r & He & Hn).
  { apply in_app_iff in Hin. destruct Hin as [Hin | Hin].
    - eapply food_paint_near; eassumption.
    - rewrite Hs, draw_snake_cons in Hin.
      rewrite Forall_forall in Hc.
      apply in_app_iff in Hin. destruct Hin as [Hin | Hin].
      + destruct (segment_paint_near _ _ _ _ (Hc head (or_introl eq_refl)) Hin)
          as (r & He & Hn).
        exists r. split; [exact He|].
        eapply near_playable_weaken; [|exact Hn]. lia.
      + apply in_flat_map in Hin. destruct Hin as (seg & Hseg & Hin).
        destruct (segment_paint_near _ _ _ _ (Hc seg (or_intror Hseg)) Hin)
          as (r & He & Hn).
        exists r. split; [exact He|].
        eapply near_playable_weaken; [|exact Hn]. lia. }
  exists r. split; [exact He|]. split; [exact Hn|].
  unfold near_playable, BORDER_SIZE, SCREEN_WIDTH, SCREEN_HEIGHT in *. lia.
Qed.

Lemma running_paint_stays_near_playable_witness :
  reachable (rnd_of_list []) g_left_edge
  /\ running g_left_edge = true
  /\ food g_left_edge = Some (cell 1 1)
  /\ In (Blit (32, 32)
           [Box (snake_head_color style_green) (Some 0)
              (mkRect 0 0 32 32) 5] (14, 274))
       (_draw_food (current_style g_left_edge) (cell 1 1)
        ++ _draw_snake (current_style g_left_edge) (snake g_left_edge))
  /\ exists r,
       extent (Blit (32, 32)
                 [Box (snake_head_color style_green) (Some 0)
                    (mkRect 0 0 32 32) 5] (14, 274)) = Some r
       /\ near_playable 8 r
       /\ 0 <= rect_left r /\ rect_right r <= SCREEN_WIDTH
       /\ 0 <= rect_top r /\ rect_bottom r <= SCREEN_HEIGHT.
Proof.
  assert (In (Blit (32, 32)
                [Box (snake_head_color style_green) (Some 0)
                   (mkRect 0 0 32 32) 5] (14, 274))
            (_draw_food (current_style g_left_edge) (cell 1 1)
             ++ _draw_snake (current_style g_left_edge) (snake g_left_edge)))
    as Hin.
  { apply in_app_iff. right. vm_compute. left. reflexivity. }
  split; [exact g_left_edge_reachable|]. split; [reflexivity|].
  split; [reflexivity|]. split; [exact Hin|].
  apply (running_paint_stays_near_playable (rnd_of_list []) g_left_edge
           (cell 1 1) _ g_left_edge_reachable eq_refl eq_refl Hin).
Defined.

(** ** The restart prompt *)

Lemma Qfloor_unique (x : Q) (m : Z) :
  (inject_Z m <= x)%Q -> (x < inject_Z (m + 1))%Q -> Qfloor x = m.
Proof.
  intros Hle Hlt.
  pose proof (Qfloor_le x) as H1. pose proof (Qlt_floor x) as H2.
  assert (m < Qfloor x + 1) as A
    by (rewrite Zlt_Qlt; eapply Qle_lt_trans; eassumption).
  assert (Qfloor x < m + 1) as B
    by (rewrite Zlt_Qlt; eapply Qle_lt_trans; eassumption).
  lia.
Qed.

Lemma py_int_nonneg (x : Q) : (0 <= x)%Q -> py_int x = Qfloor x.
Proof.
  intros Hx. unfold py_int.
  replace (Qle_bool 0 x) with true; [reflexivity|].
  symmetry. now apply Qle_bool_iff.
Qed.

(** X18. The restart prompt of the game-over screen blinks with a period of
    one second and is on for the first half of it: for a clock reading
    [t >= 0] the test [int(t * 2) % 2 == 0] holds exactly when [t] lies in
    [n, n + 1/2) for a whole number [n], and it gives the same answer one
    second later. *)
Theorem restart_prompt_blinks (t : Q) :
  (0 <= t)%Q ->
  (restart_prompt_visible t = true
   <-> exists n : Z, (inject_Z n <= t)%Q /\ (t < inject_Z n + (1 # 2))%Q)
  /\ restart_prompt_visible (t + 1) = restart_prompt_visible t.
Proof.
  intros Ht.
  assert (0 <= t * 2)%Q as Ht2 by lra.
  assert (0 <= (t + 1) * 2)%Q as Ht3 by lra.
  unfold restart_prompt_visible.
  rewrite (py_int_nonneg _ Ht2), (py_int_nonneg _ Ht3).
  pose proof (Qfloor_le (t * 2)) as H1.
  pose proof (Qlt_floor (t * 2)) as H2.
  set (m := Qfloor (t * 2)) in *.
  rewrite inject_Z_plus in H2. change (inject_Z 1) with 1%Q in H2.
  split.
  - rewrite Z.eqb_eq. split.
    + intros Hm. exists (m / 2).
      assert (m = 2 * (m / 2)) as E
        by (pose proof (Z_div_mod_eq_full m 2); lia).
      rewrite E in H1, H2. rewrite inject_Z_mult in H1, H2.
      change (inject_Z 2) with 2%Q in H1, H2.
      split; lra.
    + intros (n & Hn1 & Hn2).
      assert (m = 2 * n) as ->.
      { apply Qfloor_unique.
        - rewrite inject_Z_mult. change (inject_Z 2) with 2%Q. lra.
        - rewrite inject_Z_plus, inject_Z_mult.
          change (inject_Z 2) with 2%Q. change (inject_Z 1) with 1%Q. lra. }
      rewrite Z.mul_comm. apply Z_mod_mult.
  - assert (Qfloor ((t + 1) * 2) = m + 2) as ->.
    { apply Qfloor_unique.
      - rewrite inject_Z_plus. change (inject_Z 2) with 2%Q. lra.
      - rewrite !inject_Z_plus. change (inject_Z 2) with 2%Q.
        change (inject_Z 1) with 1%Q. lra. }
    replace (m + 2) with (m + 1 * 2) by lia.
    now rewrite Z_mod_plus_full.
Qed.

Lemma restart_prompt_blinks_witness :
  (0 <= 7 # 4)%Q
  /\ restart_prompt_visible (7 # 4) = false
  /\ restart_prompt_visible ((7 # 4) + 1) = restart_prompt_visible (7 # 4)
  /\ ~ exists n : Z,
         (inject_Z n <= 7 # 4)%Q /\ (7 # 4 < inject_Z n + (1 # 2))%Q.
Proof.
  assert (0 <= 7 # 4)%Q as H0 by (vm_compute; discriminate).
  destruct (restart_prompt_blinks (7 # 4) H0) as [Hiff Hper].
  split; [exact H0|]. split; [reflexivity|]. split; [exact Hper|].
  intros Hex. apply Hiff in Hex. vm_compute in Hex. discriminate.
Defined.

(** ** Frames and the random source *)

(** X19. Drawing a frame takes draws from the same random source as
    [new_food], as many as [_draw_background_artifacts] has candidate
    positions in the style in use: none in the first style (scores 0-4,
    15-19, ...), 56 in the second (banding) and 4256 in the third (pixel
    noise). So in the second and third style the cell of the next food
    depends on how many frames were drawn before it, in the first it does
    not. *)
Theorem frames_take_random_draws {Pixels : Type} rnd (g : @Game Pixels)
  (content : Pixels) :
  reachable rnd g ->
  random_pos (fst (draw content g))
  = (random_pos g
     + nth (Z.to_nat ((score g / STYLE_CHANGE_SCORE_INTERVAL) mod 3))
         [0; 56; 4256] 0)%nat.
Proof.
  intros Hr.
  pose proof (reachable_session_inv _ _ Hr)
    as (_ & _ & _ & _ & _ & Hidx & Hsty & _).
  assert (0 <= current_style_index g < 3) as Hrange
    by (rewrite Hidx; apply Z.mod_pos_bound; lia).
  rewrite <- Hidx.
  assert (random_pos (fst (draw content g))
          = (random_pos g + artifact_draws (current_style g))%nat) as ->.
  { unfold draw.
    cbn [ghosting_frames set_ghosting_frames set_random_pos current_style].
    destruct (max_ghosting_frames <? _); reflexivity. }
  rewrite py_index_crt_styles in Hsty by exact Hrange.
  injection Hsty as <-.
  assert (current_style_index g = 0 \/ current_style_index g = 1
          \/ current_style_index g = 2) as [-> | [-> | ->]] by lia;
    reflexivity.
Qed.

Lemma frames_take_random_draws_witness :
  reachable rnd_feed g_over
  /\ random_pos (fst (draw 1%nat g_over)) = (random_pos g_over + 56)%nat.
Proof.
  split; [exact g_over_reachable|].
  apply (frames_take_random_draws rnd_feed g_over 1%nat g_over_reachable).
Defined.
